(** * A prefix tree keyed by symbol sequences: model of [trie.hpp]

    The container [trie<T, KeyType>] owns a tree of [trie_node]s.  A node
    carries a pair [data_] (symbol, payload), the flag [is_leaf_] and the
    vector [children_]; the back pointer [parent_] makes the object graph a
    tree with one root, [top_].

    Representation chosen here.  The node tree is a value of the inductive
    type [trie_node]; a [trie_node*] is the position of the node inside the
    tree owned by [top_], written as the list of child indices met on the way
    up from the node to [top_] (so [[]] is [top_] itself).  [node->parent_] is
    the position with its first index dropped and is null exactly for [[]], as
    in the source, where only [top_] has a null parent.  Two pointers are equal
    iff the positions are equal.  Mutation through a pointer is a rewrite of
    the tree at that position ([modify]).

    Symbols ([KeyType]) are integers; [KeyMax] stands for
    [std::numeric_limits<KeyType>::max()].  [T_init] stands for the
    value-initialised payload [T()]. *)

From stdpp Require Import base tactics option list numbers strings sorting.
From Stdlib Require Import ZArith Lia.

Set Default Proof Using "Type".
Set Warnings "-register-all".
Open Scope Z_scope.

(** ** Outcomes of a call *)

Inductive exception : Type :=
  | out_of_range (what : string)
  | invalid_argument (what : string)
  | runtime_error (what : string).

(** [Undefined] is behaviour the language leaves undefined: dereferencing a
    null or dangling pointer, [front()]/[back()] of an empty vector, stepping
    an iterator past [end()].  [OutOfFuel] is only produced by the fuelled
    loops of the traversal functions. *)
Inductive result (A : Type) : Type :=
  | Ok (a : A)
  | Throw (e : exception)
  | Undefined
  | OutOfFuel.
Arguments Ok {A} a.
Arguments Throw {A} e.
Arguments Undefined {A}.
Arguments OutOfFuel {A}.

Definition result_bind {A B} (r : result A) (k : A -> result B) : result B :=
  match r with
  | Ok a => k a
  | Throw e => Throw e
  | Undefined => Undefined
  | OutOfFuel => OutOfFuel
  end.

Definition result_map {A B} (f : A -> B) (r : result A) : result B :=
  result_bind r (fun a => Ok (f a)).

Declare Scope result_scope.
Delimit Scope result_scope with result.
Notation "'let!' x ':=' r 'in' k" := (result_bind r (fun x => k))
  (at level 10, x pattern, r at level 100, k at level 200) : result_scope.
Open Scope result_scope.

(** [size_t] is taken to be 64 bits wide; [++size_] and [--size_] wrap. *)
Definition size_t_modulus : Z := 2 ^ 64.
Definition SIZE_MAX : Z := size_t_modulus - 1.
Definition size_incr (s : Z) : Z := (s + 1) mod size_t_modulus.
Definition size_decr (s : Z) : Z := (s - 1) mod size_t_modulus.

(** The exceptions the container throws. *)
Definition empty_key : exception :=
  out_of_range "Empty key couldn't be added".
Definition duplicate_key : exception := out_of_range "Key already exists".
Definition empty_subkey : exception :=
  invalid_argument "Advance with zero prefix".
Definition no_such_prefix : exception := runtime_error "No such prefix".
Definition increment_at_end : exception :=
  out_of_range "Iterator to end couldn't be incremented".
Definition decrement_at_begin : exception :=
  out_of_range "Begin iterator couldn't be decremented".

(** [typedef std::basic_string<KeyType> key_string] *)
Abbreviation key_string := (list Z).

(** A node pointer: the child indices met between the node and [top_],
    nearest first.  [i :: parent] is the [i]-th child of the node [parent]
    points to. *)
Definition ptr : Type := list nat.

Definition ptr_eqb (p q : ptr) : bool := bool_decide (p = q).

(** [node->parent_]: [None] is the null pointer. *)
Definition parent_ (node : ptr) : option ptr :=
  match node with
  | [] => None
  | _ :: parent => Some parent
  end.

Definition is_empty {A} (l : list A) : bool :=
  match l with [] => true | _ :: _ => false end.

Section Trie.

Context {T : Type}.
Variable T_init : T.
Variable KeyMax : Z.

(** ** [struct trie_node] *)

Local Unset Elimination Schemes.
Inductive trie_node : Type :=
  mk_node { data_ : Z * T; is_leaf_ : bool; children_ : list trie_node }.

Local Set Elimination Schemes.

Definition set_is_leaf (b : bool) (n : trie_node) : trie_node :=
  mk_node (data_ n) b (children_ n).
Definition set_value (v : T) (n : trie_node) : trie_node :=
  mk_node ((data_ n).1, v) (is_leaf_ n) (children_ n).
Definition set_children (ch : list trie_node) (n : trie_node) : trie_node :=
  mk_node (data_ n) (is_leaf_ n) ch.

(** [trie_node() = default] leaves [data_] value-initialised by
    [std::pair]'s default constructor, [is_leaf_ = false], no children. *)
Definition new_trie_node : trie_node := mk_node (0, T_init) false [].

(** [trie_node(const trie_node&)]: a recursive copy of the subtree, children
    in the same order. *)
Fixpoint copy_node (oth : trie_node) : trie_node :=
  mk_node (data_ oth) (is_leaf_ oth)
    ((fix copy_children (l : list trie_node) : list trie_node :=
        match l with
        | [] => []
        | child :: l' => copy_node child :: copy_children l'
        end) (children_ oth)).

(** The subtree found by following child indices downwards from [n]. *)
Fixpoint descend (n : trie_node) (path : list nat) : option trie_node :=
  match path with
  | [] => Some n
  | i :: path' =>
      match children_ n !! i with
      | Some child => descend child path'
      | None => None
      end
  end.

(** The same tree with the subtree at [path] replaced by [f] of itself. *)
Fixpoint rewrite_at (f : trie_node -> trie_node) (n : trie_node)
    (path : list nat) : trie_node :=
  match path with
  | [] => f n
  | i :: path' =>
      match children_ n !! i with
      | Some child =>
          set_children (<[i := rewrite_at f child path']> (children_ n)) n
      | None => n
      end
  end.

(** [*node]: the node a pointer refers to in the tree owned by [top];
    [None] for a pointer into nothing. *)
Definition deref (top : trie_node) (node : ptr) : option trie_node :=
  descend top (reverse node).

(** Assignment through a pointer: the node at [node] becomes [f] of itself. *)
Definition modify (f : trie_node -> trie_node) (top : trie_node) (node : ptr)
  : trie_node :=
  rewrite_at f top (reverse node).

(** [find_by_key]: binary search over [children_].  The returned index is
    the iterator; [length children_] is [children_.end()].  The loop runs at
    most [right - left] times, which is the fuel handed to it. *)
Fixpoint find_by_key_loop (fuel : nat) (children : list trie_node)
    (key_char : Z) (left right : nat) : nat :=
  match fuel with
  | O => length children
  | S fuel' =>
      if (left <? right)%nat then
        let mid := (left + (right - left) / 2)%nat in
        match children !! mid with
        | Some m =>
            if (m.(data_).1 =? key_char) then mid
            else if (m.(data_).1 >? key_char)
                 then find_by_key_loop fuel' children key_char left mid
                 else find_by_key_loop fuel' children key_char (mid + 1)%nat right
        | None => length children
        end
      else length children
  end.

Definition find_by_key (n : trie_node) (key_char : Z) : nat :=
  find_by_key_loop (length (children_ n)) (children_ n) key_char
                   0%nat (length (children_ n)).

(** [push_child]: [push_back], then the new child is swapped towards the
    front while it is not greater than its left neighbour.  [bubble] works on
    the vector as the reverse iterators see it, last element first. *)
Fixpoint bubble (child : trie_node) (r : list trie_node) : list trie_node :=
  match r with
  | [] => [child]
  | next :: r' =>
      if (child.(data_).1 >? next.(data_).1) then child :: next :: r'
      else next :: bubble child r'
  end.

Definition push_child (n : trie_node) (child : trie_node) : trie_node :=
  set_children (reverse (bubble child (reverse (children_ n)))) n.

(** Where the pushed child ends up in [children_]: the pointer [child]
    keeps designating it after the swaps. *)
Fixpoint bubble_swaps (child : trie_node) (r : list trie_node) : nat :=
  match r with
  | [] => 0
  | next :: r' =>
      if (child.(data_).1 >? next.(data_).1) then 0
      else S (bubble_swaps child r')
  end.

Definition push_child_pos (n : trie_node) (child : trie_node) : nat :=
  (length (children_ n) - bubble_swaps child (reverse (children_ n)))%nat.

(** [remove_child]: [std::find] by address, [erase], [delete]. *)
Definition remove_child (n : trie_node) (i : nat) : trie_node :=
  set_children (delete i (children_ n)) n.

(** ** [class trie] and [struct search_iterator] *)

Record trie : Type := mk_trie { top_ : trie_node; size_ : Z }.

Record search_iterator : Type := mk_iter { node_ : ptr }.

(** [operator==] compares the node pointers. *)
Definition iter_eqb (lhs rhs : search_iterator) : bool :=
  ptr_eqb (node_ lhs) (node_ rhs).

(** The node [create_end_prefix] allocates: symbol [max()], leaf, childless. *)
Definition end_prefix : trie_node := mk_node (KeyMax, T_init) true [].

Definition create_end_prefix (top : trie_node) : trie_node :=
  set_children (children_ top ++ [end_prefix]) top.

(** [trie()] *)
Definition trie_new : trie :=
  mk_trie (create_end_prefix (set_is_leaf false new_trie_node)) 0.

(** [trie(const trie&)] *)
Definition trie_copy (oth : trie) : trie :=
  mk_trie (copy_node (top_ oth)) (size_ oth).

Definition size (t : trie) : Z := size_ t.

Definition empty (t : trie) : bool :=
  (length (children_ (top_ t)) =? 1)%nat.

(** [end()]: [top_->children_.back()].  On a root without children [back()]
    is undefined; the position returned then refers to nothing. *)
Definition end_ (t : trie) : search_iterator :=
  mk_iter [(length (children_ (top_ t)) - 1)%nat].

(** [begin()]: first children all the way down. *)
Fixpoint begin_loop (n : trie_node) (node : ptr) : ptr :=
  match children_ n with
  | [] => node
  | front :: _ => begin_loop front (0%nat :: node)
  end.

Definition begin (t : trie) : search_iterator :=
  if empty t then end_ t else mk_iter (begin_loop (top_ t) []).

(** *** Iterator accessors *)

Definition value (t : trie) (it : search_iterator) : result T :=
  match deref (top_ t) (node_ it) with
  | Some n => Ok (data_ n).2
  | None => Undefined
  end.

(** Assignment through the reference returned by the non-const [value()]. *)
Definition value_assign (it : search_iterator) (v : T) (t : trie)
  : result unit * trie :=
  match deref (top_ t) (node_ it) with
  | Some _ => (Ok (), mk_trie (modify (set_value v) (top_ t) (node_ it)) (size_ t))
  | None => (Undefined, t)
  end.

(** [key()]: climb to the root, prepending the symbol of every node left. *)
Fixpoint key_loop (top : trie_node) (node : ptr) (key_str : key_string)
  : result key_string :=
  match node with
  | [] => Ok key_str
  | _ :: parent =>
      match deref top node with
      | Some n => key_loop top parent ((data_ n).1 :: key_str)
      | None => Undefined
      end
  end.

Definition key (t : trie) (it : search_iterator) : result key_string :=
  key_loop (top_ t) (node_ it) [].

(** *** [operator++] *)

Inductive loop_exit : Type :=
  | Return (node : ptr)
  | Break (node : ptr).

(** The first loop: climb until a leaf ancestor or a next sibling shows up. *)
Fixpoint incr_up (top : trie_node) (this : ptr) (node : ptr)
  : result loop_exit :=
  match deref top node with
  | None => Undefined
  | Some n =>
      if is_leaf_ n && negb (ptr_eqb node this) then Ok (Return node)
      else
        match node with
        | [] => Undefined
        | _ :: parent =>
            match deref top parent with
            | None => Undefined
            | Some pn =>
                if (1 <? length (children_ pn))%nat then
                  let found := find_by_key pn (data_ n).1 in
                  if (found =? length (children_ pn))%nat then Undefined
                  else
                    let next_child := S found in
                    if (next_child =? length (children_ pn))%nat
                    then incr_up top this parent
                    else Ok (Break (next_child :: parent))
                else incr_up top this parent
            end
        end
  end.

(** The second loop: first children down to a childless leaf. *)
Fixpoint incr_down (n : trie_node) (node : ptr) : result ptr :=
  if is_leaf_ n && is_empty (children_ n) then Ok node
  else
    match children_ n with
    | [] => Undefined
    | front :: _ => incr_down front (0%nat :: node)
    end.

(** The two loops in a row, the first one entered at [node]. *)
Definition incr_search (top : trie_node) (this : ptr) (node : ptr)
  : result ptr :=
  let! e := incr_up top this node in
  match e with
  | Return node => Ok node
  | Break node =>
      match deref top node with
      | Some m => incr_down m node
      | None => Undefined
      end
  end.

Definition incr_node (top : trie_node) (this : ptr) : result ptr :=
  match deref top this with
  | None => Undefined
  | Some n =>
      if ((data_ n).1 =? KeyMax) then Throw increment_at_end
      else incr_search top this this
  end.

(** *** [operator--] *)

(** "Shift down": last children until a leaf other than [this]. *)
Fixpoint decr_down (this : ptr) (n : trie_node) (node : ptr) : result ptr :=
  if is_leaf_ n && negb (ptr_eqb node this) then Ok node
  else
    (fix back (l : list trie_node) (i : nat) : result ptr :=
       match l with
       | [] => Undefined
       | c :: l' =>
           match l' with
           | [] => decr_down this c (i :: node)
           | _ :: _ => back l' (S i)
           end
       end) (children_ n) 0%nat.

(** "Shift left": climb until a previous sibling shows up. *)
Fixpoint decr_left (top : trie_node) (node : ptr) : result ptr :=
  match node with
  | [] => Throw decrement_at_begin
  | _ :: parent =>
      match deref top node, deref top parent with
      | Some n, Some pn =>
          if (1 <? length (children_ pn))%nat then
            let prev_child := find_by_key pn (data_ n).1 in
            if (prev_child =? 0)%nat then decr_left top parent
            else Ok ((prev_child - 1)%nat :: parent)
          else decr_left top parent
      | _, _ => Undefined
      end
  end.

Definition decr_node (top : trie_node) (this : ptr) : result ptr :=
  match deref top this with
  | None => Undefined
  | Some n =>
      if negb (is_empty (children_ n)) then decr_down this n this
      else
        let! node := decr_left top this in
        match deref top node with
        | Some m => decr_down this m node
        | None => Undefined
        end
  end.

(** The two operators as state transformers: the state is the iterator
    [*this] together with the container its pointer reaches into; the
    assignment [*this = search_iterator(node)] happens on return only. *)
Definition iter_step (step : trie_node -> ptr -> result ptr)
    (st : search_iterator * trie)
  : result search_iterator * (search_iterator * trie) :=
  match step (top_ st.2) (node_ st.1) with
  | Ok node => (Ok (mk_iter node), (mk_iter node, st.2))
  | Throw e => (Throw e, st)
  | Undefined => (Undefined, st)
  | OutOfFuel => (OutOfFuel, st)
  end.

Definition operator_incr := iter_step incr_node.
Definition operator_decr := iter_step decr_node.

(** *** [advance] *)

Fixpoint advance_loop (n : trie_node) (node : ptr) (sub_iter : key_string)
  : result ptr :=
  match sub_iter with
  | [] => Ok node
  | c :: sub_iter' =>
      let found := find_by_key n c in
      match children_ n !! found with
      | None => Throw no_such_prefix
      | Some child => advance_loop child (found :: node) sub_iter'
      end
  end.

Definition advance (sub_key : key_string) (st : search_iterator * trie)
  : result unit * (search_iterator * trie) :=
  if is_empty sub_key then
    (Throw empty_subkey, st)
  else
    match deref (top_ st.2) (node_ st.1) with
    | None => (Undefined, st)
    | Some n =>
        match advance_loop n (node_ st.1) sub_key with
        | Ok node =>
            let top1 := modify (set_is_leaf false) (top_ st.2) (node_ st.1) in
            let top2 := modify (set_is_leaf true) top1 node in
            (Ok (), (mk_iter node, mk_trie top2 (size_ st.2)))
        | Throw e => (Throw e, st)
        | Undefined => (Undefined, st)
        | OutOfFuel => (OutOfFuel, st)
        end
    end.

(** *** [insert] *)

(** The matching loop, entered at [node] with the rest of the key: it stops
    with the key used up, or at the first symbol without a child. *)
Fixpoint insert_match (n : trie_node) (node : ptr) (str_iter : key_string)
  : ptr * key_string :=
  match str_iter with
  | [] => (node, [])
  | c :: str_iter' =>
      let found := find_by_key n c in
      match children_ n !! found with
      | None => (node, str_iter)
      | Some child => insert_match child (found :: node) str_iter'
      end
  end.

(** The creating loop and the two assignments after it, seen from the node
    [n] the loop is entered at: the new contents of [n] and the pointer to
    the node the key ends at. *)
Fixpoint insert_create (n : trie_node) (node : ptr) (str_iter : key_string)
    (v : T) : trie_node * ptr :=
  match str_iter with
  | [] => (set_value v (set_is_leaf true n), node)
  | c :: str_iter' =>
      let new_child := mk_node (c, T_init) false [] in
      let pos := push_child_pos n new_child in
      let n' := push_child n new_child in
      let '(new_child', last) :=
        insert_create new_child (pos :: node) str_iter' v in
      (set_children (<[pos := new_child']> (children_ n')) n', last)
  end.

Definition insert (data : key_string * T) (t : trie)
  : result search_iterator * trie :=
  match data.1 with
  | [] => (Throw empty_key, t)
  | c :: str_iter' =>
      let found := find_by_key (top_ t) c in
      let '(node, str_iter) :=
        match children_ (top_ t) !! found with
        | Some child => insert_match child [found] str_iter'
        | None => ([], data.1)
        end in
      match deref (top_ t) node with
      | None => (Undefined, t)
      | Some n =>
          if is_empty str_iter then
            if negb (is_leaf_ n) then
              (Ok (mk_iter node),
               mk_trie (modify (fun n => set_is_leaf true (set_value data.2 n))
                               (top_ t) node)
                       (size_incr (size_ t)))
            else (Throw duplicate_key, t)
          else
            let '(n', last) := insert_create n node str_iter data.2 in
            (Ok (mk_iter last),
             mk_trie (modify (fun _ => n') (top_ t) node) (size_incr (size_ t)))
      end
  end.

(** *** [erase] *)

(** The climb.  Its condition reads [node->parent_->is_leaf_] first, so it
    is undefined once [node] is the root. *)
Fixpoint erase_climb (top : trie_node) (node : ptr) : result ptr :=
  match node with
  | [] => Undefined
  | _ :: parent =>
      match deref top parent with
      | None => Undefined
      | Some pn =>
          if negb (is_leaf_ pn) && (length (children_ pn) <=? 1)%nat
          then erase_climb top parent
          else Ok node
      end
  end.

Definition erase (iter : search_iterator) (t : trie) : result unit * trie :=
  match deref (top_ t) (node_ iter) with
  | None => (Undefined, t)
  | Some n =>
      if negb (is_empty (children_ n)) then
        (Ok (), mk_trie (modify (set_is_leaf false) (top_ t) (node_ iter))
                        (size_decr (size_ t)))
      else
        match erase_climb (top_ t) (node_ iter) with
        | Ok (i :: parent) =>
            (Ok (), mk_trie (modify (fun pn => remove_child pn i) (top_ t) parent)
                            (size_decr (size_ t)))
        | Ok [] => (Undefined, t)
        | Throw e => (Throw e, t)
        | Undefined => (Undefined, t)
        | OutOfFuel => (OutOfFuel, t)
        end
  end.

(** *** [clear], [swap] *)

Definition clear (t : trie) : trie :=
  mk_trie (create_end_prefix (set_children [] (top_ t))) 0.

Definition swap (this oth : trie) : trie * trie := (oth, this).

(** *** [find], [get_value] *)

Fixpoint find_loop (end_iter : search_iterator) (n : trie_node) (node : ptr)
    (key_iter : key_string) : search_iterator :=
  match key_iter with
  | [] => end_iter
  | c :: key_iter' =>
      let found := find_by_key n c in
      match children_ n !! found with
      | None => end_iter
      | Some child =>
          if is_leaf_ child && is_empty key_iter' then mk_iter (found :: node)
          else find_loop end_iter child (found :: node) key_iter'
      end
  end.

Definition find (t : trie) (k : key_string) : search_iterator :=
  find_loop (end_ t) (top_ t) [] k.

Definition get_value (t : trie) (prefix : key_string) (container : T)
  : result (bool * T) :=
  let found_iter := find t prefix in
  if iter_eqb found_iter (end_ t) then Ok (false, container)
  else let! v := value t found_iter in Ok (true, v).

(** *** [find_longest_prefix] *)

Fixpoint longest_loop (fuel : nat) (t : trie) (iter : search_iterator)
    (max_length : nat) (long_iter : search_iterator)
  : result search_iterator :=
  match fuel with
  | O => OutOfFuel
  | S fuel' =>
      if iter_eqb iter (end_ t) then Ok long_iter
      else
        let! k := key t iter in
        let length := length k in
        let! next := incr_node (top_ t) (node_ iter) in
        if (max_length <? length)%nat
        then longest_loop fuel' t (mk_iter next) length iter
        else longest_loop fuel' t (mk_iter next) max_length long_iter
  end.

Definition find_longest_prefix (fuel : nat) (t : trie)
  : result search_iterator :=
  longest_loop fuel t (begin t) 0%nat (end_ t).

(** ** Client loops used to state the traversal properties *)

(** [for (it = begin(); it != end(); ++it) keys.push_back(it.key());] *)
Fixpoint forward_loop (fuel : nat) (t : trie) (iter : search_iterator)
  : result (list key_string) :=
  match fuel with
  | O => OutOfFuel
  | S fuel' =>
      if iter_eqb iter (end_ t) then Ok []
      else
        let! k := key t iter in
        let! next := incr_node (top_ t) (node_ iter) in
        let! ks := forward_loop fuel' t (mk_iter next) in
        Ok (k :: ks)
  end.

Definition forward_keys (fuel : nat) (t : trie) : result (list key_string) :=
  forward_loop fuel t (begin t).

(** [for (it = begin(); it != end(); ++it) its.push_back(it);] *)
Fixpoint forward_iters_loop (fuel : nat) (t : trie) (iter : search_iterator)
  : result (list search_iterator) :=
  match fuel with
  | O => OutOfFuel
  | S fuel' =>
      if iter_eqb iter (end_ t) then Ok []
      else
        let! next := incr_node (top_ t) (node_ iter) in
        let! its := forward_iters_loop fuel' t (mk_iter next) in
        Ok (iter :: its)
  end.

Definition forward_iters (fuel : nat) (t : trie)
  : result (list search_iterator) :=
  forward_iters_loop fuel t (begin t).

(** [for (it = end(); it != begin(); ) { --it; keys.push_back(it.key()); }] *)
Fixpoint backward_loop (fuel : nat) (t : trie) (iter : search_iterator)
  : result (list key_string) :=
  match fuel with
  | O => OutOfFuel
  | S fuel' =>
      if iter_eqb iter (begin t) then Ok []
      else
        let! prev := decr_node (top_ t) (node_ iter) in
        let! k := key t (mk_iter prev) in
        let! ks := backward_loop fuel' t (mk_iter prev) in
        Ok (k :: ks)
  end.

Definition backward_keys (fuel : nat) (t : trie) : result (list key_string) :=
  backward_loop fuel t (end_ t).

(** ** Invariants of the node tree *)

Definition sym (n : trie_node) : Z := (data_ n).1.

Definition syms (l : list trie_node) : list Z := sym <$> l.

(** Children strictly ascending by symbol: sorted, no duplicates. *)
Definition sorted_children (n : trie_node) : Prop :=
  StronglySorted Z.lt (syms (children_ n)).

(** A node without children carries a key. *)
Definition leaf_if_childless (n : trie_node) : Prop :=
  children_ n = [] -> is_leaf_ n = true.

(** The symbol is one a key may hold, below the reserved maximum. *)
Definition real_symbol (n : trie_node) : Prop := sym n < KeyMax.

(** [P] holds of a node and of every node below it. *)
Inductive every_node (P : trie_node -> Prop) : trie_node -> Prop :=
  | every_node_intro n :
      P n -> Forall (every_node P) (children_ n) -> every_node P n.

Definition real_node (n : trie_node) : Prop :=
  sorted_children n /\ leaf_if_childless n /\ real_symbol n.

(** What the traversal relies on, the end node included. *)
Definition tree_ok (n : trie_node) : Prop :=
  every_node (fun m => sorted_children m /\ leaf_if_childless m) n.

(** A property that looks at the node's own fields and at the symbols of
    its children only; it survives a rewrite further down. *)
Definition shallow (P : trie_node -> Prop) : Prop :=
  forall n n', data_ n' = data_ n -> is_leaf_ n' = is_leaf_ n ->
               syms (children_ n') = syms (children_ n) -> P n -> P n'.

(** The root: not a leaf, children sorted, the last child is the end node
    (symbol [KeyMax], leaf, childless), the others are trees of real nodes. *)
Definition top_inv (top : trie_node) : Prop :=
  is_leaf_ top = false /\
  sorted_children top /\
  exists real e,
    children_ top = real ++ [e] /\
    sym e = KeyMax /\ is_leaf_ e = true /\ children_ e = [] /\
    Forall (every_node real_node) real.

(** Number of nodes of the subtree whose leaf flag is set. *)
Fixpoint count_leaves (n : trie_node) : nat :=
  ((if is_leaf_ n then 1 else 0) +
   (fix sum (l : list trie_node) : nat :=
      match l with
      | [] => 0
      | c :: l' => count_leaves c + sum l'
      end) (children_ n))%nat.

(** Leaf nodes of the container, the end node left out. *)
Definition count_entries (t : trie) : Z :=
  Z.of_nat (count_leaves (top_ t)) - 1.

Definition trie_inv (t : trie) : Prop :=
  top_inv (top_ t) /\ count_entries t <= size_ t <= SIZE_MAX.

(** ** Reachable container states *)

(** Keys handed to [insert] are made of real symbols. *)
Definition valid_key (k : key_string) : Prop := Forall (fun c => c < KeyMax) k.

(** States the public operations lead to from the empty container.  The
    iterator handed to [erase], [advance] and [value()] is a live one, the
    one [find] returns for a stored key.  [size_] counts entries, and more
    than [SIZE_MAX] of them do not fit a 64-bit address space, so [insert]
    is only taken below that count.  Calls that fail are steps too. *)
Inductive reachable : trie -> Prop :=
  | reach_new : reachable trie_new
  | reach_copy t : reachable t -> reachable (trie_copy t)
  | reach_clear t : reachable t -> reachable (clear t)
  | reach_insert t k v r t' :
      reachable t -> valid_key k -> size_ t < SIZE_MAX ->
      insert (k, v) t = (r, t') -> reachable t'
  | reach_erase t k r t' :
      reachable t -> find t k <> end_ t ->
      erase (find t k) t = (r, t') -> reachable t'
  | reach_advance t k sub_key r it' t' :
      reachable t -> find t k <> end_ t ->
      advance sub_key (find t k, t) = (r, (it', t')) -> reachable t'
  | reach_value_assign t k v r t' :
      reachable t -> find t k <> end_ t ->
      value_assign (find t k) v t = (r, t') -> reachable t'.

(** ** The container as a finite map *)

(** The payload stored under key [k] in the subtree [n], if [k] ends at a
    leaf.  Each step takes the child [find_by_key] returns. *)
Fixpoint get (n : trie_node) (k : key_string) : option T :=
  match k with
  | [] => if is_leaf_ n then Some (data_ n).2 else None
  | c :: k' =>
      match children_ n !! find_by_key n c with
      | Some child => get child k'
      | None => None
      end
  end.

(** The path of child indices [k] leads along, from [n] downwards. *)
Fixpoint walk (n : trie_node) (k : key_string) : option (list nat) :=
  match k with
  | [] => Some []
  | c :: k' =>
      match children_ n !! find_by_key n c with
      | Some child => (find_by_key n c ::.) <$> walk child k'
      | None => None
      end
  end.

(** ** The order of traversal *)

(** [f 0 c0 ++ f 1 c1 ++ ...] over the children, numbered from [i]. *)
Fixpoint flat_imap {A B} (f : nat -> A -> list B) (i : nat) (l : list A)
  : list B :=
  match l with
  | [] => []
  | c :: l' => f i c ++ flat_imap f (S i) l'
  end.

(** The leaf nodes of the subtree [n], as paths from [n], children before
    their parent and children in the order of [children_]. *)
Fixpoint leaves (n : trie_node) : list (list nat) :=
  flat_imap (fun i c => (i ::.) <$> leaves c) 0 (children_ n)
  ++ (if is_leaf_ n then [[]] else []).

(** The symbols met along a path. *)
Fixpoint key_of (n : trie_node) (path : list nat) : list Z :=
  match path with
  | [] => []
  | i :: path' =>
      match children_ n !! i with
      | Some c => sym c :: key_of c path'
      | None => []
      end
  end.

(** The keys of the subtree [n] in the same order as [leaves]. *)
Fixpoint entries (n : trie_node) : list (list Z) :=
  flat_imap (fun _ c => (sym c ::.) <$> entries c) 0 (children_ n)
  ++ (if is_leaf_ n then [[]] else []).

(** [q] is the element right after [p] in the list. *)
Definition consecutive {A} (l : list A) (p q : A) : Prop :=
  exists l1 l2, l = l1 ++ p :: q :: l2.

(** [q] comes right after [p] among the leaf nodes of [n]. *)
Inductive next_in : trie_node -> list nat -> list nat -> Prop :=
  | next_inside n j c p q :
      children_ n !! j = Some c -> next_in c p q ->
      next_in n (j :: p) (j :: q)
  | next_sibling n j c c' p q :
      children_ n !! j = Some c -> children_ n !! S j = Some c' ->
      last (leaves c) = Some p -> head (leaves c') = Some q ->
      next_in n (j :: p) (S j :: q)
  | next_parent n j c p :
      children_ n !! j = Some c -> S j = length (children_ n) ->
      last (leaves c) = Some p -> is_leaf_ n = true ->
      next_in n (j :: p) [].

(** The path of the end node. *)
Definition end_path (top : trie_node) : list nat :=
  [(length (children_ top) - 1)%nat].

(** The scan of [find_longest_prefix] over the leaves met, given as paths:
    the longest key so far and the iterator that has it. *)
Fixpoint longest_scan (top : trie_node) (max_length : nat)
    (long_iter : search_iterator) (l : list (list nat)) : search_iterator :=
  match l with
  | [] => long_iter
  | p :: l' =>
      if (max_length <? length (key_of top p))%nat
      then longest_scan top (length (key_of top p)) (mk_iter (reverse p)) l'
      else longest_scan top max_length long_iter l'
  end.

(** The order the traversal follows: a key comes before every proper
    prefix of itself, and otherwise the smaller symbol at the first
    difference decides. *)
Fixpoint key_before (k1 k2 : list Z) : bool :=
  match k1, k2 with
  | [], _ => false
  | _ :: _, [] => true
  | a :: r1, b :: r2 =>
      if a <? b then true else if a =? b then key_before r1 r2 else false
  end.

(** Lexicographic order, symbol by symbol: a proper prefix comes first. *)
Fixpoint lex_lt (k1 k2 : list Z) : bool :=
  match k1, k2 with
  | _, [] => false
  | [], _ :: _ => true
  | a :: r1, b :: r2 =>
      if a <? b then true else if a =? b then lex_lt r1 r2 else false
  end.

(** Ascending lexicographic order of the keys a forward traversal yields,
    whatever the fuel it is run with. *)
Definition visits_in_lex_order (t : trie) : Prop :=
  forall fuel ks,
    forward_keys fuel t = Ok ks ->
    StronglySorted (fun k1 k2 => lex_lt k1 k2 = true) ks.

(** ** Following a key, as the specification words it *)

(** The child of [n] whose symbol is [c], with its index. *)
Definition child_with_symbol (n : trie_node) (c : Z) : option (nat * trie_node) :=
  list_find (fun m => sym m = c) (children_ n).

(** Follow the symbols of [k] from [n] downwards, each through the child
    carrying that symbol; the result is the path walked, if every symbol has
    its child. *)
Fixpoint follow (n : trie_node) (k : key_string) : option (list nat) :=
  match k with
  | [] => Some []
  | c :: k' =>
      match child_with_symbol n c with
      | Some (i, child) => (i ::.) <$> follow child k'
      | None => None
      end
  end.

(** The walk uses up all of [k] and ends at a node whose leaf flag is set. *)
Definition ends_at_leaf (t : trie) (k : key_string) : Prop :=
  exists path n,
    follow (top_ t) k = Some path /\ descend (top_ t) path = Some n /\
    is_leaf_ n = true.

(** ** The calls that can fail, on a common state *)

(** The state a call works on: an iterator and the container its pointer
    reaches into. *)
Inductive call : Type :=
  | call_insert (data : key_string * T)
  | call_advance (sub_key : key_string)
  | call_incr
  | call_decr.

Definition forget {A} (r : result A) : result unit :=
  result_map (fun _ => ()) r.

Definition run (c : call) (st : search_iterator * trie)
  : result unit * (search_iterator * trie) :=
  match c with
  | call_insert data =>
      let '(r, t') := insert data st.2 in (forget r, (st.1, t'))
  | call_advance sub_key => advance sub_key st
  | call_incr => let '(r, st') := operator_incr st in (forget r, st')
  | call_decr => let '(r, st') := operator_decr st in (forget r, st')
  end.

(** A branch that carries one key and nothing else: non-leaf nodes with a
    single child each, down to a childless node. *)
Fixpoint bare_chain (n : trie_node) (path : list nat) : Prop :=
  match path with
  | [] => children_ n = []
  | j :: path' =>
      is_leaf_ n = false /\
      exists c, children_ n = [c] /\ j = 0%nat /\ bare_chain c path'
  end.

(** ** The remaining members *)

(** [operator*]: the pair made of [key()] and the payload of the node. *)
Definition operator_star (t : trie) (it : search_iterator)
  : result (key_string * T) :=
  let! k := key t it in
  let! v := value t it in
  Ok (k, v).

(** [operator=]: a copy of [rhs] unless [rhs] is the object assigned to,
    which [same] says; the old tree is deleted. *)
Definition operator_assign (same : bool) (this rhs : trie) : trie :=
  if same then this else mk_trie (copy_node (top_ rhs)) (size rhs).

(** States reached without [advance]. *)
Inductive reachable_no_advance : trie -> Prop :=
  | plain_new : reachable_no_advance trie_new
  | plain_copy t : reachable_no_advance t -> reachable_no_advance (trie_copy t)
  | plain_clear t : reachable_no_advance t -> reachable_no_advance (clear t)
  | plain_insert t k v r t' :
      reachable_no_advance t -> valid_key k -> size_ t < SIZE_MAX ->
      insert (k, v) t = (r, t') -> reachable_no_advance t'
  | plain_erase t k r t' :
      reachable_no_advance t -> find t k <> end_ t ->
      erase (find t k) t = (r, t') -> reachable_no_advance t'
  | plain_value_assign t k v r t' :
      reachable_no_advance t -> find t k <> end_ t ->
      value_assign (find t k) v t = (r, t') -> reachable_no_advance t'.

(** ** Client code *)

(** A fresh container filled by one [insert] call per pair, in order; a
    call that throws leaves the container as it was. *)
Definition insert_all (data : list (key_string * T)) : trie :=
  foldl (fun t d => (insert d t).2) trie_new data.

(** * Properties *)

(** ** Structural induction on nodes *)

Lemma trie_node_ind (P : trie_node -> Prop) :
  (forall d l ch, Forall P ch -> P (mk_node d l ch)) ->
  forall n, P n.
Proof.
  intros IH. fix rec 1. intros [d l ch]. apply IH.
  induction ch as [|c ch IHch]; constructor; [apply rec | apply IHch].
Qed.

Lemma copy_node_id n : copy_node n = n.
Proof.
  induction n as [d l ch IH] using trie_node_ind. simpl. f_equal.
  induction IH as [|c ch Hc _ IHch]; [done|]. by rewrite Hc, IHch.
Qed.

(** ** Sorted children and the binary search *)

Lemma sorted_lookup_lt (l : list Z) i j a b :
  StronglySorted Z.lt l -> l !! i = Some a -> l !! j = Some b ->
  (i < j)%nat -> a < b.
Proof.
  intros Hs. revert i j. induction Hs as [|x l Hs IH Hx]; intros i j Hi Hj Hij.
  - done.
  - destruct j as [|j]; [lia|]. destruct i as [|i]; simpl in *.
    + simplify_eq. rewrite Forall_forall in Hx. apply Hx.
      by eapply list_elem_of_lookup_2.
    + eapply IH; eauto. lia.
Qed.

Lemma sorted_lookup_inj (l : list Z) i j a :
  StronglySorted Z.lt l -> l !! i = Some a -> l !! j = Some a -> i = j.
Proof.
  intros Hs Hi Hj. destruct (Nat.lt_trichotomy i j) as [H|[H|H]]; [|done|].
  - pose proof (sorted_lookup_lt _ _ _ _ _ Hs Hi Hj H). lia.
  - pose proof (sorted_lookup_lt _ _ _ _ _ Hs Hj Hi H). lia.
Qed.

Lemma syms_lookup l i : syms l !! i = sym <$> l !! i.
Proof. apply list_lookup_fmap. Qed.

Lemma half_lt (x : nat) : (0 < x -> x / 2 < x)%nat.
Proof. intros. apply Nat.div_lt; lia. Qed.

Lemma find_by_key_loop_spec ch c :
  StronglySorted Z.lt (syms ch) ->
  forall fuel left right,
    (right - left <= fuel)%nat -> (right <= length ch)%nat ->
    (forall i m, (i < left)%nat -> ch !! i = Some m -> sym m < c) ->
    (forall i m, (right <= i)%nat -> ch !! i = Some m -> c < sym m) ->
    (exists m, ch !! find_by_key_loop fuel ch c left right = Some m /\ sym m = c)
    \/ (find_by_key_loop fuel ch c left right = length ch
        /\ forall i m, ch !! i = Some m -> sym m <> c).
Proof.
  intros Hs. induction fuel as [|fuel IH]; intros left right Hf Hr Hlo Hhi.
  - right. split; [done|]. intros i m Hm.
    destruct (decide (i < left)%nat) as [Hi|Hi].
    + pose proof (Hlo i m Hi Hm). lia.
    + assert (right <= i)%nat as Hi' by lia. pose proof (Hhi i m Hi' Hm). lia.
  - cbn [find_by_key_loop]. destruct (Nat.ltb_spec left right) as [Hlt|Hge].
    + pose proof (half_lt (right - left)) as Hhalf.
      set (mid := (left + (right - left) / 2)%nat).
      assert (left <= mid < right)%nat as Hmid by (unfold mid; lia).
      destruct (lookup_lt_is_Some_2 ch mid) as [m Hm]; [lia|].
      rewrite Hm. fold (sym m).
      destruct (Z.eqb_spec (sym m) c) as [Heq|Hne]; [left; eauto|].
      destruct (Z.gtb_spec (sym m) c) as [Hgt|Hle].
      * apply IH; [lia|lia|done|].
        intros i m' Hi Hm'. destruct (decide (i = mid)) as [Heq|Hne'].
        { rewrite Heq, Hm in Hm'. injection Hm' as <-. lia. }
        assert (sym m < sym m'); [|lia].
        apply (sorted_lookup_lt (syms ch) mid i); [done| | |lia].
        -- by rewrite syms_lookup, Hm.
        -- by rewrite syms_lookup, Hm'.
      * apply IH; [lia|lia| |done].
        intros i m' Hi Hm'. destruct (decide (i = mid)) as [Heq|Hne'].
        { rewrite Heq, Hm in Hm'. injection Hm' as <-. lia. }
        assert (sym m' < sym m); [|lia].
        apply (sorted_lookup_lt (syms ch) i mid); [done| | |lia].
        -- by rewrite syms_lookup, Hm'.
        -- by rewrite syms_lookup, Hm.
    + right. split; [done|]. intros i m Hm.
      destruct (decide (i < left)%nat) as [Hi|Hi].
      * pose proof (Hlo i m Hi Hm). lia.
      * assert (right <= i)%nat as Hi' by lia. pose proof (Hhi i m Hi' Hm). lia.
Qed.

Lemma find_by_key_spec n c :
  sorted_children n ->
  (exists m, children_ n !! find_by_key n c = Some m /\ sym m = c)
  \/ (find_by_key n c = length (children_ n)
      /\ forall i m, children_ n !! i = Some m -> sym m <> c).
Proof.
  intros Hs. apply find_by_key_loop_spec; [done|lia|lia|lia|].
  intros i m Hi Hm. apply lookup_lt_Some in Hm. lia.
Qed.

(** A child is found at its own index. *)
Lemma find_by_key_found n i m :
  sorted_children n -> children_ n !! i = Some m -> find_by_key n (sym m) = i.
Proof.
  intros Hs Hm. destruct (find_by_key_spec n (sym m) Hs) as [(m' & Hm' & Heq)|[_ Hno]].
  - apply (sorted_lookup_inj (syms (children_ n)) _ _ (sym m)); [done| |].
    + rewrite syms_lookup, Hm'. simpl. by rewrite Heq.
    + by rewrite syms_lookup, Hm.
  - by destruct (Hno i m Hm).
Qed.

Lemma find_by_key_missing n c :
  sorted_children n -> c ∉ syms (children_ n) ->
  find_by_key n c = length (children_ n).
Proof.
  intros Hs Hc. destruct (find_by_key_spec n c Hs) as [(m & Hm & Heq)|[? _]]; [|done].
  destruct Hc. subst c. apply list_elem_of_fmap. exists m. split; [done|].
  by eapply list_elem_of_lookup_2.
Qed.

Lemma find_by_key_lookup_None n c :
  sorted_children n ->
  children_ n !! find_by_key n c = None <-> c ∉ syms (children_ n).
Proof.
  intros Hs. split.
  - intros Hnone Hin. apply list_elem_of_fmap in Hin as (m & -> & Hm).
    apply list_elem_of_lookup_1 in Hm as [i Hi].
    by rewrite (find_by_key_found n i m Hs Hi), Hi in Hnone.
  - intros Hc. rewrite find_by_key_missing by done. by apply lookup_ge_None_2.
Qed.

(** The search looks at symbols only. *)
Lemma find_by_key_loop_syms ch ch' c fuel left right :
  syms ch = syms ch' ->
  find_by_key_loop fuel ch c left right = find_by_key_loop fuel ch' c left right.
Proof.
  intros Heq. assert (length ch = length ch') as Hlen.
  { apply (f_equal length) in Heq. unfold syms in Heq.
    by rewrite !length_fmap in Heq. }
  revert left right.
  induction fuel as [|fuel IH]; intros left right; cbn [find_by_key_loop]; [done|].
  case_match; [|done].
  pose proof (syms_lookup ch (left + (right - left) / 2)) as H1.
  pose proof (syms_lookup ch' (left + (right - left) / 2)) as H2.
  rewrite Heq, H2 in H1.
  destruct (ch !! _) as [m|], (ch' !! _) as [m'|]; simplify_eq/=; [|done].
  fold (sym m) (sym m'). rewrite H1, !IH. done.
Qed.

Lemma find_by_key_syms n n' c :
  syms (children_ n) = syms (children_ n') -> find_by_key n c = find_by_key n' c.
Proof.
  intros Heq. unfold find_by_key.
  assert (length (children_ n) = length (children_ n')) as ->.
  { apply (f_equal length) in Heq. unfold syms in Heq.
    by rewrite !length_fmap in Heq. }
  by apply find_by_key_loop_syms.
Qed.

(** ** [push_child] keeps the children sorted *)

Lemma bubble_split child r :
  exists r1 r2,
    r = r1 ++ r2 /\ bubble child r = r1 ++ child :: r2 /\
    bubble_swaps child r = length r1 /\
    Forall (fun m => sym child <= sym m) r1 /\
    (forall m, head r2 = Some m -> sym m < sym child).
Proof.
  induction r as [|next r IH]; simpl.
  - exists [], []. repeat split; [constructor|done].
  - fold (sym child) (sym next). destruct (Z.gtb_spec (sym child) (sym next)) as [Hgt|Hle].
    + exists [], (next :: r). repeat split; [constructor|].
      intros m [= <-]. lia.
    + destruct IH as (r1 & r2 & -> & -> & -> & Hr1 & Hr2).
      exists (next :: r1), r2. repeat split; [by constructor|done].
Qed.

Lemma push_child_split n child :
  exists l1 l2,
    children_ n = l1 ++ l2 /\
    children_ (push_child n child) = l1 ++ child :: l2 /\
    push_child_pos n child = length l1 /\
    Forall (fun m => sym child <= sym m) l2 /\
    (forall m, last l1 = Some m -> sym m < sym child).
Proof.
  destruct (bubble_split child (reverse (children_ n)))
    as (r1 & r2 & Hr & Hb & Hs & Hr1 & Hr2).
  exists (reverse r2), (reverse r1).
  assert (children_ n = reverse r2 ++ reverse r1) as Hch.
  { rewrite <-reverse_app, <-Hr. by rewrite reverse_involutive. }
  split; [done|]. split; [|split; [|split]].
  - unfold push_child. simpl. rewrite Hb, reverse_app, reverse_cons.
    by rewrite <-app_assoc.
  - unfold push_child_pos. rewrite Hs, Hch, length_app, !length_reverse. lia.
  - by apply Forall_reverse.
  - intros m Hm. apply Hr2. by rewrite <-head_reverse, reverse_involutive in Hm.
Qed.

Lemma push_child_lookup n child :
  children_ (push_child n child) !! push_child_pos n child = Some child.
Proof.
  destruct (push_child_split n child) as (l1 & l2 & _ & -> & -> & _).
  by rewrite list_lookup_middle.
Qed.

Lemma sorted_below_last (l : list Z) x c :
  StronglySorted Z.lt l -> last l = Some x -> x < c -> Forall (fun y => y < c) l.
Proof.
  intros Hs Hl Hx. apply last_Some in Hl as [l' ->].
  apply StronglySorted_app in Hs as (Hlt & _ & _).
  apply Forall_app. split; [|by repeat constructor].
  apply Forall_forall. intros y Hy. specialize (Hlt y x Hy). 
  assert (y < x); [|lia]. apply Hlt. apply list_elem_of_singleton. done.
Qed.

Lemma push_child_sorted n child :
  sorted_children n -> sym child ∉ syms (children_ n) ->
  sorted_children (push_child n child).
Proof.
  unfold sorted_children. intros Hs Hc.
  destruct (push_child_split n child) as (l1 & l2 & Hch & -> & _ & Hl2 & Hl1).
  rewrite Hch in Hs, Hc. unfold syms in *. rewrite fmap_app in *. rewrite fmap_cons.
  apply StronglySorted_app in Hs as (Hlt & Hs1 & Hs2).
  assert (Forall (fun y => sym child < y) (sym <$> l2)) as Hgt.
  { apply Forall_fmap, Forall_forall. intros m Hm. simpl.
    rewrite Forall_forall in Hl2. specialize (Hl2 m Hm).
    assert (sym m <> sym child); [|lia].
    intros Heq. apply Hc. rewrite <-Heq. apply elem_of_app. right.
    by apply list_elem_of_fmap_2. }
  assert (Forall (fun y => y < sym child) (sym <$> l1)) as Hlow.
  { destruct (last l1) as [m|] eqn:Hlast.
    - apply (sorted_below_last _ (sym m)); [done| |by apply Hl1].
      by rewrite fmap_last, Hlast.
    - apply last_None in Hlast as ->. constructor. }
  apply StronglySorted_app. split; [|split; [done|]].
  - intros x1 x2 Hx1 Hx2. rewrite Forall_forall in Hlow. specialize (Hlow x1 Hx1).
    apply elem_of_cons in Hx2 as [->|Hx2]; [done|]. by apply Hlt.
  - by constructor.
Qed.

(** ** Paths, pointers and rewriting *)

Lemma descend_app n p q :
  descend n (p ++ q) = descend n p ≫= fun m => descend m q.
Proof.
  revert n. induction p as [|i p IH]; intros n; simpl; [done|].
  destruct (children_ n !! i); [apply IH|done].
Qed.

Lemma deref_nil top : deref top [] = Some top.
Proof. done. Qed.

Lemma deref_cons top i node :
  deref top (i :: node) = deref top node ≫= fun n => children_ n !! i.
Proof.
  unfold deref. rewrite reverse_cons, descend_app.
  destruct (descend top (reverse node)) as [n|]; simpl; [|done].
  by destruct (children_ n !! i).
Qed.

Lemma deref_app top path node :
  deref top (reverse path ++ node) = deref top node ≫= fun n => descend n path.
Proof.
  unfold deref. by rewrite reverse_app, reverse_involutive, descend_app.
Qed.

Lemma deref_path top path : deref top (reverse path) = descend top path.
Proof. unfold deref. by rewrite reverse_involutive. Qed.

Lemma descend_rewrite_at f n p m :
  descend n p = Some m -> descend (rewrite_at f n p) p = Some (f m).
Proof.
  revert n. induction p as [|i p IH]; intros n; simpl; [naive_solver|].
  destruct (children_ n !! i) as [c|] eqn:Hc; [|done]. intros Hm. simpl.
  rewrite list_lookup_insert_eq by (by eapply lookup_lt_Some). by apply IH.
Qed.

Lemma rewrite_at_cons f n i p c :
  children_ n !! i = Some c ->
  rewrite_at f n (i :: p) = set_children (<[i := rewrite_at f c p]> (children_ n)) n.
Proof. intros Hc. simpl. by rewrite Hc. Qed.

Lemma rewrite_at_app f n p q :
  rewrite_at f n (p ++ q) = rewrite_at (fun m => rewrite_at f m q) n p.
Proof.
  revert n. induction p as [|i p IH]; intros n; simpl; [done|].
  destruct (children_ n !! i); [|done]. by rewrite IH.
Qed.

Lemma rewrite_at_sym f n p :
  (forall m, descend n p = Some m -> sym (f m) = sym m) ->
  sym (rewrite_at f n p) = sym n.
Proof.
  destruct p as [|i p]; simpl; [naive_solver|]. by destruct (children_ n !! i).
Qed.

Lemma rewrite_at_is_leaf f n p :
  p <> [] -> is_leaf_ (rewrite_at f n p) = is_leaf_ n.
Proof. destruct p as [|i p]; simpl; [done|]. by destruct (children_ n !! i). Qed.

Lemma rewrite_at_data f n p : p <> [] -> data_ (rewrite_at f n p) = data_ n.
Proof. destruct p as [|i p]; simpl; [done|]. by destruct (children_ n !! i). Qed.

Lemma syms_insert l i c c' :
  l !! i = Some c -> sym c' = sym c -> syms (<[i := c']> l) = syms l.
Proof.
  intros Hc Hs. unfold syms. rewrite list_fmap_insert, Hs.
  apply list_insert_id. by rewrite list_lookup_fmap, Hc.
Qed.

(** Rewriting below a node leaves the symbols of its children in place. *)
Lemma rewrite_at_syms f n i p :
  (forall c m, children_ n !! i = Some c -> descend c p = Some m ->
               sym (f m) = sym m) ->
  syms (children_ (rewrite_at f n (i :: p))) = syms (children_ n).
Proof.
  intros Hf. simpl. destruct (children_ n !! i) as [c|] eqn:Hc; [|done]. simpl.
  apply (syms_insert _ _ c); [done|]. apply rewrite_at_sym. eauto.
Qed.

(** ** [every_node] *)

Lemma every_node_inv P n :
  every_node P n -> P n /\ Forall (every_node P) (children_ n).
Proof. by destruct 1. Qed.

Lemma every_node_mono (P Q : trie_node -> Prop) n :
  (forall m, P m -> Q m) -> every_node P n -> every_node Q n.
Proof.
  intros HPQ. induction n as [d l ch IH] using trie_node_ind.
  intros [Hn Hch]%every_node_inv. constructor; [by apply HPQ|]. simpl in *.
  rewrite Forall_forall in IH, Hch. apply Forall_forall. naive_solver.
Qed.

Lemma every_node_descend P n p m :
  every_node P n -> descend n p = Some m -> every_node P m.
Proof.
  revert n. induction p as [|i p IH]; intros n Hn; simpl; [naive_solver|].
  destruct (children_ n !! i) as [c|] eqn:Hc; [|done].
  apply IH. apply every_node_inv in Hn as [_ Hch].
  rewrite Forall_forall in Hch. apply Hch. by eapply list_elem_of_lookup_2.
Qed.

Lemma syms_nil_inv l l' : syms l' = syms l -> l = [] -> l' = [].
Proof. intros Heq ->. by destruct l'. Qed.

Lemma real_node_shallow : shallow real_node.
Proof.
  intros n n' Hd Hl Hs (H1 & H2 & H3). unfold real_node, sorted_children,
    leaf_if_childless, real_symbol, sym in *. rewrite Hs, Hd, Hl.
  split; [done|]. split; [|done]. intros Hn'. apply H2.
  by eapply syms_nil_inv.
Qed.

Lemma sorted_children_shallow : shallow sorted_children.
Proof. intros n n' _ _ Hs. unfold sorted_children. by rewrite Hs. Qed.

Lemma every_node_rewrite_at P f n p :
  shallow P ->
  every_node P n ->
  (forall m, descend n p = Some m -> every_node P m ->
             every_node P (f m) /\ sym (f m) = sym m) ->
  every_node P (rewrite_at f n p).
Proof.
  intros HP. revert n. induction p as [|i p IH]; intros n Hn Hf; simpl.
  { by apply Hf. }
  destruct (children_ n !! i) as [c|] eqn:Hc; [|done].
  pose proof Hn as [Hn0 Hch]%every_node_inv.
  assert (every_node P c) as Hc'.
  { rewrite Forall_forall in Hch. apply Hch. by eapply list_elem_of_lookup_2. }
  assert (every_node P (rewrite_at f c p)) as Hc''.
  { apply IH; [done|]. intros m Hm. apply Hf. simpl. by rewrite Hc. }
  constructor; simpl.
  - eapply HP; [| | |exact Hn0]; simpl; [done..|].
    apply (syms_insert _ _ c); [done|]. apply rewrite_at_sym. intros m Hm.
    pose proof (every_node_descend P c p m Hc' Hm) as Hm'.
    apply Hf; [simpl; by rewrite Hc|done].
  - by apply Forall_insert.
Qed.

(** ** Counting leaves *)

Lemma count_leaves_unfold n :
  count_leaves n =
  ((if is_leaf_ n then 1 else 0) + sum_list (count_leaves <$> children_ n))%nat.
Proof.
  destruct n as [d l ch]. simpl. f_equal.
  induction ch as [|c ch IH]; simpl; [done|]. by rewrite IH.
Qed.

Lemma sum_list_insert (l : list nat) i x y :
  l !! i = Some x -> (sum_list (<[i := y]> l) + x = sum_list l + y)%nat.
Proof.
  revert i. induction l as [|a l IH]; intros [|i] Hi; simplify_eq/=; [lia|].
  specialize (IH i Hi). lia.
Qed.

Lemma sum_list_delete (l : list nat) i x :
  l !! i = Some x -> (sum_list (delete i l) + x = sum_list l)%nat.
Proof.
  revert i. induction l as [|a l IH]; intros [|i] Hi; simplify_eq/=; [lia|].
  specialize (IH i Hi). lia.
Qed.

Lemma count_leaves_rewrite_at f n p m :
  descend n p = Some m ->
  (count_leaves (rewrite_at f n p) + count_leaves m
   = count_leaves n + count_leaves (f m))%nat.
Proof.
  revert n. induction p as [|i p IH]; intros n; simpl.
  { intros [= ->]. lia. }
  destruct (children_ n !! i) as [c|] eqn:Hc; [|done]. intros Hm.
  specialize (IH c Hm). rewrite (count_leaves_unfold n), (count_leaves_unfold (set_children _ _)).
  simpl. rewrite list_fmap_insert.
  pose proof (sum_list_insert (count_leaves <$> children_ n) i (count_leaves c)
                (count_leaves (rewrite_at f c p))) as Hsum.
  rewrite list_lookup_fmap, Hc in Hsum. specialize (Hsum eq_refl). lia.
Qed.

(** ** Looking a symbol up among the children *)

Lemma find_by_key_loop_sym ch c fuel left right m :
  ch !! find_by_key_loop fuel ch c left right = Some m -> sym m = c.
Proof.
  revert left right. induction fuel as [|fuel IH]; intros left right;
    cbn [find_by_key_loop].
  - intros Hl. apply lookup_lt_Some in Hl. lia.
  - destruct (left <? right)%nat;
      [|intros Hl; apply lookup_lt_Some in Hl; lia].
    destruct (ch !! (left + (right - left) / 2)%nat) as [m'|] eqn:Hm';
      [|intros Hl; apply lookup_lt_Some in Hl; lia].
    fold (sym m'). destruct (Z.eqb_spec (sym m') c) as [Heq|Hne].
    + rewrite Hm'. by intros [= <-].
    + destruct (sym m' >? c); apply IH.
Qed.

Lemma find_by_key_sym n c m :
  children_ n !! find_by_key n c = Some m -> sym m = c.
Proof. apply find_by_key_loop_sym. Qed.

Lemma child_spec n c m :
  sorted_children n ->
  children_ n !! find_by_key n c = Some m <-> m ∈ children_ n /\ sym m = c.
Proof.
  intros Hs. split.
  - intros Hm. split; [by eapply list_elem_of_lookup_2|by eapply find_by_key_sym].
  - intros [[i Hi]%list_elem_of_lookup_1 <-]. by rewrite (find_by_key_found n i m).
Qed.

Lemma child_ext n n' c :
  sorted_children n -> sorted_children n' ->
  (forall m, sym m = c -> m ∈ children_ n <-> m ∈ children_ n') ->
  children_ n !! find_by_key n c = children_ n' !! find_by_key n' c.
Proof.
  intros Hs Hs' Hext.
  destruct (children_ n !! find_by_key n c) as [m|] eqn:Hm.
  - symmetry. apply child_spec in Hm as [Hm Hc]; [|done].
    apply child_spec; [done|]. split; [by apply Hext|done].
  - destruct (children_ n' !! find_by_key n' c) as [m'|] eqn:Hm'; [|done].
    apply child_spec in Hm' as [Hm' Hc]; [|done].
    apply Hext in Hm'; [|done].
    assert (children_ n !! find_by_key n c = Some m') as Hm''
      by (by apply child_spec).
    congruence.
Qed.

Lemma find_by_key_set_is_leaf b n c :
  find_by_key (set_is_leaf b n) c = find_by_key n c.
Proof. done. Qed.

Lemma find_by_key_set_value v n c :
  find_by_key (set_value v n) c = find_by_key n c.
Proof. done. Qed.

(** ** [get] and [walk] under rewriting *)

Lemma walk_descend n k p : walk n k = Some p -> is_Some (descend n p).
Proof.
  revert n p. induction k as [|c k IH]; intros n p; simpl.
  - intros [= <-]. by eexists.
  - destruct (children_ n !! find_by_key n c) as [ch|] eqn:Hch; [|done].
    destruct (walk ch k) as [p'|] eqn:Hw; [|done]. intros [= <-]. simpl.
    rewrite Hch. by eapply IH.
Qed.

Lemma walk_length n k p : walk n k = Some p -> length p = length k.
Proof.
  revert n p. induction k as [|c k IH]; intros n p; simpl.
  - by intros [= <-].
  - destruct (children_ n !! find_by_key n c) as [ch|]; [|done].
    destruct (walk ch k) as [p'|] eqn:Hw; [|done]. intros [= <-]. simpl.
    f_equal. by eapply IH.
Qed.

Lemma walk_app n k1 k2 :
  walk n (k1 ++ k2) =
  p1 ← walk n k1; m ← descend n p1; p2 ← walk m k2; Some (p1 ++ p2).
Proof.
  revert n. induction k1 as [|c k1 IH]; intros n; simpl.
  - by destruct (walk n k2).
  - destruct (children_ n !! find_by_key n c) as [ch|] eqn:Hch; [|done].
    rewrite IH. destruct (walk ch k1) as [p1|]; simpl; [|done]. rewrite Hch.
    destruct (descend ch p1) as [m|]; simpl; [|done].
    by destruct (walk m k2).
Qed.

Lemma get_app n kp p m r :
  walk n kp = Some p -> descend n p = Some m -> get n (kp ++ r) = get m r.
Proof.
  revert n p. induction kp as [|c kp IH]; intros n p; simpl.
  - intros [= <-] [= <-]. done.
  - destruct (children_ n !! find_by_key n c) as [ch|] eqn:Hch; [|done].
    destruct (walk ch kp) as [p'|] eqn:Hw; [|done]. intros [= <-]. simpl.
    rewrite Hch. by apply IH.
Qed.

Lemma get_rewrite_at_prefix f n kp p m r :
  walk n kp = Some p -> descend n p = Some m -> sym (f m) = sym m ->
  get (rewrite_at f n p) (kp ++ r) = get (f m) r.
Proof.
  intros Hw Hd Hf. revert n p Hw Hd. induction kp as [|c kp IH]; intros n p; simpl.
  - intros [= <-] [= <-]. done.
  - destruct (children_ n !! find_by_key n c) as [ch|] eqn:Hch; [|done].
    destruct (walk ch kp) as [p'|] eqn:Hw; [|done]. intros [= <-]. simpl.
    rewrite Hch. intros Hd. simpl.
    assert (find_by_key (set_children (<[find_by_key n c:=rewrite_at f ch p']>
              (children_ n)) n) c = find_by_key n c) as ->.
    { apply find_by_key_syms. simpl. apply (syms_insert _ _ ch); [done|].
      apply rewrite_at_sym. intros m' Hm'. congruence. }
    rewrite list_lookup_insert_eq by (by eapply lookup_lt_Some). by apply IH.
Qed.

Lemma get_rewrite_at_other f n kp p m k' :
  walk n kp = Some p -> descend n p = Some m -> sym (f m) = sym m ->
  ~ kp `prefix_of` k' ->
  get (rewrite_at f n p) k' = get n k'.
Proof.
  intros Hw Hd Hf. revert n p k' Hw Hd.
  induction kp as [|c kp IH]; intros n p k'; simpl.
  - intros _ _ []. apply prefix_nil.
  - destruct (children_ n !! find_by_key n c) as [ch|] eqn:Hch; [|done].
    destruct (walk ch kp) as [p'|] eqn:Hw; [|done]. intros [= <-]. simpl.
    rewrite Hch. intros Hd Hpre. destruct k' as [|c' k']; [done|]. simpl.
    assert (find_by_key (set_children (<[find_by_key n c:=rewrite_at f ch p']>
              (children_ n)) n) c' = find_by_key n c') as ->.
    { apply find_by_key_syms. simpl. apply (syms_insert _ _ ch); [done|].
      apply rewrite_at_sym. intros m' Hm'. congruence. }
    destruct (decide (c' = c)) as [->|Hne].
    + rewrite list_lookup_insert_eq by (by eapply lookup_lt_Some).
      rewrite Hch. apply (IH ch p'); [done..|].
      intros Hp. apply Hpre. by apply prefix_cons.
    + rewrite list_lookup_insert_ne; [done|].
      pose proof (find_by_key_sym _ _ _ Hch) as Hc. intros Heq.
      rewrite Heq in Hch. pose proof (find_by_key_sym _ _ _ Hch). congruence.
Qed.

(** ** The loops of [find], [insert] and [advance] follow [walk] *)

Lemma get_walk n k :
  get n k =
  p ← walk n k; m ← descend n p; if is_leaf_ m then Some (data_ m).2 else None.
Proof.
  revert n. induction k as [|c k IH]; intros n; simpl; [done|].
  destruct (children_ n !! find_by_key n c) as [ch|] eqn:Hch; [|done].
  rewrite IH. destruct (walk ch k) as [p|]; simpl; [|done]. by rewrite Hch.
Qed.

Lemma find_loop_spec e n node k :
  find_loop e n node k =
  match k, walk n k with
  | _ :: _, Some p =>
      match descend n p with
      | Some m => if is_leaf_ m then mk_iter (reverse p ++ node) else e
      | None => e
      end
  | _, _ => e
  end.
Proof.
  revert n node. induction k as [|c k IH]; intros n node; simpl; [done|].
  destruct (children_ n !! find_by_key n c) as [ch|] eqn:Hch; [|done].
  destruct k as [|c' k].
  - simpl. rewrite Hch. rewrite andb_true_r. by destruct (is_leaf_ ch).
  - rewrite andb_false_r. rewrite IH.
    destruct (walk ch (c' :: k)) as [p|]; simpl; [|done]. rewrite Hch.
    destruct (descend ch p) as [m|]; [|done].
    by rewrite reverse_cons, <-app_assoc.
Qed.

Lemma advance_loop_spec n node sub :
  advance_loop n node sub =
  match walk n sub with
  | Some p => Ok (reverse p ++ node)
  | None => Throw no_such_prefix
  end.
Proof.
  revert n node. induction sub as [|c sub IH]; intros n node; simpl; [done|].
  destruct (children_ n !! find_by_key n c) as [ch|] eqn:Hch; [|done].
  rewrite IH. destruct (walk ch sub) as [p|]; simpl; [|done].
  by rewrite reverse_cons, <-app_assoc.
Qed.

Lemma insert_match_spec n node k node' rest :
  insert_match n node k = (node', rest) ->
  exists k1 p m,
    k = k1 ++ rest /\ walk n k1 = Some p /\ node' = reverse p ++ node /\
    descend n p = Some m /\
    match rest with
    | [] => True
    | c :: _ => children_ m !! find_by_key m c = None
    end.
Proof.
  revert n node. induction k as [|c k IH]; intros n node; simpl.
  - intros [= <- <-]. by exists [], [], n.
  - destruct (children_ n !! find_by_key n c) as [ch|] eqn:Hch.
    + intros (k1 & p & m & -> & Hw & -> & Hd & Hrest)%IH.
      exists (c :: k1), (find_by_key n c :: p), m. simpl. rewrite Hch, Hw. simpl.
      split_and!; try done.
      by rewrite reverse_cons, <-app_assoc.
    + intros [= <- <-]. exists [], [], n. by split_and!.
Qed.

(** ** The end node *)

Lemma top_inv_end top :
  top_inv top ->
  exists e, last (children_ top) = Some e /\
            sym e = KeyMax /\ is_leaf_ e = true /\ children_ e = [].
Proof.
  intros (_ & _ & real & e & -> & ? & ? & ? & _). exists e.
  by rewrite last_snoc.
Qed.

Lemma top_inv_end_lookup top :
  top_inv top ->
  exists e, children_ top !! (length (children_ top) - 1)%nat = Some e /\
            sym e = KeyMax /\ is_leaf_ e = true /\ children_ e = [].
Proof.
  intros (e & He & ?)%top_inv_end. exists e. split; [|done].
  rewrite last_lookup in He. by replace (length (children_ top) - 1)%nat
    with (pred (length (children_ top))) by lia.
Qed.

Lemma top_inv_real_lookup top i c :
  top_inv top -> children_ top !! i = Some c ->
  (i < length (children_ top) - 1)%nat ->
  every_node real_node c.
Proof.
  intros (_ & _ & real & e & Hch & _ & _ & _ & Hreal) Hc Hi.
  rewrite Hch in Hc, Hi. rewrite length_app in Hi. simpl in Hi.
  rewrite lookup_app_l in Hc by lia.
  rewrite Forall_forall in Hreal. apply Hreal. by eapply list_elem_of_lookup_2.
Qed.

(** A path into the tree either ends at the end node or runs through real
    nodes only. *)
Lemma top_inv_descend top i p m :
  top_inv top -> descend top (i :: p) = Some m ->
  (i = (length (children_ top) - 1)%nat /\ p = []) \/
  ((i < length (children_ top) - 1)%nat /\ every_node real_node m).
Proof.
  intros Hinv. simpl. destruct (children_ top !! i) as [c|] eqn:Hc; [|done].
  intros Hm. pose proof (lookup_lt_Some _ _ _ Hc) as Hlt.
  destruct (decide (i = (length (children_ top) - 1)%nat)) as [->|Hne].
  - left. split; [done|]. destruct (top_inv_end_lookup top Hinv) as (e & He & _ & _ & Hech).
    rewrite He in Hc. injection Hc as <-. destruct p as [|j p]; [done|].
    simpl in Hm. by rewrite Hech in Hm.
  - right. split; [lia|]. eapply every_node_descend; [|done].
    eapply top_inv_real_lookup; [done..|lia].
Qed.

Lemma walk_end_key top k :
  top_inv top -> walk top k = Some [(length (children_ top) - 1)%nat] ->
  k = [KeyMax].
Proof.
  intros Hinv. destruct k as [|c k]; simpl; [done|].
  destruct (children_ top !! find_by_key top c) as [ch|] eqn:Hch; [|done].
  destruct (walk ch k) as [p|] eqn:Hw; [|done]. intros [= Hi ->].
  apply walk_length in Hw. destruct k; [|done].
  destruct (top_inv_end_lookup top Hinv) as (e & He & Hsym & _).
  rewrite Hi, He in Hch. injection Hch as <-.
  rewrite <-Hi in He. apply find_by_key_sym in He. congruence.
Qed.

Lemma walk_end top :
  top_inv top -> walk top [KeyMax] = Some [(length (children_ top) - 1)%nat].
Proof.
  intros Hinv. destruct (top_inv_end_lookup top Hinv) as (e & He & Hsym & _).
  destruct Hinv as (_ & Hs & _). simpl.
  rewrite <-Hsym, (find_by_key_found top _ e Hs He), He. done.
Qed.

(** ** [find] in terms of [get] *)

Lemma find_spec t k :
  find t k =
  match k, walk (top_ t) k with
  | _ :: _, Some p =>
      match descend (top_ t) p with
      | Some m => if is_leaf_ m then mk_iter (reverse p) else end_ t
      | None => end_ t
      end
  | _, _ => end_ t
  end.
Proof.
  unfold find. rewrite find_loop_spec. destruct k; [done|].
  destruct (walk _ _); [|done]. by rewrite app_nil_r.
Qed.

Lemma find_get_None t k : get (top_ t) k = None -> find t k = end_ t.
Proof.
  rewrite find_spec, get_walk. destruct k as [|c k]; [done|].
  destruct (walk _ _) as [p|]; simpl; [|done].
  destruct (descend _ _) as [m|]; simpl; [|done]. by destruct (is_leaf_ m).
Qed.

Lemma find_found t k :
  top_inv (top_ t) -> find t k <> end_ t ->
  exists i p m,
    walk (top_ t) k = Some (i :: p) /\ descend (top_ t) (i :: p) = Some m /\
    is_leaf_ m = true /\ find t k = mk_iter (reverse (i :: p)) /\
    (i < length (children_ (top_ t)) - 1)%nat /\ every_node real_node m.
Proof.
  intros Hinv. rewrite find_spec. destruct k as [|c k]; [done|].
  destruct (walk _ _) as [p|] eqn:Hw; [|done].
  destruct (descend _ _) as [m|] eqn:Hd; [|done].
  destruct (is_leaf_ m) eqn:Hl; [|done]. intros Hne.
  destruct p as [|i p]; [by apply walk_length in Hw|].
  exists i, p, m. split_and!; try done.
  - destruct (top_inv_descend _ _ _ _ Hinv Hd) as [[-> ->]|[? _]]; [|done].
    by destruct Hne.
  - destruct (top_inv_descend _ _ _ _ Hinv Hd) as [[-> ->]|[_ ?]]; [|done].
    by destruct Hne.
Qed.

Lemma find_get_Some t k v :
  top_inv (top_ t) -> get (top_ t) k = Some v -> k <> [KeyMax] ->
  find t k <> end_ t /\ value t (find t k) = Ok v.
Proof.
  intros Hinv Hg Hk. rewrite get_walk in Hg.
  destruct (walk (top_ t) k) as [p|] eqn:Hw; simpl in Hg; [|done].
  destruct (descend (top_ t) p) as [m|] eqn:Hd; simpl in Hg; [|done].
  destruct (is_leaf_ m) eqn:Hl; [|done]. injection Hg as <-.
  assert (find t k = mk_iter (reverse p)) as ->.
  { rewrite find_spec. destruct k as [|c k]; [|by rewrite Hw, Hd, Hl].
    injection Hw as <-. injection Hd as <-. destruct Hinv as [? _]. congruence. }
  unfold value. simpl. rewrite deref_path, Hd. split; [|done].
  intros [= Hp]. apply Hk. apply (walk_end_key (top_ t)); [done|].
  rewrite Hw. f_equal. apply (inj reverse). by rewrite Hp.
Qed.

Lemma find_end_key t : top_inv (top_ t) -> find t [KeyMax] = end_ t.
Proof.
  intros Hinv. rewrite find_spec, walk_end by done.
  destruct (descend _ _) as [m|]; [|done]. by destruct (is_leaf_ m).
Qed.

Lemma find_stored_iff t k :
  top_inv (top_ t) ->
  find t k <> end_ t <-> is_Some (get (top_ t) k) /\ k <> [KeyMax].
Proof.
  intros Hinv. split.
  - intros Hne. split.
    + destruct (get (top_ t) k) eqn:Hg; [by eexists|].
      by apply find_get_None in Hg.
    + intros ->. by apply Hne, find_end_key.
  - intros [[v Hv] Hk]. by eapply find_get_Some.
Qed.

Lemma valid_key_not_end k : valid_key k -> k <> [KeyMax].
Proof. intros Hv ->. apply Forall_cons in Hv as [? _]. lia. Qed.

(** ** What [insert_create] builds *)

Lemma insert_middle {A} (l1 l2 : list A) x y :
  <[length l1 := y]> (l1 ++ x :: l2) = l1 ++ y :: l2.
Proof. rewrite insert_app_r_alt by lia. by rewrite Nat.sub_diag. Qed.

Lemma insert_create_cons n node c rest v :
  exists l1 l2 chain final,
    insert_create (mk_node (c, T_init) false []) (length l1 :: node) rest v
      = (chain, final) /\
    insert_create n node (c :: rest) v
      = (set_children (l1 ++ chain :: l2) n, final) /\
    children_ n = l1 ++ l2 /\
    children_ (push_child n (mk_node (c, T_init) false []))
      = l1 ++ mk_node (c, T_init) false [] :: l2 /\
    Forall (fun m => c <= sym m) l2 /\
    (forall m, last l1 = Some m -> sym m < c).
Proof.
  destruct (push_child_split n (mk_node (c, T_init) false []))
    as (l1 & l2 & Hch & Hch' & Hpos & Hl2 & Hl1).
  destruct (insert_create (mk_node (c, T_init) false []) (length l1 :: node) rest v)
    as [chain final] eqn:Hic.
  exists l1, l2, chain, final. split_and!; try done.
  cbn [insert_create]. rewrite Hpos, Hic, Hch'.
  unfold set_children at 1. simpl. f_equal. unfold set_children. f_equal.
  by rewrite insert_middle.
Qed.

Lemma insert_create_sym n node rest v :
  sym (insert_create n node rest v).1 = sym n.
Proof.
  destruct rest as [|c rest]; [done|].
  destruct (insert_create_cons n node c rest v)
    as (l1 & l2 & chain & final & _ & -> & _). done.
Qed.

Lemma get_childless n k :
  children_ n = [] -> is_leaf_ n = false -> get n k = None.
Proof. intros Hch Hl. destruct k as [|c k]; simpl; by rewrite ?Hl, ?Hch. Qed.

Lemma sorted_children_nil n : children_ n = [] -> sorted_children n.
Proof. unfold sorted_children. intros ->. constructor. Qed.

Lemma sorted_insert_create n node c rest v :
  sorted_children n -> children_ n !! find_by_key n c = None ->
  sorted_children (insert_create n node (c :: rest) v).1.
Proof.
  intros Hs Hc.
  destruct (insert_create_cons n node c rest v)
    as (l1 & l2 & chain & final & Hic & -> & Hch & Hch' & _). simpl.
  pose proof (insert_create_sym (mk_node (c, T_init) false [])
                (length l1 :: node) rest v) as Hsym. rewrite Hic in Hsym.
  pose proof (push_child_sorted n (mk_node (c, T_init) false []) Hs) as Hs'.
  unfold sorted_children in Hs' |- *. rewrite Hch' in Hs'. simpl in Hsym |- *.
  assert (syms (l1 ++ chain :: l2)
          = syms (l1 ++ mk_node (c, T_init) false [] :: l2)) as ->.
  { unfold syms. rewrite !fmap_app, !fmap_cons. by rewrite Hsym. }
  apply Hs'. change (sym (mk_node (c, T_init) false [])) with c.
  by apply find_by_key_lookup_None.
Qed.

Lemma get_insert_create n node rest v r :
  sorted_children n ->
  match rest with
  | [] => True
  | c :: _ => children_ n !! find_by_key n c = None
  end ->
  get (insert_create n node rest v).1 r
  = if decide (r = rest) then Some v else get n r.
Proof.
  revert n node r. induction rest as [|c rest IH]; intros n node r Hs Habs.
  - destruct r as [|c' r]; done.
  - pose proof (sorted_insert_create n node c rest v Hs Habs) as Hs'.
    destruct (insert_create_cons n node c rest v)
      as (l1 & l2 & chain & final & Hic & Heq & Hch & _).
    rewrite Heq in *. simpl.
    pose proof (insert_create_sym (mk_node (c, T_init) false [])
                  (length l1 :: node) rest v) as Hsym. rewrite Hic in Hsym.
    change (sym chain = c) in Hsym.
    destruct r as [|c' r]; [done|]. cbn [get].
    destruct (decide (c' = c)) as [->|Hne].
    + assert (children_ (set_children (l1 ++ chain :: l2) n)
                !! find_by_key (set_children (l1 ++ chain :: l2) n) c
              = Some chain) as ->.
      { apply child_spec; [done|]. split; [|done]. simpl.
        apply elem_of_app. right. by left. }
      rewrite Habs.
      pose proof (IH (mk_node (c, T_init) false []) (length l1 :: node) r) as IH'.
      rewrite Hic in IH'. simpl in IH'.
      rewrite IH'; [|by apply sorted_children_nil|by destruct rest].
      rewrite get_childless by done.
      repeat case_decide; congruence.
    + rewrite decide_False by congruence.
      rewrite (child_ext (set_children (l1 ++ chain :: l2) n) n c'); [done..|].
      intros m Hm. simpl. rewrite Hch, !elem_of_app, elem_of_cons.
      split; [|intros [?|?]; [by left|by right; right]].
      intros [?|[Heq'|?]]; [by left| |by right].
      subst m. congruence.
Qed.

Lemma real_node_leaf c v : c < KeyMax -> every_node real_node (mk_node (c, v) true []).
Proof.
  intros Hc. constructor; [|constructor].
  split_and!; [by apply sorted_children_nil|done|done].
Qed.

Lemma chain_real c node rest v :
  c < KeyMax -> valid_key rest ->
  every_node real_node
    (insert_create (mk_node (c, T_init) false []) node rest v).1.
Proof.
  revert c node. induction rest as [|c' rest IH]; intros c node Hc Hv.
  - simpl. by apply real_node_leaf.
  - apply Forall_cons in Hv as [Hc' Hv].
    destruct (insert_create_cons (mk_node (c, T_init) false []) node c' rest v)
      as (l1 & l2 & chain & final & Hic & -> & Hch & _). simpl in *.
    symmetry in Hch. apply app_eq_nil in Hch as [-> ->]. simpl.
    specialize (IH c' (0%nat :: node) Hc' Hv). simpl in Hic. rewrite Hic in IH.
    constructor; simpl; [|constructor; [exact IH|constructor]].
    split_and!; [|done|done]. unfold sorted_children. simpl. repeat constructor.
Qed.

Lemma chain_count c node rest v :
  count_leaves (insert_create (mk_node (c, T_init) false []) node rest v).1 = 1%nat.
Proof.
  revert c node. induction rest as [|c' rest IH]; intros c node; [done|].
  destruct (insert_create_cons (mk_node (c, T_init) false []) node c' rest v)
    as (l1 & l2 & chain & final & Hic & -> & Hch & _).
  cbn [children_] in Hch. symmetry in Hch. apply app_eq_nil in Hch as [-> ->].
  specialize (IH c' (0%nat :: node)). cbn [length] in Hic. rewrite Hic in IH.
  cbn [fst] in IH |- *. rewrite count_leaves_unfold.
  cbn [set_children is_leaf_ children_ app fmap list_fmap sum_list sum_list_with].
  unfold id. lia.
Qed.

Lemma insert_create_count n node rest v :
  rest <> [] \/ is_leaf_ n = false ->
  count_leaves (insert_create n node rest v).1 = S (count_leaves n).
Proof.
  destruct rest as [|c rest].
  - intros [?|Hl]; [done|]. cbn [insert_create fst].
    rewrite (count_leaves_unfold n), (count_leaves_unfold (set_value _ _)).
    cbn [set_value set_is_leaf is_leaf_ children_]. by rewrite Hl.
  - intros _. destruct (insert_create_cons n node c rest v)
      as (l1 & l2 & chain & final & Hic & -> & Hch & _). cbn [fst].
    pose proof (chain_count c (length l1 :: node) rest v) as Hcount.
    rewrite Hic in Hcount. cbn [fst] in Hcount.
    rewrite (count_leaves_unfold n), (count_leaves_unfold (set_children _ _)).
    cbn [set_children is_leaf_ children_]. rewrite Hch, !fmap_app, fmap_cons.
    rewrite !sum_list_with_app. cbn [sum_list sum_list_with]. unfold id. lia.
Qed.

Lemma real_node_children n m :
  every_node real_node n -> m ∈ children_ n -> every_node real_node m.
Proof.
  intros [_ Hch]%every_node_inv Hm. rewrite Forall_forall in Hch. by apply Hch.
Qed.

Lemma insert_create_real n node rest v :
  every_node real_node n -> valid_key rest ->
  match rest with
  | [] => True
  | c :: _ => children_ n !! find_by_key n c = None
  end ->
  every_node real_node (insert_create n node rest v).1.
Proof.
  intros Hn Hv Habs. destruct rest as [|c rest].
  - simpl. apply every_node_inv in Hn as [(Hs & Hl & Hr) Hch].
    constructor; [|done]. by split_and!.
  - pose proof Hn as [(Hs & Hl & Hr) Hch]%every_node_inv.
    pose proof (sorted_insert_create n node c rest v Hs Habs) as Hs'.
    apply Forall_cons in Hv as [Hc Hv].
    destruct (insert_create_cons n node c rest v)
      as (l1 & l2 & chain & final & Hic & Heq & Hch' & _).
    rewrite Heq in Hs' |- *. simpl.
    pose proof (chain_real c (length l1 :: node) rest v Hc Hv) as Hchain.
    rewrite Hic in Hchain. simpl in Hchain.
    constructor; simpl.
    + split_and!; [done| |done]. intros Hnil. simpl in Hnil.
      by destruct l1.
    + rewrite Hch' in Hch. apply Forall_app in Hch as [H1 H2].
      apply Forall_app. split; [done|]. by constructor.
Qed.

Lemma insert_create_top top c rest v :
  top_inv top -> c < KeyMax -> valid_key rest ->
  children_ top !! find_by_key top c = None ->
  top_inv (insert_create top [] (c :: rest) v).1.
Proof.
  intros Hinv Hc Hv Habs.
  pose proof Hinv as (Hl & Hs & real & e & Hch & He & Hel & Hech & Hreal).
  pose proof (sorted_insert_create top [] c rest v Hs Habs) as Hs'.
  destruct (insert_create_cons top [] c rest v)
    as (l1 & l2 & chain & final & Hic & Heq & Hch' & _ & Hl2 & Hl1).
  rewrite Heq in Hs' |- *.
  pose proof (chain_real c [length l1] rest v Hc Hv) as Hchain.
  rewrite Hic in Hchain. simpl in Hchain.
  split; [done|]. split; [done|]. simpl.
  destruct (decide (l2 = [])) as [->|Hne].
  { rewrite app_nil_r in Hch'. rewrite Hch' in Hch. subst l1.
    specialize (Hl1 e). rewrite last_snoc in Hl1. specialize (Hl1 eq_refl). lia. }
  destruct (exists_last Hne) as (l2' & e' & ->).
  rewrite Hch', app_assoc in Hch. apply app_inj_tail in Hch as [<- ->].
  exists (l1 ++ chain :: l2'), e. split_and!; try done.
  - by rewrite <-app_assoc.
  - apply Forall_app in Hreal as [H1 H2]. apply Forall_app. split; [done|].
    by constructor.
Qed.

(** ** Rewriting below the root *)

Lemma rewrite_at_const f n p m :
  descend n p = Some m -> rewrite_at f n p = rewrite_at (fun _ => f m) n p.
Proof.
  revert n. induction p as [|i p IH]; intros n; simpl; [by intros [= ->]|].
  destruct (children_ n !! i) as [c|]; [|done]. intros Hm. by rewrite (IH c).
Qed.

Lemma top_inv_rewrite_at f top i p m :
  top_inv top -> descend top (i :: p) = Some m ->
  (i < length (children_ top) - 1)%nat ->
  every_node real_node (f m) -> sym (f m) = sym m ->
  top_inv (rewrite_at f top (i :: p)).
Proof.
  intros Hinv Hd Hi Hfm Hsym.
  pose proof Hinv as (Hl & Hs & real & e & Hch & He & Hel & Hech & Hreal).
  simpl in Hd |- *. destruct (children_ top !! i) as [c|] eqn:Hc; [|done].
  assert (every_node real_node c) as Hcreal
    by (by eapply top_inv_real_lookup).
  assert (every_node real_node (rewrite_at f c p)) as Hc'.
  { apply every_node_rewrite_at; [apply real_node_shallow|done|].
    intros m' Hm'. rewrite Hd in Hm'. by injection Hm' as <-. }
  assert (sym (rewrite_at f c p) = sym c) as Hsym'.
  { apply rewrite_at_sym. intros m' Hm'. rewrite Hd in Hm'. by injection Hm' as <-. }
  split; [done|]. split.
  - unfold sorted_children. simpl. by rewrite (syms_insert _ _ c).
  - simpl. rewrite Hch in Hi |- *. rewrite length_app in Hi. simpl in Hi.
    exists (<[i := rewrite_at f c p]> real), e. split_and!; try done.
    + by rewrite insert_app_l by lia.
    + by apply Forall_insert.
Qed.

Lemma get_rewrite_at_update f n kp p m rest (X : option T) :
  walk n kp = Some p -> descend n p = Some m -> sym (f m) = sym m ->
  (forall r, get (f m) r = if decide (r = rest) then X else get m r) ->
  forall k', get (rewrite_at f n p) k'
             = if decide (k' = kp ++ rest) then X else get n k'.
Proof.
  intros Hw Hd Hsym Hf k'. destruct (decide (kp `prefix_of` k')) as [[r ->]|Hpre].
  - rewrite (get_rewrite_at_prefix f n kp p m), Hf, (get_app n kp p m) by done.
    repeat case_decide; simplify_list_eq; congruence.
  - rewrite (get_rewrite_at_other f n kp p m) by done.
    rewrite decide_False; [done|]. intros ->. apply Hpre. by eexists.
Qed.

(** ** [insert] *)

Lemma insert_shape t (k : key_string) v :
  k <> [] ->
  exists k1 rest p m,
    k = k1 ++ rest /\ walk (top_ t) k1 = Some p /\
    descend (top_ t) p = Some m /\
    match rest with
    | [] => True
    | c :: _ => children_ m !! find_by_key m c = None
    end /\
    insert (k, v) t =
      if is_empty rest && is_leaf_ m then (Throw duplicate_key, t)
      else
        (Ok (mk_iter (insert_create m (reverse p) rest v).2),
         mk_trie (rewrite_at (fun _ => (insert_create m (reverse p) rest v).1)
                             (top_ t) p)
                 (size_incr (size_ t))).
Proof.
  intros Hk. destruct k as [|c k]; [done|].
  destruct (insert_match (top_ t) [] (c :: k)) as [node rest] eqn:Him.
  assert (insert (c :: k, v) t =
          match deref (top_ t) node with
          | None => (Undefined, t)
          | Some n =>
              if is_empty rest then
                if negb (is_leaf_ n) then
                  (Ok (mk_iter node),
                   mk_trie (modify (fun n => set_is_leaf true (set_value v n))
                                   (top_ t) node)
                           (size_incr (size_ t)))
                else (Throw duplicate_key, t)
              else
                let '(n', final) := insert_create n node rest v in
                (Ok (mk_iter final),
                 mk_trie (modify (fun _ => n') (top_ t) node) (size_incr (size_ t)))
          end) as ->.
  { unfold insert. cbn [fst snd]. cbn [insert_match] in Him.
    destruct (children_ (top_ t) !! find_by_key (top_ t) c);
      [by rewrite Him|by injection Him as <- <-]. }
  apply insert_match_spec in Him as (k1 & p & m & Hk1 & Hw & -> & Hd & Habs).
  exists k1, rest, p, m. split_and!; try done.
  rewrite app_nil_r. rewrite deref_path, Hd. unfold modify.
  rewrite reverse_involutive. destruct rest as [|c' rest].
  - simpl. destruct (is_leaf_ m); [done|]. simpl.
    by rewrite (rewrite_at_const _ _ _ m Hd).
  - cbn [is_empty andb]. by destruct (insert_create _ _ _ _).
Qed.

Lemma valid_key_app k1 k2 : valid_key (k1 ++ k2) <-> valid_key k1 /\ valid_key k2.
Proof. apply Forall_app. Qed.

Lemma walk_real top k p :
  top_inv top -> valid_key k -> walk top k = Some p ->
  p = [] \/
  exists i p' m,
    p = i :: p' /\ descend top p = Some m /\
    (i < length (children_ top) - 1)%nat /\ every_node real_node m.
Proof.
  intros Hinv Hv Hw. destruct p as [|i p]; [by left|right].
  destruct (walk_descend _ _ _ Hw) as [m Hm]. exists i, p, m.
  destruct (top_inv_descend _ _ _ _ Hinv Hm) as [[-> ->]|[??]]; [|done].
  apply walk_end_key in Hw; [|done]. by apply valid_key_not_end in Hv.
Qed.

Lemma top_inv_sorted_descend top p m :
  top_inv top -> descend top p = Some m -> sorted_children m.
Proof.
  intros Hinv Hm. destruct p as [|i p].
  { injection Hm as <-. by destruct Hinv as (_ & ? & _). }
  destruct (top_inv_descend _ _ _ _ Hinv Hm) as [[-> ->]|[_ Hr]].
  - destruct (top_inv_end_lookup top Hinv) as (e & He & _ & _ & Hech).
    simpl in Hm. rewrite He in Hm. injection Hm as <-.
    by apply sorted_children_nil.
  - by apply every_node_inv in Hr as [(? & _) _].
Qed.

Lemma insert_ok t k v :
  top_inv (top_ t) -> valid_key k -> k <> [] -> get (top_ t) k = None ->
  exists it top',
    insert (k, v) t = (Ok it, mk_trie top' (size_incr (size_ t))) /\
    top_inv top' /\
    (forall k', get top' k' = if decide (k' = k) then Some v else get (top_ t) k')
    /\ count_leaves top' = S (count_leaves (top_ t)).
Proof.
  intros Hinv Hv Hk Hg.
  destruct (insert_shape t k v Hk) as (k1 & rest & p & m & -> & Hw & Hd & Habs & Hins).
  apply valid_key_app in Hv as [Hv1 Hv2].
  assert (is_empty rest && is_leaf_ m = false) as Hnd.
  { destruct rest as [|c rest]; [|done]. simpl. rewrite app_nil_r, get_walk, Hw in Hg.
    simpl in Hg. rewrite Hd in Hg. simpl in Hg. by destruct (is_leaf_ m). }
  rewrite Hnd in Hins. eexists _, _. split; [exact Hins|].
  pose proof (top_inv_sorted_descend _ _ _ Hinv Hd) as Hsm.
  split; [|split].
  - destruct (walk_real _ _ _ Hinv Hv1 Hw) as [->|(i & p' & m' & -> & Hd' & Hi & Hr)].
    + injection Hd as <-. simpl. destruct rest as [|c rest].
      { rewrite app_nil_r in Hk. by apply walk_length in Hw; destruct k1. }
      apply Forall_cons in Hv2 as [Hc Hv2]. by apply insert_create_top.
    + rewrite Hd in Hd'. injection Hd' as <-.
      eapply top_inv_rewrite_at; [done..| |].
      * by apply insert_create_real.
      * apply insert_create_sym.
  - apply (get_rewrite_at_update _ _ k1 p m rest (Some v)); [done..| |].
    + apply insert_create_sym.
    + intros r. by apply get_insert_create.
  - pose proof (count_leaves_rewrite_at
                  (fun _ => (insert_create m (reverse p) rest v).1) _ _ _ Hd) as Hc.
    cbv beta in Hc. rewrite insert_create_count in Hc; [lia|].
    destruct rest as [|c rest]; [right|by left].
    rewrite app_nil_r, get_walk, Hw in Hg. simpl in Hg. rewrite Hd in Hg.
    simpl in Hg. by destruct (is_leaf_ m).
Qed.

(** ** [erase] *)

Lemma list_split_at {A} (l : list A) i x :
  l !! i = Some x ->
  exists l1 l2, l = l1 ++ x :: l2 /\ delete i l = l1 ++ l2 /\ length l1 = i.
Proof.
  intros Hi. exists (take i l), (drop (S i) l). split_and!.
  - by rewrite take_drop_middle.
  - apply delete_take_drop.
  - apply length_take_le. apply lookup_lt_Some in Hi. lia.
Qed.

Lemma sorted_middle (l1 l2 : list Z) x :
  StronglySorted Z.lt (l1 ++ x :: l2) ->
  StronglySorted Z.lt (l1 ++ l2) /\ x ∉ l1 ++ l2.
Proof.
  intros (H12 & H1 & [Hx H2]%StronglySorted_cons)%StronglySorted_app. split.
  - apply StronglySorted_app. split_and!; [|done..].
    intros a b Ha Hb. apply H12; [done|]. by right.
  - intros [Hin|Hin]%elem_of_app.
    + specialize (H12 x x Hin). assert (x < x); [|lia]. apply H12. by left.
    + rewrite Forall_forall in Hx. specialize (Hx x Hin). lia.
Qed.

Lemma delete_oob {A} (l : list A) i : l !! i = None -> delete i l = l.
Proof.
  intros Hi%lookup_ge_None.
  rewrite delete_take_drop, take_ge, drop_ge by lia. by rewrite app_nil_r.
Qed.

Lemma remove_child_sorted n j :
  sorted_children n -> sorted_children (remove_child n j).
Proof.
  unfold sorted_children. simpl. intros Hs.
  destruct (children_ n !! j) as [c|] eqn:Hc.
  - destruct (list_split_at _ _ _ Hc) as (l1 & l2 & Heq & -> & _).
    rewrite Heq in Hs. unfold syms in *. rewrite fmap_app in *.
    rewrite fmap_cons in Hs. by apply sorted_middle in Hs as [? _].
  - by rewrite delete_oob.
Qed.

Lemma walk_inj n k1 k2 p :
  walk n k1 = Some p -> walk n k2 = Some p -> k1 = k2.
Proof.
  revert n k2 p. induction k1 as [|c1 k1 IH]; intros n k2 p H1 H2.
  - injection H1 as <-. apply walk_length in H2. by destruct k2.
  - destruct k2 as [|c2 k2]; [by apply walk_length in H1; injection H2 as <-|].
    simpl in *.
    destruct (children_ n !! find_by_key n c1) as [ch1|] eqn:Hch1; [|done].
    destruct (children_ n !! find_by_key n c2) as [ch2|] eqn:Hch2; [|done].
    destruct (walk ch1 k1) as [p1|] eqn:Hw1; [|done].
    destruct (walk ch2 k2) as [p2|] eqn:Hw2; [|done].
    simpl in *. simplify_eq. rewrite <-H in Hch2.
    rewrite Hch1 in Hch2. injection Hch2 as <-.
    pose proof (find_by_key_sym _ _ _ Hch1) as Hs1. rewrite H in Hch1.
    pose proof (find_by_key_sym _ _ _ Hch1) as Hs2. f_equal; [congruence|].
    by eapply IH.
Qed.

Lemma walk_split n k p1 p2 :
  walk n k = Some (p1 ++ p2) ->
  exists k1 k2 m,
    k = k1 ++ k2 /\ walk n k1 = Some p1 /\ descend n p1 = Some m /\
    walk m k2 = Some p2.
Proof.
  revert n k. induction p1 as [|i p1 IH]; intros n k Hw.
  - exists [], k, n. by split_and!.
  - destruct k as [|c k]; [done|]. simpl in Hw.
    destruct (children_ n !! find_by_key n c) as [ch|] eqn:Hch; [|done].
    destruct (walk ch k) as [p|] eqn:Hw'; [|done]. simpl in Hw.
    injection Hw as <- ->.
    destruct (IH ch k Hw') as (k1 & k2 & m & -> & Hw1 & Hd & Hw2).
    exists (c :: k1), k2, m. simpl. by rewrite Hch, Hw1.
Qed.

Lemma bare_chain_get n cp r v :
  bare_chain n cp -> get n r = Some v -> walk n r = Some cp.
Proof.
  revert n r. induction cp as [|j cp IH]; intros n r; simpl.
  - intros Hch. destruct r as [|c r]; simpl; [done|]. by rewrite Hch.
  - intros (Hl & c & Hch & -> & Hc). destruct r as [|c' r]; simpl.
    { by rewrite Hl. }
    rewrite Hch. destruct ([c] !! find_by_key n c') as [ch|] eqn:Hch'; [|done].
    destruct (find_by_key n c') as [|i]; [|done]. injection Hch' as <-.
    intros Hg. by rewrite (IH c r Hc Hg).
Qed.

Lemma bare_chain_count n cp m :
  bare_chain n cp -> descend n cp = Some m -> is_leaf_ m = true ->
  count_leaves n = 1%nat.
Proof.
  revert n. induction cp as [|j cp IH]; intros n; simpl.
  - intros Hch [= <-] Hl. rewrite count_leaves_unfold, Hch, Hl. done.
  - intros (Hl & c & Hch & -> & Hc). rewrite Hch. simpl. intros Hd Hm.
    rewrite count_leaves_unfold, Hch, Hl. simpl. rewrite (IH c); done.
Qed.

(** The climb of [erase] never reads the parent of the root: a root with two
    children or more stops it one level below at the latest. *)
Lemma erase_climb_spec top cur cp m :
  (1 < length (children_ top))%nat -> cur <> [] ->
  deref top cur = Some m -> bare_chain m cp ->
  exists j parent pm cm cp',
    erase_climb top cur = Ok (j :: parent) /\
    deref top parent = Some pm /\ children_ pm !! j = Some cm /\
    bare_chain cm cp' /\
    reverse cp' ++ j :: parent = reverse cp ++ cur /\
    (is_leaf_ pm = true \/ (1 < length (children_ pm))%nat).
Proof.
  intros Htop. revert cp m. induction cur as [|j cur IH]; intros cp m Hne Hm Hcp.
  { done. }
  rewrite deref_cons in Hm. cbn [erase_climb].
  destruct (deref top cur) as [pn|] eqn:Hpn; [|done]. simpl in Hm.
  destruct (negb (is_leaf_ pn) && (length (children_ pn) <=? 1)%nat) eqn:Hcond.
  - apply andb_true_iff in Hcond as [Hl%negb_true_iff Hlen%Nat.leb_le].
    assert (children_ pn = [m] /\ j = 0%nat) as [Hch ->].
    { destruct (children_ pn) as [|x [|y l]]; simpl in *; [done| |lia].
      destruct j; [|done]. by injection Hm as ->. }
    assert (cur <> []) as Hcur.
    { intros ->. injection Hpn as ->. rewrite Hch in Htop. simpl in Htop. lia. }
    destruct (IH (0%nat :: cp) pn Hcur eq_refl) as
      (j' & parent & pm & cm & cp' & -> & Hpm & Hcm & Hcp' & Heq & Hstop).
    { simpl. split; [done|]. by exists m. }
    exists j', parent, pm, cm, cp'. split_and!; try done.
    by rewrite Heq, reverse_cons, <-app_assoc.
  - exists j, cur, pn, m, cp. split_and!; try done.
    apply andb_false_iff in Hcond as [Hl%negb_false_iff|Hlen%Nat.leb_gt];
      [by left|by right].
Qed.

Lemma get_remove_child pm j cm cp kchain :
  sorted_children pm -> children_ pm !! j = Some cm ->
  bare_chain cm cp -> walk cm kchain = Some cp ->
  forall r, get (remove_child pm j) r
            = if decide (r = sym cm :: kchain) then None else get pm r.
Proof.
  intros Hs Hcm Hcp Hw r.
  pose proof (remove_child_sorted pm j Hs) as Hs'.
  destruct (list_split_at _ _ _ Hcm) as (l1 & l2 & Heq & Hdel & _).
  destruct r as [|c r]; [done|]. cbn [get].
  destruct (decide (c = sym cm)) as [->|Hne].
  - assert (children_ (remove_child pm j)
              !! find_by_key (remove_child pm j) (sym cm) = None) as ->.
    { apply find_by_key_lookup_None; [done|]. simpl. rewrite Hdel.
      unfold sorted_children in Hs. rewrite Heq in Hs. unfold syms in *.
      rewrite fmap_app in *. rewrite fmap_cons in Hs.
      by apply sorted_middle in Hs as [_ ?]. }
    rewrite (find_by_key_found pm j cm), Hcm by done.
    case_decide; [done|]. destruct (get cm r) as [v|] eqn:Hg; [|done].
    apply (bare_chain_get _ cp) in Hg; [|done].
    pose proof (walk_inj _ _ _ _ Hg Hw). congruence.
  - rewrite decide_False by congruence.
    rewrite (child_ext (remove_child pm j) pm c); [done..|].
    intros m Hm. simpl. rewrite Hdel, Heq, !elem_of_app, elem_of_cons.
    split; [intros [?|?]; [by left|by right; right]|].
    intros [?|[Heq'|?]]; [by left| |by right]. subst m. congruence.
Qed.

Lemma real_remove_child pm j :
  every_node real_node pm ->
  is_leaf_ pm = true \/ (1 < length (children_ pm))%nat ->
  every_node real_node (remove_child pm j).
Proof.
  intros [(Hs & Hl & Hr) Hch]%every_node_inv Hstop. constructor; simpl.
  - split_and!; [by apply remove_child_sorted| |done].
    intros Hnil. simpl in *. destruct Hstop as [?|Hlen]; [done|].
    destruct (children_ pm !! j) eqn:Hj.
    + apply (f_equal length) in Hnil.
      rewrite length_delete in Hnil by (by eexists). simpl in Hnil. lia.
    + rewrite delete_oob in Hnil by done. rewrite Hnil in Hlen. simpl in Hlen. lia.
  - by apply Forall_delete.
Qed.

Lemma top_inv_remove_child top i :
  top_inv top -> (i < length (children_ top) - 1)%nat ->
  top_inv (remove_child top i).
Proof.
  intros (Hl & Hs & real & e & Hch & He & Hel & Hech & Hreal) Hi.
  split; [done|]. split; [by apply remove_child_sorted|].
  simpl. rewrite Hch in Hi |- *. rewrite length_app in Hi. simpl in Hi.
  exists (delete i real), e. split_and!; try done.
  - destruct (lookup_lt_is_Some_2 real i) as [c Hc]; [lia|].
    destruct (list_split_at _ _ _ Hc) as (l1 & l2 & -> & -> & <-).
    by rewrite <-!app_assoc, <-app_comm_cons, delete_middle.
  - by apply Forall_delete.
Qed.

Lemma count_leaves_remove_child pm j cm :
  children_ pm !! j = Some cm ->
  (count_leaves (remove_child pm j) + count_leaves cm = count_leaves pm)%nat.
Proof.
  intros Hcm. rewrite (count_leaves_unfold pm), (count_leaves_unfold (remove_child _ _)).
  cbn [remove_child set_children is_leaf_ children_]. rewrite list_fmap_delete.
  pose proof (sum_list_delete (count_leaves <$> children_ pm) j (count_leaves cm))
    as Hsum.
  rewrite list_lookup_fmap, Hcm in Hsum. specialize (Hsum eq_refl). lia.
Qed.

Lemma real_set_is_leaf_false m :
  every_node real_node m -> children_ m <> [] ->
  every_node real_node (set_is_leaf false m).
Proof.
  intros [(Hs & Hl & Hr) Hch]%every_node_inv Hne. constructor; [|done].
  split; [done|]. split; [|done]. intros Hnil. by destruct Hne.
Qed.

Lemma erase_ok t k :
  top_inv (top_ t) -> find t k <> end_ t ->
  exists top',
    erase (find t k) t = (Ok (), mk_trie top' (size_decr (size_ t))) /\
    top_inv top' /\
    (forall k', get top' k' = if decide (k' = k) then None else get (top_ t) k')
    /\ S (count_leaves top') = count_leaves (top_ t).
Proof.
  intros Hinv Hne.
  destruct (find_found t k Hinv Hne) as (i & p & m & Hw & Hd & Hl & -> & Hi & Hr).
  unfold erase. cbn [node_]. rewrite deref_path, Hd.
  destruct (children_ m) as [|x chm] eqn:Hchm; cbn [is_empty negb].
  - destruct (erase_climb_spec (top_ t) (reverse (i :: p)) [] m)
      as (j & parent & pm & cm & cp & -> & Hpm & Hcm & Hcp & Heq & Hstop);
      [lia| |by rewrite deref_path|done|].
    { intros Hnil%(f_equal length). rewrite length_reverse in Hnil. done. }
    assert (i :: p = reverse parent ++ j :: cp) as Hpath.
    { apply (inj reverse). rewrite reverse_app, reverse_involutive.
      rewrite (reverse_cons cp j), <-app_assoc. simpl. by rewrite Heq. }
    unfold deref in Hpm. unfold modify. set (pp := reverse parent) in *.
    eexists. split; [done|]. rewrite Hpath in Hw, Hd.
    destruct (walk_split _ _ _ _ Hw) as (k1 & k2 & pm' & -> & Hw1 & Hpm' & Hw2).
    rewrite Hpm in Hpm'. injection Hpm' as <-.
    destruct k2 as [|c kchain]; [done|]. simpl in Hw2.
    destruct (children_ pm !! find_by_key pm c) as [cm'|] eqn:Hcm'; [|done].
    destruct (walk cm' kchain) as [cp'|] eqn:Hwc; [|done]. simpl in Hw2.
    injection Hw2 as Hj ->. rewrite Hj, Hcm in Hcm'. injection Hcm' as <-.
    rewrite <-Hj in Hcm. pose proof (find_by_key_sym _ _ _ Hcm) as Hc.
    rewrite Hj in Hcm. subst c.
    rewrite descend_app, Hpm in Hd. simpl in Hd. rewrite Hcm in Hd.
    pose proof (top_inv_sorted_descend _ _ _ Hinv Hpm) as Hspm.
    split; [|split].
    + destruct pp as [|i' pp'] eqn:Hpp.
      * injection Hpm as <-. simpl in Hpath. injection Hpath as -> ->.
        by apply top_inv_remove_child.
      * simpl in Hpath. injection Hpath as <- ->.
        destruct (top_inv_descend _ _ _ _ Hinv Hpm) as [[-> _]|[_ Hrpm]]; [lia|].
        eapply top_inv_rewrite_at; [done..| |done].
        by apply real_remove_child.
    + apply (get_rewrite_at_update _ _ k1 pp pm (sym cm :: kchain) None);
        [done..|]. by eapply get_remove_child.
    + pose proof (count_leaves_rewrite_at (fun pn => remove_child pn j) _ _ _ Hpm)
        as Hc1.
      pose proof (count_leaves_remove_child pm j cm Hcm) as Hc2.
      pose proof (bare_chain_count cm cp m Hcp Hd Hl) as Hc3. cbv beta in Hc1. lia.
  - unfold modify. rewrite reverse_involutive. eexists. split; [done|].
    split; [|split].
    + eapply top_inv_rewrite_at; [done..| |done].
      apply real_set_is_leaf_false; [done|]. by rewrite Hchm.
    + intros k'.
      pose proof (get_rewrite_at_update (set_is_leaf false) _ k (i :: p) m []
                    None Hw Hd eq_refl) as Hg.
      rewrite app_nil_r in Hg. apply Hg. by intros [|c r].
    + pose proof (count_leaves_rewrite_at (set_is_leaf false) _ _ _ Hd) as Hc1.
      rewrite (count_leaves_unfold m), (count_leaves_unfold (set_is_leaf false m)) in Hc1.
      cbn [set_is_leaf is_leaf_ children_] in Hc1. rewrite Hl in Hc1. lia.
Qed.

(** ** [advance] and [value()] keep the tree well formed *)

Lemma real_set_is_leaf_true m :
  every_node real_node m -> every_node real_node (set_is_leaf true m).
Proof.
  intros [(Hs & Hl & Hr) Hch]%every_node_inv. constructor; [|done].
  by split_and!.
Qed.

Lemma real_set_value v m :
  every_node real_node m -> every_node real_node (set_value v m).
Proof.
  intros [(Hs & Hl & Hr) Hch]%every_node_inv. constructor; [|done].
  by split_and!.
Qed.

Lemma walk_children n c sub q :
  walk n (c :: sub) = Some q -> children_ n <> [].
Proof.
  simpl. destruct (children_ n !! find_by_key n c) eqn:Hc; [|done].
  intros _ Hnil. by rewrite Hnil in Hc.
Qed.

Lemma descend_rewrite_at_app f n p q m :
  descend n p = Some m ->
  descend (rewrite_at f n p) (p ++ q) = descend (f m) q.
Proof.
  intros Hm. by rewrite descend_app, (descend_rewrite_at f n p m Hm).
Qed.

Lemma count_leaves_set_is_leaf b m :
  (count_leaves (set_is_leaf b m) <= S (count_leaves m))%nat /\
  (is_leaf_ m = true -> b = false ->
   S (count_leaves (set_is_leaf b m)) = count_leaves m).
Proof.
  rewrite (count_leaves_unfold m), (count_leaves_unfold (set_is_leaf b m)).
  cbn [set_is_leaf is_leaf_ children_]. split.
  - destruct b, (is_leaf_ m); lia.
  - intros -> ->. lia.
Qed.

Lemma advance_inv t k sub_key r it' t' :
  top_inv (top_ t) -> find t k <> end_ t ->
  advance sub_key (find t k, t) = (r, (it', t')) ->
  top_inv (top_ t') /\
  (count_leaves (top_ t') <= count_leaves (top_ t))%nat /\
  size_ t' = size_ t.
Proof.
  intros Hinv Hne.
  destruct (find_found t k Hinv Hne) as (i & p & m & Hw & Hd & Hl & -> & Hi & Hr).
  unfold advance. destruct sub_key as [|c sub]; cbn [is_empty fst snd node_].
  { intros [= _ _ <-]. by split_and!. }
  rewrite deref_path, Hd, advance_loop_spec.
  destruct (walk m (c :: sub)) as [q|] eqn:Hq; [|intros [= _ _ <-]; by split_and!].
  intros [= _ _ <-]. cbn [top_ size_]. unfold modify.
  rewrite reverse_app, !reverse_involutive.
  pose proof (walk_children _ _ _ _ Hq) as Hchm.
  set (top1 := rewrite_at (set_is_leaf false) (top_ t) (i :: p)).
  assert (top_inv top1) as Hinv1.
  { eapply top_inv_rewrite_at; [done..| |done]. by apply real_set_is_leaf_false. }
  destruct (walk_descend _ _ _ Hq) as [m2 Hm2].
  assert (q <> []) as Hqne by (by apply walk_length in Hq; destruct q).
  assert (descend top1 (i :: (p ++ q)) = Some m2) as Hd2.
  { change (i :: p ++ q) with ((i :: p) ++ q). unfold top1.
    rewrite (descend_rewrite_at_app _ _ _ _ m Hd).
    destruct q as [|j q]; [done|]. exact Hm2. }
  destruct (top_inv_descend _ _ _ _ Hinv1 Hd2) as [[_ Hnil]|[Hi2 Hr2]].
  { by destruct p, q. }
  split; [|split; [|done]].
  - change ((i :: p) ++ q) with (i :: (p ++ q)).
    eapply top_inv_rewrite_at; [done..| |done]. by apply real_set_is_leaf_true.
  - pose proof (count_leaves_rewrite_at (set_is_leaf false) _ _ _ Hd) as Hc1.
    pose proof (count_leaves_rewrite_at (set_is_leaf true) _ _ _ Hd2) as Hc2.
    destruct (count_leaves_set_is_leaf false m) as [_ Hc3].
    specialize (Hc3 Hl eq_refl).
    destruct (count_leaves_set_is_leaf true m2) as [Hc4 _].
    fold top1 in Hc1. change ((i :: p) ++ q) with (i :: (p ++ q)). lia.
Qed.

Lemma value_assign_inv t k v r t' :
  top_inv (top_ t) -> find t k <> end_ t ->
  value_assign (find t k) v t = (r, t') ->
  top_inv (top_ t') /\ count_leaves (top_ t') = count_leaves (top_ t) /\
  size_ t' = size_ t.
Proof.
  intros Hinv Hne.
  destruct (find_found t k Hinv Hne) as (i & p & m & Hw & Hd & Hl & -> & Hi & Hr).
  unfold value_assign. cbn [node_]. rewrite deref_path, Hd.
  intros [= _ <-]. cbn [top_ size_]. unfold modify. rewrite reverse_involutive.
  split; [|split; [|done]].
  - eapply top_inv_rewrite_at; [done..| |done]. by apply real_set_value.
  - pose proof (count_leaves_rewrite_at (set_value v) _ _ _ Hd) as Hc1.
    rewrite (count_leaves_unfold m), (count_leaves_unfold (set_value v m)) in Hc1.
    cbn [set_value is_leaf_ children_] in Hc1. lia.
Qed.

(** ** Every reachable state satisfies the invariant *)

Lemma trie_new_inv : trie_inv trie_new.
Proof.
  split.
  - split; [done|]. split; [unfold sorted_children; simpl; repeat constructor|].
    exists [], end_prefix. by split_and!.
  - unfold count_entries, SIZE_MAX, size_t_modulus. simpl. lia.
Qed.

Lemma clear_inv t : trie_inv t -> trie_inv (clear t).
Proof.
  intros [(Hl & _) _]. split.
  - split; [done|]. split; [unfold sorted_children; simpl; repeat constructor|].
    exists [], end_prefix. by split_and!.
  - unfold count_entries, SIZE_MAX, size_t_modulus. cbn [clear top_ size_].
    rewrite count_leaves_unfold. simpl. destruct (is_leaf_ (top_ t)); [done|]. lia.
Qed.

Lemma size_incr_exact s : 0 <= s < SIZE_MAX -> size_incr s = s + 1.
Proof.
  unfold size_incr, SIZE_MAX, size_t_modulus. intros. apply Z.mod_small. lia.
Qed.

Lemma size_decr_exact s : 0 < s <= SIZE_MAX -> size_decr s = s - 1.
Proof.
  unfold size_decr, SIZE_MAX, size_t_modulus. intros. apply Z.mod_small. lia.
Qed.

Lemma count_entries_nonneg t : top_inv (top_ t) -> 0 <= count_entries t.
Proof.
  intros (_ & _ & real & e & Hch & _ & Hel & _). unfold count_entries.
  rewrite count_leaves_unfold, Hch, fmap_app, sum_list_with_app. simpl.
  rewrite (count_leaves_unfold e), Hel. unfold id. lia.
Qed.

Lemma stored_count_pos t k :
  top_inv (top_ t) -> find t k <> end_ t -> 0 < count_entries t.
Proof.
  intros Hinv Hne. destruct (erase_ok t k Hinv Hne) as (top' & _ & Hinv' & _ & Hc).
  pose proof (count_entries_nonneg (mk_trie top' 0) Hinv').
  unfold count_entries in *. simpl in *. lia.
Qed.

Lemma insert_inv t k v r t' :
  trie_inv t -> valid_key k -> size_ t < SIZE_MAX ->
  insert (k, v) t = (r, t') -> trie_inv t'.
Proof.
  intros [Hinv Hsz] Hv Hlt Hins.
  pose proof (count_entries_nonneg t Hinv) as Hnn.
  destruct k as [|c k]; [by injection Hins as _ <-|].
  destruct (get (top_ t) (c :: k)) as [v0|] eqn:Hg.
  - destruct (insert_shape t (c :: k) v) as (k1 & rest & p & m & Hk & Hw & Hd & Habs & Heq);
      [done|].
    assert (is_empty rest && is_leaf_ m = true) as Hdup.
    { rewrite Hk, get_walk, walk_app, Hw in Hg. simpl in Hg. rewrite Hd in Hg.
      simpl in Hg. destruct rest as [|c' rest].
      - simpl in Hg. rewrite app_nil_r, Hd in Hg. simpl in Hg.
        by destruct (is_leaf_ m).
      - simpl in Hg. by rewrite Habs in Hg. }
    rewrite Hdup in Heq. pose proof (eq_trans (eq_sym Hins) Heq) as Hx.
    by injection Hx as _ ->.
  - destruct (insert_ok t (c :: k) v) as (it & top' & Heq & Hinv' & _ & Hc); [done..|].
    pose proof (eq_trans (eq_sym Hins) Heq) as Hx.
    injection Hx as _ ->. split; [done|].
    unfold count_entries in *. cbn [top_ size_].
    rewrite size_incr_exact by lia. lia.
Qed.

Lemma erase_inv t k r t' :
  trie_inv t -> find t k <> end_ t ->
  erase (find t k) t = (r, t') -> trie_inv t'.
Proof.
  intros [Hinv Hsz] Hne Her.
  pose proof (stored_count_pos t k Hinv Hne) as Hpos.
  destruct (erase_ok t k Hinv Hne) as (top' & Heq & Hinv' & _ & Hc).
  rewrite Her in Heq. injection Heq as _ ->. split; [done|].
  unfold count_entries in *. cbn [top_ size_].
  rewrite size_decr_exact by lia. lia.
Qed.

Lemma reachable_inv t : reachable t -> trie_inv t.
Proof.
  induction 1 as [|t _ IH|t _ IH|t k v r t' _ IH Hv Hlt Hins
                  |t k r t' _ IH Hne Her|t k sub r it' t' _ IH Hne Hadv
                  |t k v r t' _ IH Hne Hva].
  - apply trie_new_inv.
  - unfold trie_copy. rewrite copy_node_id. by destruct t.
  - by apply clear_inv.
  - by eapply insert_inv.
  - by eapply erase_inv.
  - destruct IH as [Hinv Hsz].
    destruct (advance_inv _ _ _ _ _ _ Hinv Hne Hadv) as (Hinv' & Hc & Hs).
    split; [done|]. unfold count_entries in *. rewrite Hs. lia.
  - destruct IH as [Hinv Hsz].
    destruct (value_assign_inv _ _ _ _ _ Hinv Hne Hva) as (Hinv' & Hc & Hs).
    split; [done|]. unfold count_entries in *. rewrite Hs, Hc. lia.
Qed.

(** ** [follow] and the binary search agree on sorted children *)

Lemma child_with_symbol_spec n c :
  sorted_children n ->
  child_with_symbol n c
  = (fun m => (find_by_key n c, m)) <$> children_ n !! find_by_key n c.
Proof.
  intros Hs. unfold child_with_symbol.
  destruct (children_ n !! find_by_key n c) as [m|] eqn:Hm; simpl.
  - apply list_find_Some. split; [done|]. split; [by eapply find_by_key_sym|].
    intros j y Hy Hj Hsym. rewrite <-Hsym in Hj.
    rewrite (find_by_key_found n j y Hs Hy) in Hj. lia.
  - apply list_find_None, Forall_forall. intros y Hy Hsym.
    apply list_elem_of_lookup_1 in Hy as [j Hj]. rewrite <-Hsym in Hm.
    by rewrite (find_by_key_found n j y Hs Hj), Hj in Hm.
Qed.

Lemma follow_walk n k :
  every_node sorted_children n -> follow n k = walk n k.
Proof.
  revert n. induction k as [|c k IH]; intros n Hn; simpl; [done|].
  apply every_node_inv in Hn as [Hs Hch].
  rewrite child_with_symbol_spec by done.
  destruct (children_ n !! find_by_key n c) as [m|] eqn:Hm; simpl; [|done].
  rewrite IH; [done|]. rewrite Forall_forall in Hch. apply Hch.
  by eapply list_elem_of_lookup_2.
Qed.

Lemma top_inv_every_sorted top : top_inv top -> every_node sorted_children top.
Proof.
  intros (Hl & Hs & real & e & Hch & He & Hel & Hech & Hreal).
  constructor; [done|]. rewrite Hch. apply Forall_app. split.
  - eapply Forall_impl; [done|]. intros c Hc.
    eapply every_node_mono; [|done]. by intros m (? & _).
  - repeat constructor; [by apply sorted_children_nil|by rewrite Hech].
Qed.

(** ** Where [insert] leaves its iterator *)

Lemma walk_rewrite_at_prefix f n kp p m r :
  walk n kp = Some p -> descend n p = Some m -> sym (f m) = sym m ->
  walk (rewrite_at f n p) (kp ++ r) = (p ++.) <$> walk (f m) r.
Proof.
  intros Hw Hd Hf. revert n p Hw Hd. induction kp as [|c kp IH]; intros n p; simpl.
  - intros [= <-] [= <-]. simpl. by destruct (walk (f n) r).
  - destruct (children_ n !! find_by_key n c) as [ch|] eqn:Hch; [|done].
    destruct (walk ch kp) as [p'|] eqn:Hw; [|done]. intros [= <-]. simpl.
    rewrite Hch. intros Hd. simpl.
    assert (find_by_key (set_children (<[find_by_key n c:=rewrite_at f ch p']>
              (children_ n)) n) c = find_by_key n c) as ->.
    { apply find_by_key_syms. simpl. apply (syms_insert _ _ ch); [done|].
      apply rewrite_at_sym. intros m' Hm'. congruence. }
    rewrite list_lookup_insert_eq by (by eapply lookup_lt_Some).
    rewrite (IH ch p') by done. by destruct (walk (f m) r).
Qed.

Lemma insert_create_walk n node rest v :
  sorted_children n ->
  match rest with
  | [] => True
  | c :: _ => children_ n !! find_by_key n c = None
  end ->
  exists q, walk (insert_create n node rest v).1 rest = Some q /\
            (insert_create n node rest v).2 = reverse q ++ node.
Proof.
  revert n node. induction rest as [|c rest IH]; intros n node Hs Habs.
  - by exists [].
  - pose proof (sorted_insert_create n node c rest v Hs Habs) as Hs'.
    destruct (insert_create_cons n node c rest v)
      as (l1 & l2 & chain & final & Hic & Heq & Hch & _).
    rewrite Heq in Hs' |- *. cbn [fst snd] in Hs' |- *.
    pose proof (insert_create_sym (mk_node (c, T_init) false [])
                  (length l1 :: node) rest v) as Hsym. rewrite Hic in Hsym.
    change (sym chain = c) in Hsym.
    destruct (IH (mk_node (c, T_init) false []) (length l1 :: node))
      as (q & Hq & Hfin); [by apply sorted_children_nil|by destruct rest|].
    rewrite Hic in Hq, Hfin. cbn [fst snd] in Hq, Hfin.
    exists (length l1 :: q). cbn [walk].
    assert (children_ (set_children (l1 ++ chain :: l2) n) !! length l1
            = Some chain) as Hl by apply list_lookup_middle, eq_refl.
    rewrite <-Hsym, (find_by_key_found _ _ _ Hs' Hl), Hl, Hq. split; [done|].
    by rewrite Hfin, reverse_cons, <-app_assoc.
Qed.

Lemma find_not_stored t k :
  top_inv (top_ t) -> valid_key k -> find t k = end_ t -> get (top_ t) k = None.
Proof.
  intros Hinv Hv Hf. destruct (get (top_ t) k) as [v|] eqn:Hg; [|done].
  destruct (find_get_Some t k v Hinv Hg); [by apply valid_key_not_end|done].
Qed.

(** C1: for a reachable state, a non-empty key [k] of real symbols that is
    not stored, and any payload [v], [insert(k, v)] succeeds; afterwards
    [find(k)] is the iterator [insert] returned, its [value()] is [v], and
    [size()] is one more than before ([size_] not being at [SIZE_MAX]). *)
Theorem insert_then_find t k v :
  reachable t -> k <> [] -> valid_key k -> find t k = end_ t ->
  size t < SIZE_MAX ->
  exists it t',
    insert (k, v) t = (Ok it, t') /\
    find t' k = it /\ value t' it = Ok v /\ size t' = size t + 1.
Proof.
  intros [Hinv Hsz]%reachable_inv Hk Hv Hf Hlt.
  pose proof (find_not_stored t k Hinv Hv Hf) as Hg.
  pose proof (count_entries_nonneg t Hinv) as Hnn.
  destruct (insert_ok t k v Hinv Hv Hk Hg) as (it & top' & Hins & Hinv' & Hget & _).
  exists it, (mk_trie top' (size_incr (size_ t))). split; [done|].
  specialize (Hget k). rewrite decide_True in Hget by done.
  destruct (find_get_Some (mk_trie top' (size_incr (size_ t))) k v Hinv' Hget)
    as [Hne Hval]; [by apply valid_key_not_end|].
  assert (find (mk_trie top' (size_incr (size_ t))) k = it) as Hfind.
  { destruct (find_found (mk_trie top' (size_incr (size_ t))) k Hinv' Hne)
      as (i & p' & m' & Hw' & _ & _ & -> & _). cbn [top_] in Hw'.
    destruct (insert_shape t k v Hk)
      as (k1 & rest & p & m & -> & Hw & Hd & Habs & Heq).
    assert (is_empty rest && is_leaf_ m = false) as Hnd.
    { destruct rest as [|c rest]; [|done]. simpl.
      rewrite app_nil_r, get_walk, Hw in Hg. simpl in Hg. rewrite Hd in Hg.
      simpl in Hg. by destruct (is_leaf_ m). }
    rewrite Hnd in Heq. pose proof (eq_trans (eq_sym Hins) Heq) as Hx.
    injection Hx as -> ->.
    destruct (insert_create_walk m (reverse p) rest v) as (q & Hq & Hfin);
      [exact (top_inv_sorted_descend _ _ _ Hinv Hd)|done|].
    rewrite Hfin, <-reverse_app.
    rewrite (walk_rewrite_at_prefix _ _ k1 p m), Hq in Hw';
      [|done|done|apply insert_create_sym].
    by injection Hw' as <-. }
  rewrite Hfind in Hval. split; [done|]. split; [done|].
  unfold size. cbn [size_]. apply size_incr_exact. unfold size in Hlt. lia.
Qed.

(** C3: for a reachable state and a stored key [k], [erase(find(k))]
    succeeds; afterwards [find(k)] is [end()], [size()] is one less, and
    every other stored key is still found, with the payload it had. *)
Theorem erase_then_find t k :
  reachable t -> find t k <> end_ t ->
  exists t',
    erase (find t k) t = (Ok (), t') /\
    find t' k = end_ t' /\ size t' = size t - 1 /\
    forall k', k' <> k -> find t k' <> end_ t ->
      find t' k' <> end_ t' /\ value t' (find t' k') = value t (find t k').
Proof.
  intros [Hinv Hsz]%reachable_inv Hne.
  pose proof (stored_count_pos t k Hinv Hne) as Hpos.
  destruct (erase_ok t k Hinv Hne) as (top' & Her & Hinv' & Hget & _).
  exists (mk_trie top' (size_decr (size_ t))). split; [done|]. split; [|split].
  - apply find_get_None. cbn [top_]. rewrite Hget. by rewrite decide_True.
  - unfold size. cbn [size_]. apply size_decr_exact. lia.
  - intros k' Hk' Hne'. apply find_stored_iff in Hne' as [[v' Hv'] Hend]; [|done].
    destruct (find_get_Some t k' v' Hinv Hv' Hend) as [_ ->].
    apply find_get_Some; [done| |done]. cbn [top_]. rewrite Hget.
    by rewrite decide_False.
Qed.

(** C4: in a reachable state, [find(k)] is the iterator to the node reached
    by following the symbols of [k] from the root when that walk succeeds and
    ends at a node whose leaf flag is set, and [end()] otherwise: a symbol
    without a child, or a walk that ends at a node that is not a leaf. *)
Theorem find_follows_key t k :
  reachable t ->
  find t k =
  match follow (top_ t) k with
  | Some path =>
      match descend (top_ t) path with
      | Some n => if is_leaf_ n then mk_iter (reverse path) else end_ t
      | None => end_ t
      end
  | None => end_ t
  end.
Proof.
  intros [Hinv _]%reachable_inv.
  rewrite follow_walk by (by apply top_inv_every_sorted). rewrite find_spec.
  destruct k as [|c k]; [|done]. simpl. destruct Hinv as [-> _]. done.
Qed.

Lemma ends_at_leaf_stored t k :
  top_inv (top_ t) -> valid_key k ->
  ends_at_leaf t k <-> find t k <> end_ t.
Proof.
  intros Hinv Hv. rewrite find_stored_iff by done. unfold ends_at_leaf.
  rewrite follow_walk by (by apply top_inv_every_sorted). rewrite get_walk.
  split.
  - intros (path & n & -> & Hn & Hl). simpl. rewrite Hn. simpl. rewrite Hl.
    split; [by eexists|by apply valid_key_not_end].
  - intros [[v Hg] _]. destruct (walk (top_ t) k) as [path|]; [|done].
    simpl in Hg. destruct (descend (top_ t) path) as [n|] eqn:Hn; [|done].
    simpl in Hg. exists path, n. split_and!; [done..|].
    by destruct (is_leaf_ n).
Qed.

(** C5: in a reachable state [insert(k, v)] throws the empty-key error iff
    [k] is empty, throws the duplicate-key error iff [k] is non-empty and the
    walk along [k] ends at a node whose leaf flag is set, and returns an
    iterator in every other case.  For a key of real symbols the walk ends
    at a leaf exactly when [find(k)] is not [end()]. *)
Theorem insert_outcome t k v :
  reachable t ->
  ((insert (k, v) t).1 = Throw empty_key <-> k = []) /\
  ((insert (k, v) t).1 = Throw duplicate_key <-> k <> [] /\ ends_at_leaf t k) /\
  (k <> [] -> ~ ends_at_leaf t k -> exists it, (insert (k, v) t).1 = Ok it) /\
  (valid_key k -> ends_at_leaf t k <-> find t k <> end_ t).
Proof.
  intros [Hinv _]%reachable_inv.
  enough (((insert (k, v) t).1 = Throw empty_key <-> k = []) /\
          ((insert (k, v) t).1 = Throw duplicate_key
           <-> k <> [] /\ ends_at_leaf t k) /\
          (k <> [] -> ~ ends_at_leaf t k ->
           exists it, (insert (k, v) t).1 = Ok it)) as (H1 & H2 & H3)
    by (split_and!; [done..|intros; by apply ends_at_leaf_stored]).
  unfold ends_at_leaf.
  destruct k as [|c k].
  { split; [done|]. split; [|done]. split; [done|]. by intros [? _]. }
  destruct (insert_shape t (c :: k) v)
    as (k1 & rest & p & m & Hk & Hw & Hd & Habs & ->); [done|].
  assert (is_empty rest && is_leaf_ m = true <->
          exists path n, follow (top_ t) (c :: k) = Some path /\
                         descend (top_ t) path = Some n /\ is_leaf_ n = true)
    as Hiff.
  { rewrite follow_walk by (by apply top_inv_every_sorted).
    rewrite Hk, walk_app, Hw. simpl. rewrite Hd. simpl. split.
    - intros [Hr Hl]%andb_true_iff. destruct rest; [|done]. simpl.
      rewrite app_nil_r. by exists p, m.
    - intros (path & n & Hp & Hn & Hl). destruct rest as [|c' rest].
      + simpl in Hp. injection Hp as <-. rewrite app_nil_r, Hd in Hn.
        injection Hn as <-. by rewrite Hl.
      + simpl in Hp. by rewrite Habs in Hp. }
  destruct (is_empty rest && is_leaf_ m) eqn:Hcond; cbn [fst].
  - split; [split; [discriminate|done]|].
    split; [|intros _ Hno; by destruct Hno; apply Hiff].
    split; [intros _; split; [done|by apply Hiff]|done].
  - split; [split; [discriminate|done]|]. split; [|by eexists].
    split; [discriminate|]. intros [_ Hleaf]. by apply Hiff in Hleaf.
Qed.

(** C6: a call that throws leaves everything as it was.  Whenever [insert],
    [advance], [operator++] or [operator--] raises an exception, the node
    tree with its leaf flags and payloads, [size_], and the iterator the call
    was made on are those from before the call. *)
Theorem failing_call_is_atomic c st e st' :
  run c st = (Throw e, st') -> st' = st.
Proof.
  destruct st as [this t]. destruct c as [[k v]|sub_key| |]; cbn [run fst snd].
  - destruct k as [|c k]; [by intros [= _ <-]|].
    destruct (insert_shape t (c :: k) v)
      as (k1 & rest & p & m & _ & _ & _ & _ & ->); [done|].
    destruct (is_empty rest && is_leaf_ m); [by intros [= _ <-]|done].
  - unfold advance. cbn [fst snd]. destruct (is_empty sub_key); [by intros [= _ <-]|].
    destruct (deref (top_ t) (node_ this)); [|done].
    destruct (advance_loop _ _ _); [done|by intros [= _ <-]|done|done].
  - unfold operator_incr, iter_step. cbn [fst snd].
    destruct (incr_node _ _); [done|by intros [= _ <-]|done|done].
  - unfold operator_decr, iter_step. cbn [fst snd].
    destruct (decr_node _ _); [done|by intros [= _ <-]|done|done].
Qed.

(** C8: in every reachable state the children of every node are strictly
    ascending by symbol, so sorted and free of duplicates, and the last
    child of the root is the end node, which carries the maximum symbol. *)
Theorem reachable_sorted t :
  reachable t ->
  every_node sorted_children (top_ t) /\
  exists e, last (children_ (top_ t)) = Some e /\ sym e = KeyMax /\
            is_leaf_ e = true /\ children_ e = [].
Proof.
  intros [Hinv _]%reachable_inv. split.
  - by apply top_inv_every_sorted.
  - by apply top_inv_end.
Qed.

(** C10: in a reachable state, for an iterator at a childless leaf other
    than the end node, the root has two children or more, the climb of
    [erase] stops at a node with a parent, so the condition is never read
    with a null parent, [erase] returns, and the node it detaches is not the
    root. *)
Theorem erase_climb_stops_below_root t it n :
  reachable t ->
  deref (top_ t) (node_ it) = Some n -> is_leaf_ n = true ->
  children_ n = [] -> it <> end_ t ->
  (1 < length (children_ (top_ t)))%nat /\
  exists node parent pm t',
    erase_climb (top_ t) (node_ it) = Ok node /\
    parent_ node = Some parent /\ deref (top_ t) parent = Some pm /\
    erase it t = (Ok (), t').
Proof.
  intros [Hinv _]%reachable_inv Hn Hl Hch Hend. destruct it as [node0].
  cbn [node_] in *.
  assert (exists i p, reverse node0 = i :: p /\
                      (i < length (children_ (top_ t)) - 1)%nat)
    as (i & p & Hrev & Hi).
  { unfold deref in Hn. destruct (reverse node0) as [|i p] eqn:Hrev.
    - injection Hn as <-. destruct Hinv as [? _]. congruence.
    - exists i, p. split; [done|].
      destruct (top_inv_descend _ _ _ _ Hinv Hn) as [[-> ->]|[? _]]; [|done].
      destruct Hend. unfold end_. f_equal. apply (inj reverse). by rewrite Hrev. }
  split; [lia|].
  destruct (erase_climb_spec (top_ t) node0 [] n)
    as (j & parent & pm & cm & cp & Hclimb & Hpm & _); [lia| |done|done|].
  { intros ->. done. }
  exists (j :: parent), parent, pm. eexists. split_and!; try done.
  unfold erase. cbn [node_]. by rewrite Hn, Hch, Hclimb.
Qed.

(** ** Neighbours in a list *)

Lemma consecutive_app {A} (la lb : list A) p q :
  consecutive (la ++ lb) p q ->
  consecutive la p q \/ consecutive lb p q \/
  (last la = Some p /\ head lb = Some q).
Proof.
  intros (l1 & l2 & Heq).
  apply app_eq_inv in Heq as [(k & -> & Hk)|(k & -> & ->)].
  - destruct k as [|x [|y k]]; simpl in Hk.
    + right; left. exists [], l2. by rewrite <-Hk.
    + injection Hk as -> <-. right; right. by rewrite last_snoc.
    + injection Hk as -> -> ->. left. by exists l1, k.
  - right; left. exists k, l2. done.
Qed.

Lemma consecutive_fmap {A B} (f : A -> B) (l : list A) p q :
  consecutive (f <$> l) p q ->
  exists p' q', p = f p' /\ q = f q' /\ consecutive l p' q'.
Proof.
  intros (l1 & l2 & Heq).
  apply fmap_app_inv in Heq as (k1 & k2 & -> & Hk & ->).
  symmetry in Hk. apply fmap_cons_inv in Hk as (p' & k3 & -> & Hk & ->).
  symmetry in Hk. apply fmap_cons_inv in Hk as (q' & k4 & -> & -> & ->).
  exists p', q'. split_and!; [done..|]. by exists k1, k4.
Qed.

Lemma consecutive_flat_imap {A B} (f : nat -> A -> list B) i l p q :
  (forall j c, l !! j = Some c -> f (i + j)%nat c <> []) ->
  consecutive (flat_imap f i l) p q ->
  (exists j c, l !! j = Some c /\ consecutive (f (i + j)%nat c) p q) \/
  (exists j c c',
      l !! j = Some c /\ l !! S j = Some c' /\
      last (f (i + j)%nat c) = Some p /\ head (f (i + S j)%nat c') = Some q).
Proof.
  revert i. induction l as [|c l IH]; intros i Hne Hc; simpl in Hc.
  { destruct Hc as (l1 & l2 & Heq). by destruct l1. }
  apply consecutive_app in Hc as [Hc|[Hc|[Hl Hh]]].
  - left. exists 0%nat, c. by rewrite Nat.add_0_r.
  - assert (forall j c', l !! j = Some c' -> f (S i + j)%nat c' <> []) as Hne'.
    { intros j c' Hj. rewrite Nat.add_succ_comm. by apply (Hne (S j)). }
    destruct (IH (S i) Hne' Hc)
      as [(j & c' & Hj & Hc')|(j & c1 & c2 & Hj & Hj' & Hl & Hh)].
    + left. exists (S j), c'. by rewrite <-Nat.add_succ_comm.
    + right. exists (S j), c1, c2.
      replace (i + S j)%nat with (S i + j)%nat by lia.
      by replace (i + S (S j))%nat with (S i + S j)%nat by lia.
  - right. destruct l as [|c' l]; [done|]. simpl in Hh.
    exists 0%nat, c, c'. rewrite Nat.add_0_r. split_and!; try done.
    rewrite head_app in Hh. replace (i + 1)%nat with (S i) by lia.
    destruct (f (S i) c') eqn:Hf; [|done].
    by destruct (Hne 1%nat c' eq_refl); rewrite Nat.add_1_r.
Qed.

Lemma last_flat_imap {A B} (f : nat -> A -> list B) i l p :
  (forall j c, l !! j = Some c -> f (i + j)%nat c <> []) ->
  last (flat_imap f i l) = Some p ->
  exists c, last l = Some c /\ last (f (i + (length l - 1))%nat c) = Some p.
Proof.
  revert i. induction l as [|c l IH]; intros i Hne; [done|].
  destruct l as [|c' l].
  - cbn [flat_imap length]. rewrite app_nil_r.
    replace (i + (1 - 1))%nat with i by lia. by exists c.
  - intros Hl.
    change (flat_imap f i (c :: c' :: l))
      with (f i c ++ flat_imap f (S i) (c' :: l)) in Hl.
    rewrite last_app in Hl.
    destruct (last (flat_imap f (S i) (c' :: l))) as [p'|] eqn:Hl'.
    + injection Hl as ->.
      assert (forall j c'', (c' :: l) !! j = Some c'' -> f (S i + j)%nat c'' <> [])
        as Hne'.
      { intros j c'' Hj. rewrite Nat.add_succ_comm. by apply (Hne (S j)). }
      destruct (IH (S i) Hne' Hl') as (c'' & Hc'' & Hp).
      exists c''. split; [by rewrite last_cons_cons|].
      replace (i + (length (c :: c' :: l) - 1))%nat
        with (S i + (length (c' :: l) - 1))%nat by (cbn [length]; lia).
      done.
    + apply last_None in Hl'. cbn [flat_imap] in Hl'.
      apply app_eq_nil in Hl' as [Hl' _].
      destruct (Hne 1%nat c' eq_refl). by rewrite Nat.add_1_r.
Qed.

Lemma head_flat_imap {A B} (f : nat -> A -> list B) i c l :
  f i c <> [] -> head (flat_imap f i (c :: l)) = head (f i c).
Proof. simpl. intros Hne. rewrite head_app. by destruct (f i c). Qed.

(** ** The list of leaves *)

Lemma leaves_nonempty n : tree_ok n -> leaves n <> [].
Proof.
  induction n as [d l ch IH] using trie_node_ind.
  intros [[_ Hl] Hch]%every_node_inv. unfold leaf_if_childless in Hl.
  simpl in *. destruct ch as [|c ch].
  - by rewrite Hl.
  - apply Forall_cons in IH as [IHc _]. apply Forall_cons in Hch as [Hc _].
    specialize (IHc Hc). simpl. by destruct (leaves c).
Qed.

Lemma leaves_unfold n :
  leaves n =
  flat_imap (fun i c => (i ::.) <$> leaves c) 0 (children_ n)
  ++ (if is_leaf_ n then [[]] else []).
Proof. by destruct n. Qed.

Lemma tree_ok_child n j c :
  tree_ok n -> children_ n !! j = Some c -> tree_ok c.
Proof.
  intros [_ Hch]%every_node_inv Hc. rewrite Forall_forall in Hch.
  apply Hch. by eapply list_elem_of_lookup_2.
Qed.

Lemma tree_ok_sorted n : tree_ok n -> sorted_children n.
Proof. by intros [[? _] _]%every_node_inv. Qed.

Lemma tree_ok_blocks n :
  tree_ok n ->
  forall j c, children_ n !! j = Some c ->
              (fun i c => (i ::.) <$> leaves c) (0 + j)%nat c <> [].
Proof.
  intros Hn j c Hc Hnil. apply fmap_nil_inv in Hnil.
  by apply (leaves_nonempty c); [eapply tree_ok_child|].
Qed.

Lemma last_leaves n p :
  tree_ok n -> last (leaves n) = Some p ->
  (is_leaf_ n = true /\ p = []) \/
  (is_leaf_ n = false /\
   exists c p', children_ n !! (length (children_ n) - 1)%nat = Some c /\
                p = (length (children_ n) - 1)%nat :: p' /\
                last (leaves c) = Some p').
Proof.
  intros Hn. rewrite leaves_unfold. destruct (is_leaf_ n) eqn:Hl.
  - rewrite last_snoc. intros [= <-]. by left.
  - rewrite app_nil_r. intros Hlast. right. split; [done|].
    apply last_flat_imap in Hlast as (c & Hc & Hp); [|by apply tree_ok_blocks].
    rewrite fmap_last in Hp. destruct (last (leaves c)) as [p'|] eqn:Hp'; [|done].
    injection Hp as <-. exists c, p'. split_and!; [|done..].
    rewrite last_lookup in Hc. by replace (length (children_ n) - 1)%nat
      with (pred (length (children_ n))) by lia.
Qed.

Lemma head_leaves n q :
  tree_ok n -> head (leaves n) = Some q ->
  (children_ n = [] /\ q = []) \/
  (exists c q', children_ n !! 0%nat = Some c /\ q = 0%nat :: q' /\
                head (leaves c) = Some q').
Proof.
  intros Hn. rewrite leaves_unfold.
  destruct (children_ n) as [|c ch] eqn:Hch.
  - pose proof Hn as [[_ Hl] _]%every_node_inv. rewrite (Hl Hch). simpl.
    intros [= <-]. by left.
  - assert (tree_ok c) as Hc by (eapply (tree_ok_child n 0); by rewrite ?Hch).
    pose proof (leaves_nonempty c Hc). simpl. rewrite <-app_assoc, head_app.
    destruct (leaves c) as [|q' lc] eqn:Hlc; [done|]. simpl.
    intros [= <-]. right. exists c, q'. by rewrite Hlc.
Qed.

Lemma next_in_complete n p q :
  tree_ok n -> consecutive (leaves n) p q -> next_in n p q.
Proof.
  revert p q. induction n as [d l ch IH] using trie_node_ind.
  intros p q Hn Hc. rewrite leaves_unfold in Hc.
  apply consecutive_app in Hc as [Hc|[Hc|[Hl Hh]]].
  - apply consecutive_flat_imap in Hc
      as [(j & c & Hj & Hc)|(j & c & c' & Hj & Hj' & Hl & Hh)];
      [| |by apply tree_ok_blocks].
    + apply consecutive_fmap in Hc as (p' & q' & -> & -> & Hc).
      apply (next_inside _ j c); [done|].
      rewrite Forall_forall in IH. apply IH; [by eapply list_elem_of_lookup_2| |done].
      by eapply tree_ok_child.
    + rewrite fmap_last in Hl. destruct (last (leaves c)) as [p'|] eqn:Hp'; [|done].
      injection Hl as <-.
      destruct (leaves c') as [|q' lc'] eqn:Hq'; [done|]. injection Hh as <-.
      apply (next_sibling _ j c c'); [done..|by rewrite Hq'].
  - destruct Hc as (l1 & l2 & Heq). simpl in Heq.
    destruct l; [by destruct l1 as [|? [|??]]|by destruct l1].
  - simpl in Hh. destruct l; [|done]. injection Hh as <-. simpl in Hl.
    apply last_flat_imap in Hl as (c & Hc & Hp); [|by apply (tree_ok_blocks _ Hn)].
    rewrite fmap_last in Hp. destruct (last (leaves c)) as [p'|] eqn:Hp'; [|done].
    injection Hp as <-. simpl. rewrite last_lookup in Hc.
    assert (ch <> []) as Hne by (by intros ->).
    apply (next_parent _ _ c); simpl; [|destruct ch; simpl in *; [done|lia]|done..].
    by replace (length ch - 1)%nat with (pred (length ch)) by lia.
Qed.

(** ** [operator++] steps to the next leaf *)

Lemma ptr_eqb_eq p q : ptr_eqb p q = true <-> p = q.
Proof. unfold ptr_eqb. apply bool_decide_eq_true. Qed.

Lemma ptr_eqb_neq p q : ptr_eqb p q = false <-> p <> q.
Proof. unfold ptr_eqb. apply bool_decide_eq_false. Qed.

Lemma reverse_snoc_ptr (pre : list nat) j : reverse (pre ++ [j]) = j :: reverse pre.
Proof. by rewrite reverse_app. Qed.

Lemma deref_child top pre pn j :
  descend top pre = Some pn ->
  deref top (j :: reverse pre) = children_ pn !! j.
Proof. intros Hpn. by rewrite deref_cons, deref_path, Hpn. Qed.

Lemma incr_up_unfold top this node :
  incr_up top this node =
  match deref top node with
  | None => Undefined
  | Some n =>
      if is_leaf_ n && negb (ptr_eqb node this) then Ok (Return node)
      else
        match node with
        | [] => Undefined
        | _ :: parent =>
            match deref top parent with
            | None => Undefined
            | Some pn =>
                if (1 <? length (children_ pn))%nat then
                  let found := find_by_key pn (data_ n).1 in
                  if (found =? length (children_ pn))%nat then Undefined
                  else
                    let next_child := S found in
                    if (next_child =? length (children_ pn))%nat
                    then incr_up top this parent
                    else Ok (Break (next_child :: parent))
                else incr_up top this parent
            end
        end
  end.
Proof. by destruct node. Qed.

(** One round of the first loop at a child [m] of [pn] that is not
    returned: on to the next sibling if there is one, up otherwise. *)
Lemma incr_search_step top this pre j pn m :
  descend top pre = Some pn -> children_ pn !! j = Some m ->
  sorted_children pn ->
  is_leaf_ m && negb (ptr_eqb (j :: reverse pre) this) = false ->
  incr_search top this (j :: reverse pre) =
  match children_ pn !! S j with
  | Some c' => incr_down c' (S j :: reverse pre)
  | None => incr_search top this (reverse pre)
  end.
Proof.
  intros Hpn Hm Hs Hcond. unfold incr_search. rewrite incr_up_unfold.
  rewrite (deref_child top pre pn j Hpn), Hm, Hcond, deref_path, Hpn.
  change (data_ m).1 with (sym m). rewrite (find_by_key_found pn j m Hs Hm).
  pose proof (lookup_lt_Some _ _ _ Hm) as Hj.
  destruct (Nat.ltb_spec 1 (length (children_ pn))) as [Hlen|Hlen].
  - cbv zeta. destruct (Nat.eqb_spec j (length (children_ pn))) as [?|_]; [lia|].
    destruct (Nat.eqb_spec (S j) (length (children_ pn))) as [Heq|Hne].
    + rewrite lookup_ge_None_2 by lia. done.
    + destruct (lookup_lt_is_Some_2 (children_ pn) (S j)) as [c' Hc']; [lia|].
      rewrite Hc'. simpl. by rewrite (deref_child top pre pn (S j) Hpn), Hc'.
  - rewrite lookup_ge_None_2 by lia. done.
Qed.

Lemma incr_down_first c node :
  tree_ok c ->
  exists q, head (leaves c) = Some q /\ incr_down c node = Ok (reverse q ++ node).
Proof.
  revert node. induction c as [d l ch IH] using trie_node_ind. intros node Hc.
  pose proof Hc as [[_ Hl] Hch]%every_node_inv. unfold leaf_if_childless in Hl.
  simpl in Hl, Hch. rewrite leaves_unfold. cbn [incr_down is_leaf_ children_].
  destruct ch as [|c ch].
  - rewrite (Hl eq_refl). by exists [].
  - rewrite andb_false_r. apply Forall_cons in IH as [IHc _].
    apply Forall_cons in Hch as [Hc' _].
    destruct (IHc (0%nat :: node) Hc') as (q & Hq & ->).
    exists (0%nat :: q). split.
    + simpl. rewrite <-app_assoc, head_app.
      destruct (leaves c) as [|q0 lc]; [done|]. simpl in *. congruence.
    + by rewrite reverse_cons, <-app_assoc.
Qed.

Lemma begin_loop_first c node :
  tree_ok c ->
  exists q, head (leaves c) = Some q /\ begin_loop c node = reverse q ++ node.
Proof.
  revert node. induction c as [d l ch IH] using trie_node_ind. intros node Hc.
  pose proof Hc as [[_ Hl] Hch]%every_node_inv. unfold leaf_if_childless in Hl.
  simpl in Hl, Hch. rewrite leaves_unfold. cbn [begin_loop is_leaf_ children_].
  destruct ch as [|c ch].
  - rewrite (Hl eq_refl). by exists [].
  - apply Forall_cons in IH as [IHc _]. apply Forall_cons in Hch as [Hc' _].
    destruct (IHc (0%nat :: node) Hc') as (q & Hq & ->).
    exists (0%nat :: q). split.
    + simpl. rewrite <-app_assoc, head_app.
      destruct (leaves c) as [|q0 lc]; [done|]. simpl in *. congruence.
    + by rewrite reverse_cons, <-app_assoc.
Qed.

(** From the last leaf of a subtree the first loop climbs to its root. *)
Lemma incr_climb_last top c pre p :
  tree_ok c -> descend top pre = Some c -> last (leaves c) = Some p ->
  incr_search top (reverse (pre ++ p)) (reverse (pre ++ p))
  = incr_search top (reverse (pre ++ p)) (reverse pre)
  /\ (is_leaf_ c = true -> p = []).
Proof.
  revert pre p. induction c as [d l ch IH] using trie_node_ind.
  intros pre p Hc Hpre Hlast.
  destruct (last_leaves _ _ Hc Hlast) as [[Hl ->]|(Hl & c' & p' & Hc' & -> & Hp')].
  { by rewrite app_nil_r. }
  split; [|intros ?; congruence]. cbn [children_ is_leaf_] in Hc', Hl |- *.
  remember (length ch - 1)%nat as j eqn:Hj.
  assert (tree_ok c') as Hok' by (by eapply (tree_ok_child _ j c' Hc)).
  rewrite Forall_forall in IH.
  destruct (IH c' (list_elem_of_lookup_2 _ _ _ Hc') (pre ++ [j]) p' Hok')
    as [Heq Hleaf]; [by rewrite descend_app, Hpre; simpl; rewrite Hc'|done|].
  rewrite <-app_assoc in Heq. simpl in Heq. rewrite Heq, reverse_snoc_ptr.
  rewrite (incr_search_step top _ pre j _ c' Hpre Hc' (tree_ok_sorted _ Hc)).
  - cbn [children_]. rewrite lookup_ge_None_2; [done|].
    apply lookup_lt_Some in Hc'. lia.
  - destruct (is_leaf_ c') eqn:Hl'; [|done]. rewrite (Hleaf eq_refl). simpl.
    apply negb_false_iff, ptr_eqb_eq. by rewrite reverse_snoc_ptr.
Qed.

Lemma incr_next top n pre p q :
  next_in n p q -> tree_ok n -> descend top pre = Some n ->
  incr_search top (reverse (pre ++ p)) (reverse (pre ++ p))
  = Ok (reverse (pre ++ q)).
Proof.
  intros Hnext. revert pre.
  induction Hnext as [n j c p q Hc Hnext IH|n j c c' p q Hc Hc' Hp Hq
                      |n j c p Hc Hj Hp Hl]; intros pre Hn Hpre.
  - specialize (IH (pre ++ [j])). rewrite <-!app_assoc in IH. apply IH.
    + by eapply tree_ok_child.
    + rewrite descend_app, Hpre. simpl. by rewrite Hc.
  - destruct (incr_climb_last top c (pre ++ [j]) p) as [Heq Hleaf];
      [by eapply tree_ok_child|by rewrite descend_app, Hpre; simpl; rewrite Hc|done|].
    rewrite <-app_assoc in Heq. simpl in Heq. rewrite Heq, reverse_snoc_ptr.
    rewrite (incr_search_step top _ pre j _ c Hpre Hc (tree_ok_sorted _ Hn)).
    + rewrite Hc'.
      destruct (incr_down_first c' (S j :: reverse pre)) as (q' & Hq' & ->);
        [by eapply tree_ok_child|].
      rewrite Hq in Hq'. injection Hq' as <-.
      by rewrite reverse_app, reverse_cons, <-app_assoc.
    + destruct (is_leaf_ c) eqn:Hlc; [|done]. rewrite (Hleaf eq_refl). simpl.
      apply negb_false_iff, ptr_eqb_eq. by rewrite reverse_snoc_ptr.
  - destruct (incr_climb_last top c (pre ++ [j]) p) as [Heq Hleaf];
      [by eapply tree_ok_child|by rewrite descend_app, Hpre; simpl; rewrite Hc|done|].
    rewrite <-app_assoc in Heq. simpl in Heq. rewrite Heq, reverse_snoc_ptr.
    rewrite (incr_search_step top _ pre j _ c Hpre Hc (tree_ok_sorted _ Hn)).
    + rewrite lookup_ge_None_2 by lia. unfold incr_search.
      rewrite incr_up_unfold, deref_path, Hpre, Hl. simpl.
      assert (ptr_eqb (reverse pre) (reverse (pre ++ j :: p)) = false) as ->.
      { apply ptr_eqb_neq. intros Heq'%(inj reverse)%(f_equal length).
        rewrite length_app in Heq'. simpl in Heq'. lia. }
      simpl. by rewrite app_nil_r.
    + destruct (is_leaf_ c) eqn:Hlc; [|done]. rewrite (Hleaf eq_refl). simpl.
      apply negb_false_iff, ptr_eqb_eq. by rewrite reverse_snoc_ptr.
Qed.

(** ** [operator--] steps to the previous leaf *)

Lemma decr_down_unfold this n node :
  decr_down this n node =
  if is_leaf_ n && negb (ptr_eqb node this) then Ok node
  else
    match last (children_ n) with
    | Some c => decr_down this c ((length (children_ n) - 1)%nat :: node)
    | None => Undefined
    end.
Proof.
  destruct n as [d l ch]. cbn [decr_down is_leaf_ children_].
  destruct (l && negb (ptr_eqb node this)); [done|].
  assert (forall i,
    (fix back (l0 : list trie_node) (i : nat) {struct l0} : result ptr :=
       match l0 with
       | [] => Undefined
       | c :: l' =>
           match l' with
           | [] => decr_down this c (i :: node)
           | _ :: _ => back l' (S i)
           end
       end) ch i
    = match last ch with
      | Some c => decr_down this c ((i + (length ch - 1))%nat :: node)
      | None => Undefined
      end) as Hback.
  { induction ch as [|c ch IHch]; intros i; [done|].
    destruct ch as [|c' ch].
    - simpl. by rewrite Nat.add_0_r.
    - rewrite IHch, last_cons_cons. destruct (last (c' :: ch)); [|done].
      by replace (S i + (length (c' :: ch) - 1))%nat
        with (i + (length (c :: c' :: ch) - 1))%nat by (simpl; lia). }
  by rewrite Hback.
Qed.

Lemma decr_down_last this c node p :
  tree_ok c -> (forall x, x ++ node <> this) -> last (leaves c) = Some p ->
  decr_down this c node = Ok (reverse p ++ node).
Proof.
  revert node p. induction c as [d l ch IH] using trie_node_ind.
  intros node p Hc Hthis Hlast. rewrite decr_down_unfold.
  assert (ptr_eqb node this = false) as ->
    by (apply ptr_eqb_neq; exact (Hthis [])).
  destruct (last_leaves _ _ Hc Hlast) as [[Hl ->]|(Hl & c' & p' & Hc' & -> & Hp')].
  { by rewrite Hl. }
  rewrite Hl. cbn [andb children_] in Hc' |- *.
  assert (last ch = Some c') as ->.
  { rewrite last_lookup. by replace (pred (length ch)) with (length ch - 1)%nat by lia. }
  rewrite Forall_forall in IH.
  rewrite (IH c' (list_elem_of_lookup_2 _ _ _ Hc') _ p').
  - by rewrite reverse_cons, <-app_assoc.
  - by eapply (tree_ok_child _ _ c' Hc).
  - intros x. specialize (Hthis (x ++ [(length ch - 1)%nat])).
    by rewrite <-app_assoc in Hthis.
  - done.
Qed.

Lemma decr_left_step top pre j pn m :
  descend top pre = Some pn -> children_ pn !! j = Some m ->
  sorted_children pn ->
  decr_left top (j :: reverse pre) =
  match j with
  | O => decr_left top (reverse pre)
  | S j' => Ok (j' :: reverse pre)
  end.
Proof.
  intros Hpn Hm Hs. cbn [decr_left].
  rewrite (deref_child top pre pn j Hpn), Hm, deref_path, Hpn.
  change (data_ m).1 with (sym m). rewrite (find_by_key_found pn j m Hs Hm).
  pose proof (lookup_lt_Some _ _ _ Hm) as Hj.
  destruct (Nat.ltb_spec 1 (length (children_ pn))) as [Hlen|Hlen].
  - destruct j as [|j']; [done|]. simpl. by rewrite Nat.sub_0_r.
  - destruct j as [|j']; [done|lia].
Qed.

(** From the first leaf of a subtree "shift left" climbs to its root; that
    leaf has no children. *)
Lemma decr_left_first top c pre q :
  tree_ok c -> descend top pre = Some c -> head (leaves c) = Some q ->
  decr_left top (reverse (pre ++ q)) = decr_left top (reverse pre) /\
  exists m, descend c q = Some m /\ children_ m = [].
Proof.
  revert pre q. induction c as [d l ch IH] using trie_node_ind.
  intros pre q Hc Hpre Hhead.
  destruct (head_leaves _ _ Hc Hhead) as [[Hch ->]|(c' & q' & Hc' & -> & Hq')].
  { rewrite app_nil_r. split; [done|]. by eexists. }
  cbn [children_] in Hc'. rewrite Forall_forall in IH.
  destruct (IH c' (list_elem_of_lookup_2 _ _ _ Hc') (pre ++ [0%nat]) q')
    as [Heq (m & Hm & Hchm)];
    [by eapply (tree_ok_child _ _ c' Hc)
    |by rewrite descend_app, Hpre; simpl; rewrite Hc'|done|].
  rewrite <-app_assoc in Heq. simpl in Heq. split.
  - rewrite Heq, reverse_snoc_ptr.
    by rewrite (decr_left_step top pre 0 _ c' Hpre Hc' (tree_ok_sorted _ Hc)).
  - exists m. simpl. by rewrite Hc'.
Qed.

Lemma decr_prev top n pre p q :
  next_in n p q -> tree_ok n -> descend top pre = Some n ->
  decr_node top (reverse (pre ++ q)) = Ok (reverse (pre ++ p)).
Proof.
  intros Hnext. revert pre.
  induction Hnext as [n j c p q Hc Hnext IH|n j c c' p q Hc Hc' Hp Hq
                      |n j c p Hc Hj Hp Hl]; intros pre Hn Hpre.
  - specialize (IH (pre ++ [j])). rewrite <-!app_assoc in IH. apply IH.
    + by eapply tree_ok_child.
    + rewrite descend_app, Hpre. simpl. by rewrite Hc.
  - destruct (decr_left_first top c' (pre ++ [S j]) q) as [Heq (m & Hm & Hchm)];
      [by eapply tree_ok_child
      |by rewrite descend_app, Hpre; simpl; rewrite Hc'|done|].
    rewrite <-app_assoc in Heq. simpl in Heq. unfold decr_node.
    rewrite deref_path, descend_app, Hpre. simpl. rewrite Hc', Hm, Hchm. simpl.
    rewrite Heq, reverse_snoc_ptr.
    rewrite (decr_left_step top pre (S j) _ c' Hpre Hc' (tree_ok_sorted _ Hn)).
    simpl. rewrite (deref_child top pre _ j Hpre), Hc.
    rewrite (decr_down_last _ c _ p); [|by eapply tree_ok_child| |done].
    + by rewrite reverse_app, reverse_cons, <-app_assoc.
    + intros x Heq'. rewrite reverse_app, reverse_cons, <-app_assoc in Heq'.
      simpl in Heq'.
      assert (x ++ [j] = reverse q ++ [S j]) as Heq''.
      { apply (app_inv_tail (reverse pre)). by rewrite <-!app_assoc. }
      apply app_inj_tail in Heq'' as [_ ?]. lia.
  - rewrite app_nil_r. unfold decr_node. rewrite deref_path, Hpre.
    assert (children_ n <> []) as Hne by (intros Hnil; by rewrite Hnil in Hc).
    destruct (children_ n) as [|x chn] eqn:Hchn; [done|]. cbn [is_empty negb].
    rewrite decr_down_unfold, Hl, Hchn.
    assert (ptr_eqb (reverse pre) (reverse pre) = true) as ->
      by (by apply ptr_eqb_eq).
    cbn [negb andb].
    assert (last (x :: chn) = Some c) as ->.
    { rewrite last_lookup, <-Hj. done. }
    replace (length (x :: chn) - 1)%nat with j by lia.
    rewrite <-Hchn in Hc.
    rewrite (decr_down_last _ c _ p); [|by eapply (tree_ok_child n)| |done].
    + by rewrite reverse_app, reverse_cons, <-app_assoc.
    + intros y Heq'%(f_equal length). rewrite length_app in Heq'.
      simpl in Heq'. lia.
Qed.

(** ** Keys along paths *)

Lemma key_of_app n p q pn :
  descend n p = Some pn -> key_of n (p ++ q) = key_of n p ++ key_of pn q.
Proof.
  revert n. induction p as [|i p IH]; intros n; simpl; [by intros [= ->]|].
  destruct (children_ n !! i) as [c|]; [|done]. intros Hpn. simpl.
  by rewrite (IH c).
Qed.

Lemma key_loop_spec top node acc :
  is_Some (deref top node) ->
  key_loop top node acc = Ok (key_of top (reverse node) ++ acc).
Proof.
  revert acc. induction node as [|j parent IH]; intros acc [m Hm]; [done|].
  cbn [key_loop]. rewrite Hm. rewrite deref_cons in Hm.
  destruct (deref top parent) as [pn|] eqn:Hpn; [|done]. simpl in Hm.
  rewrite IH by (by eexists). rewrite reverse_cons.
  unfold deref in Hpn. rewrite (key_of_app _ _ _ pn Hpn). simpl. rewrite Hm.
  by rewrite <-app_assoc.
Qed.

Lemma key_spec t path :
  is_Some (descend (top_ t) path) ->
  key t (mk_iter (reverse path)) = Ok (key_of (top_ t) path).
Proof.
  intros Hd. unfold key. cbn [node_]. rewrite key_loop_spec.
  - by rewrite reverse_involutive, app_nil_r.
  - by rewrite deref_path.
Qed.

Lemma key_of_walk n k p : walk n k = Some p -> key_of n p = k.
Proof.
  revert n p. induction k as [|c k IH]; intros n p; simpl; [by intros [= <-]|].
  destruct (children_ n !! find_by_key n c) as [ch|] eqn:Hch; [|done].
  destruct (walk ch k) as [p'|] eqn:Hw; [|done]. intros [= <-]. simpl.
  rewrite Hch. f_equal; [by eapply find_by_key_sym|by apply IH].
Qed.

Lemma walk_key_of n p m :
  tree_ok n -> descend n p = Some m -> walk n (key_of n p) = Some p.
Proof.
  revert n. induction p as [|i p IH]; intros n Hn; simpl; [done|].
  destruct (children_ n !! i) as [c|] eqn:Hc; [|done]. intros Hm. simpl.
  rewrite (find_by_key_found n i c (tree_ok_sorted _ Hn) Hc), Hc.
  rewrite (IH c); [done| |done]. by eapply tree_ok_child.
Qed.

(** ** Membership in [flat_imap], [leaves] and [entries] *)

Lemma elem_of_flat_imap {A B} (f : nat -> A -> list B) i l x :
  x ∈ flat_imap f i l <-> exists j c, l !! j = Some c /\ x ∈ f (i + j)%nat c.
Proof.
  revert i. induction l as [|c l IH]; intros i; cbn [flat_imap].
  - split; [by intros ?%elem_of_nil|by intros (?&?&?&?)].
  - rewrite elem_of_app, IH. split.
    + intros [Hx|(j & c' & Hj & Hx)].
      * exists 0%nat, c. by rewrite Nat.add_0_r.
      * exists (S j), c'. by replace (i + S j)%nat with (S i + j)%nat by lia.
    + intros ([|j] & c' & Hj & Hx).
      * left. injection Hj as <-. by rewrite Nat.add_0_r in Hx.
      * right. exists j, c'. by replace (S i + j)%nat with (i + S j)%nat by lia.
Qed.

Lemma fmap_flat_imap {A B C} (g : B -> C) (f : nat -> A -> list B) i l :
  g <$> flat_imap f i l = flat_imap (fun i c => g <$> f i c) i l.
Proof.
  revert i. induction l as [|c l IH]; intros i; simpl; [done|].
  by rewrite fmap_app, IH.
Qed.

Lemma flat_imap_ext {A B} (f g : nat -> A -> list B) i l :
  (forall j c, l !! j = Some c -> f (i + j)%nat c = g (i + j)%nat c) ->
  flat_imap f i l = flat_imap g i l.
Proof.
  revert i. induction l as [|c l IH]; intros i Hfg; cbn [flat_imap]; [done|].
  rewrite (IH (S i)).
  - specialize (Hfg 0%nat c eq_refl). rewrite Nat.add_0_r in Hfg. by rewrite Hfg.
  - intros j c' Hj. replace (S i + j)%nat with (i + S j)%nat by lia.
    by apply (Hfg (S j)).
Qed.

Lemma StronglySorted_flat_imap {A B} (R : relation B) (f : nat -> A -> list B)
    i l :
  (forall j c, l !! j = Some c -> StronglySorted R (f (i + j)%nat c)) ->
  (forall j1 j2 c1 c2 x y,
      (j1 < j2)%nat -> l !! j1 = Some c1 -> l !! j2 = Some c2 ->
      x ∈ f (i + j1)%nat c1 -> y ∈ f (i + j2)%nat c2 -> R x y) ->
  StronglySorted R (flat_imap f i l).
Proof.
  revert i. induction l as [|c l IH]; intros i Hin Hout; cbn [flat_imap];
    [constructor|].
  apply StronglySorted_app. split_and!.
  - intros x y Hx [j [c' [Hj Hy]]]%elem_of_flat_imap.
    apply (Hout 0%nat (S j) c c' x y); [lia|done|done| |].
    + by rewrite Nat.add_0_r.
    + by replace (i + S j)%nat with (S i + j)%nat by lia.
  - specialize (Hin 0%nat c eq_refl). by rewrite Nat.add_0_r in Hin.
  - apply IH.
    + intros j c' Hj. replace (S i + j)%nat with (i + S j)%nat by lia.
      by apply (Hin (S j)).
    + intros j1 j2 c1 c2 x y Hlt H1 H2 Hx Hy.
      replace (S i + j1)%nat with (i + S j1)%nat in Hx by lia.
      replace (S i + j2)%nat with (i + S j2)%nat in Hy by lia.
      apply (Hout (S j1) (S j2) c1 c2 x y); [lia|done..].
Qed.

Lemma leaves_descend n p :
  p ∈ leaves n -> exists m, descend n p = Some m /\ is_leaf_ m = true.
Proof.
  revert p. induction n as [d l ch IH] using trie_node_ind. intros p.
  rewrite leaves_unfold, elem_of_app. cbn [children_ is_leaf_].
  intros [(j & c & Hj & Hp)%elem_of_flat_imap|Hp].
  - apply list_elem_of_fmap in Hp as (p' & -> & Hp').
    rewrite Forall_forall in IH.
    destruct (IH c (list_elem_of_lookup_2 _ _ _ Hj) p' Hp') as (m & Hm & Hl).
    exists m. simpl. by rewrite Hj.
  - destruct l; [|by apply elem_of_nil in Hp].
    apply list_elem_of_singleton in Hp as ->. by eexists.
Qed.

Lemma descend_leaves n p m :
  descend n p = Some m -> is_leaf_ m = true -> p ∈ leaves n.
Proof.
  revert n. induction p as [|i p IH]; intros n; rewrite leaves_unfold, elem_of_app.
  - intros [= ->] ->. right. by left.
  - simpl. destruct (children_ n !! i) as [c|] eqn:Hc; [|done]. intros Hm Hl.
    left. apply elem_of_flat_imap. exists i, c. split; [done|].
    apply list_elem_of_fmap_2. by apply IH.
Qed.

Lemma entries_leaves n : key_of n <$> leaves n = entries n.
Proof.
  induction n as [d l ch IH] using trie_node_ind.
  rewrite leaves_unfold. cbn [entries children_ is_leaf_].
  rewrite fmap_app, fmap_flat_imap. f_equal; [|by destruct l].
  apply flat_imap_ext. intros j c Hj. simpl.
  rewrite Forall_forall in IH.
  rewrite <-(IH c (list_elem_of_lookup_2 _ _ _ Hj)), <-!list_fmap_compose.
  apply list_fmap_ext. intros _ p _. simpl. by rewrite Hj.
Qed.

(** ** The order of the keys *)

Lemma key_before_irrefl k : key_before k k = false.
Proof.
  induction k as [|a k IH]; simpl; [done|].
  by rewrite Z.ltb_irrefl, Z.eqb_refl.
Qed.

Lemma entries_sorted n :
  tree_ok n -> StronglySorted (fun k1 k2 => key_before k1 k2 = true) (entries n).
Proof.
  induction n as [d l ch IH] using trie_node_ind. intros Hn.
  cbn [entries children_ is_leaf_]. apply StronglySorted_app. split_and!.
  - intros k1 k2 (j & c & Hj & Hk1)%elem_of_flat_imap Hk2.
    destruct l; [|by apply elem_of_nil in Hk2].
    apply list_elem_of_singleton in Hk2 as ->.
    by apply list_elem_of_fmap in Hk1 as (k & -> & _).
  - apply StronglySorted_flat_imap.
    + intros j c Hj. simpl. rewrite Forall_forall in IH.
      apply (StronglySorted_fmap _ (fun k1 k2 => key_before k1 k2 = true)
               (fun k1 k2 => key_before k1 k2 = true)).
      * intros k1 k2 Hk. simpl. by rewrite Z.ltb_irrefl, Z.eqb_refl.
      * apply IH; [by eapply list_elem_of_lookup_2|]. by eapply tree_ok_child.
    + intros j1 j2 c1 c2 k1 k2 Hlt Hj1 Hj2 Hk1 Hk2. simpl in Hk1, Hk2.
      apply list_elem_of_fmap in Hk1 as (k1' & -> & _).
      apply list_elem_of_fmap in Hk2 as (k2' & -> & _). simpl.
      assert (sym c1 < sym c2) as Hsym.
      { apply (sorted_lookup_lt (syms ch) j1 j2); [apply (tree_ok_sorted _ Hn)| | |done].
        - by rewrite syms_lookup, Hj1.
        - by rewrite syms_lookup, Hj2. }
      by destruct (Z.ltb_spec (sym c1) (sym c2)); [|lia].
  - destruct l; repeat constructor.
Qed.

Lemma sorted_irrefl_NoDup {A} (R : relation A) l :
  (forall x, ~ R x x) -> StronglySorted R l -> NoDup l.
Proof.
  intros Hirr. induction 1 as [|x l Hs IH Hx]; constructor; [|done].
  intros Hin. rewrite Forall_forall in Hx. by apply (Hirr x), Hx.
Qed.

Lemma entries_NoDup n : tree_ok n -> NoDup (entries n).
Proof.
  intros Hn. eapply sorted_irrefl_NoDup; [|by apply entries_sorted].
  intros k. simpl. by rewrite key_before_irrefl.
Qed.

Lemma leaves_NoDup n : tree_ok n -> NoDup (leaves n).
Proof.
  intros Hn. apply (NoDup_fmap_1 (key_of n)). rewrite entries_leaves.
  by apply entries_NoDup.
Qed.

(** ** The leaves of the whole tree *)

Lemma top_inv_tree_ok top : top_inv top -> tree_ok top.
Proof.
  intros (Hl & Hs & real & e & Hch & He & Hel & Hech & Hreal).
  constructor.
  - split; [done|]. intros Hnil. rewrite Hnil in Hch. by destruct real.
  - rewrite Hch. apply Forall_app. split.
    + eapply Forall_impl; [done|]. intros c Hc.
      eapply every_node_mono; [|done]. by intros m (? & ? & _).
    + constructor; [|constructor]. constructor; [|rewrite Hech; constructor].
      split; [by apply sorted_children_nil|by intros _].
Qed.

Lemma flat_imap_app {A B} (f : nat -> A -> list B) i l1 l2 :
  flat_imap f i (l1 ++ l2)
  = flat_imap f i l1 ++ flat_imap f (i + length l1)%nat l2.
Proof.
  revert i. induction l1 as [|c l1 IH]; intros i; cbn [flat_imap app length].
  - by rewrite Nat.add_0_r.
  - rewrite IH, <-app_assoc. by replace (S i + length l1)%nat
      with (i + S (length l1))%nat by lia.
Qed.

(** The end node is the last leaf; the leaves before it are real. *)
Lemma leaves_top top :
  top_inv top ->
  exists l,
    leaves top = l ++ [[(length (children_ top) - 1)%nat]] /\
    forall p, p ∈ l ->
      exists i p' m, p = i :: p' /\ descend top p = Some m /\
                     is_leaf_ m = true /\
                     (i < length (children_ top) - 1)%nat /\
                     every_node real_node m.
Proof.
  intros Hinv.
  pose proof Hinv as (Hl & Hs & real & e & Hch & He & Hel & Hech & Hreal).
  exists (flat_imap (fun i c => (i ::.) <$> leaves c) 0 real). split.
  - rewrite leaves_unfold, Hl, app_nil_r, Hch, flat_imap_app.
    cbn [flat_imap]. rewrite app_nil_r, (leaves_unfold e), Hech, Hel.
    rewrite length_app. simpl. do 3 f_equal. lia.
  - intros p (j & c & Hj & Hp)%elem_of_flat_imap.
    apply list_elem_of_fmap in Hp as (p' & -> & Hp'). simpl.
    destruct (leaves_descend c p' Hp') as (m & Hm & Hlm).
    assert (children_ top !! j = Some c) as Hc.
    { rewrite Hch. by apply lookup_app_l_Some. }
    assert (descend top (j :: p') = Some m) as Hd by (simpl; by rewrite Hc).
    apply lookup_lt_Some in Hj. exists j, p', m. split_and!; try done.
    + rewrite Hch, length_app. simpl. lia.
    + destruct (top_inv_descend _ _ _ _ Hinv Hd) as [[-> _]|[_ ?]]; [|done].
      rewrite Hch, length_app in Hj. simpl in Hj. lia.
Qed.

Lemma end_is_last t :
  end_ t = mk_iter (reverse [(length (children_ (top_ t)) - 1)%nat]).
Proof. done. Qed.

Lemma begin_spec t :
  top_inv (top_ t) ->
  exists q, head (leaves (top_ t)) = Some q /\ begin t = mk_iter (reverse q).
Proof.
  intros Hinv. unfold begin, empty.
  destruct (Nat.eqb_spec (length (children_ (top_ t))) 1) as [Hlen|Hlen].
  - pose proof Hinv as (Hl & Hs & real & e & Hch & He & Hel & Hech & _).
    rewrite Hch, length_app in Hlen. simpl in Hlen.
    destruct real; [|simpl in Hlen; lia].
    exists [0%nat]. rewrite leaves_unfold, Hl, Hch. cbn [app flat_imap].
    rewrite (leaves_unfold e), Hech, Hel. split; [done|].
    unfold end_. by rewrite Hch.
  - destruct (begin_loop_first (top_ t) []) as (q & Hq & Hb);
      [by apply top_inv_tree_ok|].
    exists q. split; [done|]. by rewrite Hb, app_nil_r.
Qed.

(** The steps of the iterator along the list of leaves. *)
Lemma incr_node_next t l1 p q l2 :
  top_inv (top_ t) -> leaves (top_ t) = l1 ++ p :: q :: l2 ->
  incr_node (top_ t) (reverse p) = Ok (reverse q).
Proof.
  intros Hinv Heq. destruct (leaves_top _ Hinv) as (l & Hl & Hreal).
  assert (p ∈ l) as Hp.
  { rewrite Heq in Hl. destruct (exists_last (l := q :: l2)) as (l3 & x & Hx); [done|].
    rewrite Hx in Hl. change (l1 ++ p :: l3 ++ [x]) with (l1 ++ (p :: l3) ++ [x]) in Hl.
    rewrite app_assoc in Hl. apply app_inj_tail in Hl as [<- _].
    apply elem_of_app. right. by left. }
  destruct (Hreal p Hp) as (i & p' & m & -> & Hd & Hlm & Hi & Hr).
  unfold incr_node. rewrite deref_path, Hd.
  apply every_node_inv in Hr as [(_ & _ & Hsym) _]. unfold real_symbol, sym in Hsym.
  destruct (Z.eqb_spec (data_ m).1 KeyMax) as [?|_]; [lia|].
  apply (incr_next (top_ t) (top_ t) [] (i :: p') q); [|by apply top_inv_tree_ok|done].
  apply next_in_complete; [by apply top_inv_tree_ok|]. by exists l1, l2.
Qed.

Lemma decr_node_prev t l1 p q l2 :
  top_inv (top_ t) -> leaves (top_ t) = l1 ++ p :: q :: l2 ->
  decr_node (top_ t) (reverse q) = Ok (reverse p).
Proof.
  intros Hinv Heq.
  apply (decr_prev (top_ t) (top_ t) [] p q); [|by apply top_inv_tree_ok|done].
  apply next_in_complete; [by apply top_inv_tree_ok|]. by exists l1, l2.
Qed.

Lemma iter_eqb_reverse p q :
  iter_eqb (mk_iter (reverse p)) (mk_iter (reverse q)) = bool_decide (p = q).
Proof.
  unfold iter_eqb, ptr_eqb. cbn [node_]. apply bool_decide_ext.
  split; [apply (inj reverse)|by intros ->].
Qed.

(** ** The client loops run along the list of leaves *)

Lemma forward_step t l1 p l2 :
  top_inv (top_ t) ->
  leaves (top_ t) = l1 ++ (p :: l2) ++ [end_path (top_ t)] ->
  iter_eqb (mk_iter (reverse p)) (end_ t) = false /\
  key t (mk_iter (reverse p)) = Ok (key_of (top_ t) p) /\
  incr_node (top_ t) (reverse p)
  = Ok (reverse (default (end_path (top_ t)) (head l2))) /\
  leaves (top_ t) = (l1 ++ [p]) ++ l2 ++ [end_path (top_ t)].
Proof.
  intros Hinv Heq. pose proof (leaves_NoDup _ (top_inv_tree_ok _ Hinv)) as Hnd.
  split_and!.
  - rewrite end_is_last, iter_eqb_reverse. apply bool_decide_eq_false.
    intros ->. rewrite Heq in Hnd. apply NoDup_app in Hnd as (_ & _ & Hnd).
    simpl in Hnd. apply NoDup_cons in Hnd as [Hnd _]. apply Hnd.
    apply elem_of_app. right. by left.
  - apply key_spec. destruct (leaves_descend (top_ t) p) as (m & -> & _); [|done].
    rewrite Heq. apply elem_of_app. right. by left.
  - destruct l2 as [|q l2]; simpl.
    + by apply (incr_node_next t l1 p _ []).
    + by apply (incr_node_next t l1 p q (l2 ++ [end_path (top_ t)])).
  - by rewrite Heq, <-!app_assoc.
Qed.

Lemma forward_loop_spec t l2 l1 fuel :
  top_inv (top_ t) ->
  leaves (top_ t) = l1 ++ l2 ++ [end_path (top_ t)] ->
  (length l2 < fuel)%nat ->
  forward_loop fuel t
    (mk_iter (reverse (default (end_path (top_ t)) (head l2))))
  = Ok (key_of (top_ t) <$> l2).
Proof.
  intros Hinv. revert l1 fuel. induction l2 as [|p l2 IH]; intros l1 fuel Heq Hfuel;
    (destruct fuel as [|fuel]; [simpl in Hfuel; lia|]);
    cbn [forward_loop head default from_option id].
  - simpl. by rewrite end_is_last, iter_eqb_reverse, bool_decide_true.
  - destruct (forward_step t l1 p l2 Hinv Heq) as (-> & Hk & Hn & Heq').
    cbn [node_]. rewrite Hk, Hn. cbn [result_bind].
    rewrite (IH (l1 ++ [p]) fuel Heq') by (simpl in Hfuel; lia). done.
Qed.

Lemma forward_iters_loop_spec t l2 l1 fuel :
  top_inv (top_ t) ->
  leaves (top_ t) = l1 ++ l2 ++ [end_path (top_ t)] ->
  (length l2 < fuel)%nat ->
  forward_iters_loop fuel t
    (mk_iter (reverse (default (end_path (top_ t)) (head l2))))
  = Ok ((fun p => mk_iter (reverse p)) <$> l2).
Proof.
  intros Hinv. revert l1 fuel. induction l2 as [|p l2 IH]; intros l1 fuel Heq Hfuel;
    (destruct fuel as [|fuel]; [simpl in Hfuel; lia|]);
    cbn [forward_iters_loop head default from_option id].
  - simpl. by rewrite end_is_last, iter_eqb_reverse, bool_decide_true.
  - destruct (forward_step t l1 p l2 Hinv Heq) as (-> & Hk & Hn & Heq').
    cbn [node_]. rewrite Hn. cbn [result_bind].
    rewrite (IH (l1 ++ [p]) fuel Heq') by (simpl in Hfuel; lia). done.
Qed.

Lemma longest_loop_spec t l2 l1 fuel max_length long_iter :
  top_inv (top_ t) ->
  leaves (top_ t) = l1 ++ l2 ++ [end_path (top_ t)] ->
  (length l2 < fuel)%nat ->
  longest_loop fuel t
    (mk_iter (reverse (default (end_path (top_ t)) (head l2))))
    max_length long_iter
  = Ok (longest_scan (top_ t) max_length long_iter l2).
Proof.
  intros Hinv. revert l1 fuel max_length long_iter.
  induction l2 as [|p l2 IH]; intros l1 fuel max_length long_iter Heq Hfuel;
    (destruct fuel as [|fuel]; [simpl in Hfuel; lia|]);
    cbn [longest_loop head default from_option id].
  - simpl. by rewrite end_is_last, iter_eqb_reverse, bool_decide_true.
  - destruct (forward_step t l1 p l2 Hinv Heq) as (-> & Hk & Hn & Heq').
    cbn [node_]. rewrite Hk, Hn. cbn [result_bind longest_scan].
    destruct (max_length <? length (key_of (top_ t) p))%nat;
      by rewrite (IH (l1 ++ [p]) fuel _ _ Heq') by (simpl in Hfuel; lia).
Qed.

Lemma backward_step t l1 p0 p l2 :
  top_inv (top_ t) ->
  leaves (top_ t) = (l1 ++ [p0]) ++ p :: l2 ->
  iter_eqb (mk_iter (reverse p)) (begin t) = false /\
  decr_node (top_ t) (reverse p) = Ok (reverse p0) /\
  key t (mk_iter (reverse p0)) = Ok (key_of (top_ t) p0).
Proof.
  intros Hinv Heq. pose proof (leaves_NoDup _ (top_inv_tree_ok _ Hinv)) as Hnd.
  split_and!.
  - destruct (begin_spec t Hinv) as (q & Hq & ->).
    rewrite iter_eqb_reverse. apply bool_decide_eq_false. intros ->.
    rewrite Heq in Hnd, Hq. apply NoDup_app in Hnd as (_ & Hnd & _).
    apply (Hnd q); [|by left]. rewrite <-app_assoc, head_app in Hq.
    destruct l1 as [|x l1]; simpl in Hq; injection Hq as ->;
      [by left|]. left.
  - rewrite <-app_assoc in Heq. by apply (decr_node_prev t l1 p0 p l2).
  - apply key_spec. destruct (leaves_descend (top_ t) p0) as (m & -> & _); [|done].
    rewrite Heq. apply elem_of_app. left. apply elem_of_app. right. by left.
Qed.

Lemma backward_loop_spec t l1 p l2 fuel :
  top_inv (top_ t) ->
  leaves (top_ t) = l1 ++ p :: l2 ->
  (length l1 < fuel)%nat ->
  backward_loop fuel t (mk_iter (reverse p))
  = Ok (reverse (key_of (top_ t) <$> l1)).
Proof.
  intros Hinv. revert p l2 fuel.
  induction l1 as [|p0 l1 IH] using rev_ind; intros p l2 fuel Heq Hfuel;
    (destruct fuel as [|fuel]; [simpl in Hfuel; lia|]); cbn [backward_loop].
  - destruct (begin_spec t Hinv) as (q & Hq & ->). rewrite Heq in Hq.
    injection Hq as <-. by rewrite iter_eqb_reverse, bool_decide_true.
  - destruct (backward_step t l1 p0 p l2 Hinv Heq) as (-> & Hd & Hk).
    cbn [node_]. rewrite Hd. cbn [result_bind]. rewrite Hk. cbn [result_bind].
    rewrite <-app_assoc in Heq. rewrite length_app in Hfuel. simpl in Hfuel.
    rewrite (IH p0 (p :: l2) fuel Heq) by lia. cbn [result_bind].
    by rewrite fmap_app, reverse_app.
Qed.

(** ** The traversal as a whole *)

Lemma head_leaves_top top l :
  leaves top = l ++ [end_path top] ->
  head (leaves top) = Some (default (end_path top) (head l)).
Proof. intros ->. by destruct l. Qed.

Lemma find_key_of t l p :
  top_inv (top_ t) -> leaves (top_ t) = l ++ [end_path (top_ t)] -> p ∈ l ->
  find t (key_of (top_ t) p) = mk_iter (reverse p) /\
  find t (key_of (top_ t) p) <> end_ t /\ key_of (top_ t) p <> [].
Proof.
  intros Hinv Heq Hp.
  pose proof (leaves_NoDup _ (top_inv_tree_ok _ Hinv)) as Hnd.
  destruct (leaves_descend (top_ t) p) as (m & Hm & Hl).
  { rewrite Heq. apply elem_of_app. by left. }
  pose proof (walk_key_of _ _ _ (top_inv_tree_ok _ Hinv) Hm) as Hw.
  assert (p <> end_path (top_ t)) as Hne.
  { intros ->. rewrite Heq in Hnd. apply NoDup_app in Hnd as (_ & Hnd & _).
    apply (Hnd _ Hp). by left. }
  assert (key_of (top_ t) p <> []) as Hk.
  { intros Hnil. rewrite Hnil in Hw. injection Hw as <-. injection Hm as <-.
    destruct Hinv as [? _]. congruence. }
  assert (find t (key_of (top_ t) p) = mk_iter (reverse p)) as Hfind.
  { rewrite find_spec. destruct (key_of (top_ t) p) as [|c k]; [done|].
    by rewrite Hw, Hm, Hl. }
  split_and!; [done| |done]. rewrite Hfind, end_is_last.
  intros [= Heq']. by apply (inj reverse) in Heq'.
Qed.

Lemma stored_in_leaves t l k :
  top_inv (top_ t) -> leaves (top_ t) = l ++ [end_path (top_ t)] ->
  find t k <> end_ t ->
  exists p, p ∈ l /\ key_of (top_ t) p = k /\ find t k = mk_iter (reverse p).
Proof.
  intros Hinv Heq Hne.
  destruct (find_found t k Hinv Hne) as (i & p & m & Hw & Hd & Hl & Hf & Hi & _).
  exists (i :: p). split_and!; [|by apply key_of_walk|done].
  pose proof (descend_leaves _ _ _ Hd Hl) as Hin. rewrite Heq in Hin.
  apply elem_of_app in Hin as [?|Hin]; [done|].
  apply list_elem_of_singleton in Hin. injection Hin as ->. lia.
Qed.

(** C2, as the code has it: in every reachable state, stepping with
    [operator++] from [begin()] to [end()] visits every stored key exactly
    once, each key after all stored keys it is a proper prefix of and
    otherwise in ascending order of the first differing symbol
    ([key_before]); stepping with [operator--] from [end()] back to [begin()]
    visits exactly the reverse of that sequence. *)
Theorem traversal_order t :
  reachable t ->
  exists ks,
    (forall fuel, (length ks < fuel)%nat ->
       forward_keys fuel t = Ok ks /\ backward_keys fuel t = Ok (reverse ks)) /\
    NoDup ks /\
    (forall k, k ∈ ks <-> find t k <> end_ t) /\
    StronglySorted (fun k1 k2 => key_before k1 k2 = true) ks.
Proof.
  intros [Hinv _]%reachable_inv.
  destruct (leaves_top _ Hinv) as (l & Heq & _). fold (end_path (top_ t)) in Heq.
  pose proof (top_inv_tree_ok _ Hinv) as Hok.
  pose proof (entries_sorted _ Hok) as Hsorted.
  rewrite <-entries_leaves, Heq, fmap_app in Hsorted.
  exists (key_of (top_ t) <$> l). split_and!.
  - intros fuel Hfuel. rewrite length_fmap in Hfuel. split.
    + unfold forward_keys. destruct (begin_spec t Hinv) as (q & Hq & ->).
      rewrite (head_leaves_top _ _ Heq) in Hq. injection Hq as <-.
      by apply (forward_loop_spec t l []).
    + unfold backward_keys. rewrite end_is_last.
      by apply (backward_loop_spec t l _ []).
  - eapply sorted_irrefl_NoDup; [|by eapply StronglySorted_app_1_l].
    intros k. simpl. by rewrite key_before_irrefl.
  - intros k. split.
    + intros (p & -> & Hp)%list_elem_of_fmap.
      by destruct (find_key_of t l p Hinv Heq Hp) as (_ & ? & _).
    + intros Hne. destruct (stored_in_leaves t l k Hinv Heq Hne) as (p & Hp & <- & _).
      by apply list_elem_of_fmap_2.
  - by eapply StronglySorted_app_1_l.
Qed.

(** ** [find_longest_prefix] *)

Lemma longest_scan_spec top max_length long_iter l :
  (longest_scan top max_length long_iter l = long_iter /\
   forall p, p ∈ l -> (length (key_of top p) <= max_length)%nat) \/
  exists i p,
    l !! i = Some p /\
    longest_scan top max_length long_iter l = mk_iter (reverse p) /\
    (max_length < length (key_of top p))%nat /\
    (forall j p', l !! j = Some p' ->
       (length (key_of top p') <= length (key_of top p))%nat) /\
    (forall j p', (j < i)%nat -> l !! j = Some p' ->
       (length (key_of top p') < length (key_of top p))%nat).
Proof.
  revert max_length long_iter.
  induction l as [|p0 l IH]; intros max_length long_iter; cbn [longest_scan].
  { left. split; [done|]. by intros p ?%elem_of_nil. }
  destruct (Nat.ltb_spec max_length (length (key_of top p0))) as [Hlt|Hge].
  - destruct (IH (length (key_of top p0)) (mk_iter (reverse p0)))
      as [[-> Hall]|(i & p & Hi & -> & Hmax & Hall & Hfirst)]; right.
    + exists 0%nat, p0. split_and!; try done; [|intros; lia].
      intros [|j] p' Hj; simplify_eq/=; [done|].
      apply Hall. by eapply list_elem_of_lookup_2.
    + exists (S i), p. split_and!; try done; [lia| |].
      * intros [|j] p' Hj; simplify_eq/=; [lia|by eapply Hall].
      * intros [|j] p' Hlt' Hj; simplify_eq/=; [lia|]. eapply Hfirst; [|done]. lia.
  - destruct (IH max_length long_iter)
      as [[-> Hall]|(i & p & Hi & -> & Hmax & Hall & Hfirst)].
    + left. split; [done|]. intros p [->|Hp]%elem_of_cons; [done|by apply Hall].
    + right. exists (S i), p. split_and!; try done.
      * intros [|j] p' Hj; simplify_eq/=; [lia|by eapply Hall].
      * intros [|j] p' Hlt' Hj; simplify_eq/=; [lia|]. eapply Hfirst; [|done]. lia.
Qed.

Lemma strongly_sorted_lookup {A} (R : A -> A -> Prop) l i j a b :
  StronglySorted R l -> l !! i = Some a -> l !! j = Some b ->
  (i < j)%nat -> R a b.
Proof.
  intros Hs. revert i j. induction Hs as [|x l Hs IH Hx]; intros i j Hi Hj Hij.
  - done.
  - destruct j as [|j]; [lia|]. destruct i as [|i]; simpl in *.
    + simplify_eq. rewrite Forall_forall in Hx. apply Hx.
      by eapply list_elem_of_lookup_2.
    + eapply IH; eauto. lia.
Qed.

(** Between keys of one length the order of the traversal is the
    lexicographic one. *)
Lemma key_before_lex_lt k1 k2 :
  length k1 = length k2 -> key_before k1 k2 = lex_lt k1 k2.
Proof.
  revert k2. induction k1 as [|a k1 IH]; intros [|b k2] Hlen; try done.
  simpl. rewrite IH; [done|]. simpl in Hlen. lia.
Qed.

(** C9: in every reachable state [find_longest_prefix()] returns [end()]
    when nothing is stored; otherwise it returns the iterator of a stored
    entry whose key is at least as long as every stored key, and that entry
    is the first of that length the traversal from [begin()] meets, which
    is also the lexicographically least stored key of that length. *)
Theorem find_longest_prefix_spec t :
  reachable t ->
  exists its r,
    (forall fuel, (length its < fuel)%nat ->
       forward_iters fuel t = Ok its /\ find_longest_prefix fuel t = Ok r) /\
    ((forall k, find t k = end_ t) -> r = end_ t) /\
    (forall k0, find t k0 <> end_ t ->
       exists i k,
         its !! i = Some r /\ key t r = Ok k /\ find t k = r /\ r <> end_ t /\
         (forall k', find t k' <> end_ t -> (length k' <= length k)%nat) /\
         (forall j it' k', (j < i)%nat -> its !! j = Some it' ->
            key t it' = Ok k' -> (length k' < length k)%nat) /\
         (forall k', find t k' <> end_ t -> length k' = length k ->
            k' <> k -> lex_lt k k' = true)).
Proof.
  intros [Hinv _]%reachable_inv.
  destruct (leaves_top _ Hinv) as (l & Heq & _). fold (end_path (top_ t)) in Heq.
  pose proof (entries_sorted _ (top_inv_tree_ok _ Hinv)) as Hsorted.
  rewrite <-entries_leaves, Heq, fmap_app in Hsorted.
  apply StronglySorted_app_1_l in Hsorted.
  exists ((fun p => mk_iter (reverse p)) <$> l),
         (longest_scan (top_ t) 0 (end_ t) l).
  split_and!.
  - intros fuel Hfuel. rewrite length_fmap in Hfuel.
    unfold forward_iters, find_longest_prefix.
    destruct (begin_spec t Hinv) as (q & Hq & ->).
    rewrite (head_leaves_top _ _ Heq) in Hq. injection Hq as <-. split.
    + by apply (forward_iters_loop_spec t l []).
    + by apply (longest_loop_spec t l []).
  - intros Hnone.
    destruct (longest_scan_spec (top_ t) 0 (end_ t) l)
      as [[-> _]|(i & p & Hi & _)]; [done|].
    destruct (find_key_of t l p Hinv Heq) as (_ & Hne & _);
      [by eapply list_elem_of_lookup_2|]. by destruct Hne.
  - intros k0 Hk0.
    destruct (stored_in_leaves t l k0 Hinv Heq Hk0) as (p0 & Hp0 & Hkey0 & _).
    destruct (longest_scan_spec (top_ t) 0 (end_ t) l)
      as [[_ Hall]|(i & p & Hi & -> & Hmax & Hall & Hfirst)].
    { destruct (find_key_of t l p0 Hinv Heq Hp0) as (_ & _ & Hnil).
      specialize (Hall p0 Hp0). destruct (key_of (top_ t) p0); [done|].
      simpl in Hall. lia. }
    assert (p ∈ l) as Hp by (by eapply list_elem_of_lookup_2).
    destruct (find_key_of t l p Hinv Heq Hp) as (Hfind & Hne & _).
    assert (forall p', p' ∈ l ->
              key t (mk_iter (reverse p')) = Ok (key_of (top_ t) p')) as Hkeys.
    { intros p' Hp'. apply key_spec.
      destruct (leaves_descend (top_ t) p') as (m & -> & _); [|done].
      rewrite Heq. apply elem_of_app. by left. }
    exists i, (key_of (top_ t) p). split_and!.
    + by rewrite list_lookup_fmap, Hi.
    + by apply Hkeys.
    + done.
    + by rewrite <-Hfind.
    + intros k' Hk'.
      destruct (stored_in_leaves t l k' Hinv Heq Hk') as (p' & Hp' & <- & _).
      apply list_elem_of_lookup_1 in Hp' as [j Hj]. by eapply Hall.
    + intros j it' k' Hlt Hj Hk'. rewrite list_lookup_fmap in Hj.
      destruct (l !! j) as [p'|] eqn:Hj'; [|done]. injection Hj as <-.
      rewrite Hkeys in Hk' by (by eapply list_elem_of_lookup_2).
      injection Hk' as <-. by eapply Hfirst.
    + intros k' Hk' Hlen Hdiff.
      destruct (stored_in_leaves t l k' Hinv Heq Hk') as (p' & Hp' & <- & _).
      apply list_elem_of_lookup_1 in Hp' as [j Hj].
      rewrite <-key_before_lex_lt by done.
      destruct (lt_eq_lt_dec j i) as [[Hlt|Hji]|Hgt].
      * specialize (Hfirst j p' Hlt Hj). lia.
      * rewrite Hji, Hi in Hj. by injection Hj as <-.
      * apply (strongly_sorted_lookup
                 (fun k1 k2 => key_before k1 k2 = true)
                 (key_of (top_ t) <$> l) i j);
          [done| | |done]; rewrite list_lookup_fmap; [by rewrite Hi|by rewrite Hj].
Qed.

(** ** [size()] and the number of entries *)

Lemma reachable_insert_snd t k v :
  reachable t -> valid_key k -> size_ t < SIZE_MAX ->
  reachable (insert (k, v) t).2.
Proof.
  intros Ht Hv Hlt. apply (reach_insert t k v (insert (k, v) t).1); [done..|].
  by destruct (insert (k, v) t).
Qed.

Lemma reachable_erase_snd t k :
  reachable t -> find t k <> end_ t -> reachable (erase (find t k) t).2.
Proof.
  intros Ht Hne. apply (reach_erase t k (erase (find t k) t).1); [done..|].
  by destruct (erase (find t k) t).
Qed.

Lemma reachable_advance_snd t k sub_key :
  reachable t -> find t k <> end_ t ->
  reachable (advance sub_key (find t k, t)).2.2.
Proof.
  intros Ht Hne.
  apply (reach_advance t k sub_key (advance sub_key (find t k, t)).1
           (advance sub_key (find t k, t)).2.1); [done..|].
  by destruct (advance sub_key (find t k, t)) as [? [? ?]].
Qed.

(** [insert], [erase], [clear] and the copy keep [size()] equal to the
    number of entries. *)
Lemma size_counts_entries_kept t :
  reachable t -> size t = count_entries t ->
  (forall k v, valid_key k -> size t < SIZE_MAX ->
     size (insert (k, v) t).2 = count_entries (insert (k, v) t).2) /\
  (forall k, find t k <> end_ t ->
     size (erase (find t k) t).2 = count_entries (erase (find t k) t).2) /\
  size (clear t) = count_entries (clear t) /\
  size (trie_copy t) = count_entries (trie_copy t).
Proof.
  intros [Hinv Hsz]%reachable_inv Heq. unfold size in *.
  pose proof (count_entries_nonneg t Hinv) as Hnn. split_and!.
  - intros k v Hv Hlt. destruct k as [|c k]; [done|].
    destruct (get (top_ t) (c :: k)) as [v0|] eqn:Hg.
    + destruct (insert_shape t (c :: k) v)
        as (k1 & rest & p & m & Hk & Hw & Hd & Habs & ->); [done|].
      assert (is_empty rest && is_leaf_ m = true) as ->; [|done].
      rewrite Hk, get_walk, walk_app, Hw in Hg. simpl in Hg. rewrite Hd in Hg.
      simpl in Hg. destruct rest as [|c' rest].
      * simpl in Hg. rewrite app_nil_r, Hd in Hg. simpl in Hg.
        by destruct (is_leaf_ m).
      * simpl in Hg. by rewrite Habs in Hg.
    + destruct (insert_ok t (c :: k) v) as (it & top' & -> & _ & _ & Hc); [done..|].
      unfold count_entries in *. cbn [snd top_ size_].
      rewrite size_incr_exact by lia. lia.
  - intros k Hne. pose proof (stored_count_pos t k Hinv Hne) as Hpos.
    destruct (erase_ok t k Hinv Hne) as (top' & -> & _ & _ & Hc).
    unfold count_entries in *. cbn [snd top_ size_].
    rewrite size_decr_exact by lia. lia.
  - unfold count_entries. cbn [clear top_ size_]. rewrite count_leaves_unfold.
    destruct Hinv as [Hl _]. simpl. rewrite Hl. lia.
  - unfold trie_copy, count_entries. cbn [top_ size_]. by rewrite copy_node_id.
Qed.

(** * Further properties of the operations *)

(** ** [find_by_key] and [push_child] *)

(** The binary search never hands out a wrong child, and over children in
    ascending order it finds the child carrying the symbol whenever there is
    one and answers [children_.end()] otherwise. *)
Theorem find_by_key_binary_search n c :
  sorted_children n ->
  (forall m, children_ n !! find_by_key n c = Some m -> sym m = c) /\
  (forall i m, children_ n !! i = Some m -> sym m = c -> find_by_key n c = i) /\
  ((forall m, m ∈ children_ n -> sym m <> c) ->
   find_by_key n c = length (children_ n)).
Proof.
  intros Hs. split_and!.
  - intros m Hm. destruct (find_by_key_spec n c Hs) as [(m' & Hm' & <-)|[Hlen _]].
    + by simplify_eq.
    + rewrite Hlen in Hm. apply lookup_lt_Some in Hm. lia.
  - intros i m Hi <-. by apply find_by_key_found.
  - intros Hno. apply find_by_key_missing; [done|].
    intros (m & Hc & Hm)%list_elem_of_fmap. by apply (Hno m).
Qed.

(** Pushing a child whose symbol is new into children in ascending order
    leaves them in ascending order: the old children keep their order, the
    new one stands between them at the position the swaps end at. *)
Theorem push_child_keeps_order n child :
  sorted_children n -> sym child ∉ syms (children_ n) ->
  sorted_children (push_child n child) /\
  children_ (push_child n child) !! push_child_pos n child = Some child /\
  find_by_key (push_child n child) (sym child) = push_child_pos n child /\
  exists l1 l2,
    children_ n = l1 ++ l2 /\
    children_ (push_child n child) = l1 ++ child :: l2.
Proof.
  intros Hs Hnew.
  pose proof (push_child_sorted n child Hs Hnew) as Hs'.
  pose proof (push_child_lookup n child) as Hl.
  split_and!; [done|done|by apply find_by_key_found|].
  destruct (push_child_split n child) as (l1 & l2 & H1 & H2 & _).
  by exists l1, l2.
Qed.

(** [remove_child] of the child just pushed gives the node back as it was,
    whatever its children. *)
Theorem remove_child_undoes_push_child n child :
  remove_child (push_child n child) (push_child_pos n child) = n.
Proof.
  destruct (push_child_split n child) as (l1 & l2 & H1 & H2 & H3 & _).
  unfold remove_child. rewrite H2, H3, delete_middle, <-H1.
  by destruct n.
Qed.

(** ** [get_value] *)

Lemma iter_eqb_false (a b : search_iterator) : a <> b -> iter_eqb a b = false.
Proof.
  intros Hne. unfold iter_eqb, ptr_eqb. apply bool_decide_eq_false.
  intros Heq. apply Hne. destruct a, b. simpl in Heq. by subst.
Qed.

Lemma iter_eqb_refl (a : search_iterator) : iter_eqb a a = true.
Proof. unfold iter_eqb, ptr_eqb. by apply bool_decide_eq_true. Qed.

Lemma iter_eq_or_not (a b : search_iterator) : a = b \/ a <> b.
Proof.
  destruct a as [p], b as [q]. destruct (decide (p = q)) as [->|Hne].
  - by left.
  - right. by intros [= ->].
Qed.

Lemma found_value t k :
  top_inv (top_ t) -> find t k <> end_ t ->
  exists v, get (top_ t) k = Some v /\ value t (find t k) = Ok v.
Proof.
  intros Hinv Hne. pose proof Hne as Hne'.
  apply find_stored_iff in Hne' as [[v Hv] Hend]; [|done].
  exists v. split; [done|]. by destruct (find_get_Some t k v Hinv Hv Hend).
Qed.


(** ** [insert], looked at from the other members *)

(** What [insert] of a key that is not stored does, with the iterator it
    returns identified. *)
Lemma insert_new_key t k v :
  top_inv (top_ t) -> valid_key k -> k <> [] -> get (top_ t) k = None ->
  exists top',
    let t' := mk_trie top' (size_incr (size_ t)) in
    insert (k, v) t = (Ok (find t' k), t') /\
    top_inv top' /\
    (forall k', get top' k' = if decide (k' = k) then Some v else get (top_ t) k')
    /\ find t' k <> end_ t' /\ value t' (find t' k) = Ok v.
Proof.
  intros Hinv Hv Hk Hg.
  destruct (insert_ok t k v Hinv Hv Hk Hg) as (it & top' & Hins & Hinv' & Hget & _).
  exists top'. cbn zeta.
  pose proof (Hget k) as Hgk. rewrite decide_True in Hgk by done.
  destruct (find_get_Some (mk_trie top' (size_incr (size_ t))) k v Hinv' Hgk)
    as [Hne Hval]; [by apply valid_key_not_end|].
  assert (find (mk_trie top' (size_incr (size_ t))) k = it) as Hfind.
  { destruct (find_found (mk_trie top' (size_incr (size_ t))) k Hinv' Hne)
      as (i & p' & m' & Hw' & _ & _ & -> & _). cbn [top_] in Hw'.
    destruct (insert_shape t k v Hk)
      as (k1 & rest & p & m & -> & Hw & Hd & Habs & Heq).
    assert (is_empty rest && is_leaf_ m = false) as Hnd.
    { destruct rest as [|c rest]; [|done]. simpl.
      rewrite app_nil_r, get_walk, Hw in Hg. simpl in Hg. rewrite Hd in Hg.
      simpl in Hg. by destruct (is_leaf_ m). }
    rewrite Hnd in Heq. pose proof (eq_trans (eq_sym Hins) Heq) as Hx.
    injection Hx as -> ->.
    destruct (insert_create_walk m (reverse p) rest v) as (q & Hq & Hfin);
      [exact (top_inv_sorted_descend _ _ _ Hinv Hd)|done|].
    rewrite Hfin, <-reverse_app.
    rewrite (walk_rewrite_at_prefix _ _ k1 p m), Hq in Hw';
      [|done|done|apply insert_create_sym].
    by injection Hw' as <-. }
  rewrite Hfind in *. by split_and!.
Qed.

(** Two containers whose key-to-payload maps agree answer [find] alike. *)
Lemma find_stored_ext t1 t2 k :
  top_inv (top_ t1) -> top_inv (top_ t2) ->
  get (top_ t2) k = get (top_ t1) k ->
  (find t2 k <> end_ t2 <-> find t1 k <> end_ t1) /\
  (find t1 k <> end_ t1 -> value t2 (find t2 k) = value t1 (find t1 k)).
Proof.
  intros H1 H2 Hg. split.
  - by rewrite !find_stored_iff, Hg.
  - intros Hne. destruct (found_value t1 k H1 Hne) as (v & Hv & ->).
    rewrite <-Hg in Hv. apply find_stored_iff in Hne as [_ Hend]; [|done].
    by destruct (find_get_Some t2 k v H2 Hv Hend).
Qed.

(** After [insert(k, v)] of a key that was not stored, [get_value(k)]
    answers [true] with [v], and every other key is found or not as before,
    with the payload it had. *)
Theorem insert_then_get_value t k v container :
  reachable t -> k <> [] -> valid_key k -> find t k = end_ t ->
  let t' := (insert (k, v) t).2 in
  get_value t' k container = Ok (true, v) /\
  forall k', k' <> k ->
    (find t' k' <> end_ t' <-> find t k' <> end_ t) /\
    (find t k' <> end_ t -> value t' (find t' k') = value t (find t k')) /\
    get_value t' k' container = get_value t k' container.
Proof.
  intros [Hinv _]%reachable_inv Hk Hv Hf.
  pose proof (find_not_stored t k Hinv Hv Hf) as Hg.
  destruct (insert_new_key t k v Hinv Hv Hk Hg)
    as (top' & Hins & Hinv' & Hget & Hne & Hval).
  cbn zeta in *. rewrite Hins. cbn [snd].
  set (t' := mk_trie top' (size_incr (size_ t))) in *. split.
  - unfold get_value. rewrite iter_eqb_false by done. by rewrite Hval.
  - intros k' Hk'.
    assert (get (top_ t') k' = get (top_ t) k') as Hgk.
    { cbn [t' top_]. rewrite Hget. by rewrite decide_False. }
    destruct (find_stored_ext t t' k' Hinv Hinv' Hgk) as [Hiff Hvals].
    split_and!; [done|done|]. unfold get_value.
    destruct (iter_eq_or_not (find t k') (end_ t)) as [He|Hn].
    + assert (find t' k' = end_ t') as He'.
      { destruct (iter_eq_or_not (find t' k') (end_ t')) as [|Hn']; [done|].
        by apply Hiff in Hn'. }
      by rewrite He, He', !iter_eqb_refl.
    + rewrite !iter_eqb_false; [|done|by apply Hiff]. by rewrite Hvals.
Qed.

(** ** [key()] and [operator*] *)

Lemma found_key t k :
  top_inv (top_ t) -> find t k <> end_ t -> key t (find t k) = Ok k.
Proof.
  intros Hinv Hne.
  destruct (find_found t k Hinv Hne) as (i & p & m & Hw & Hd & _ & -> & _).
  rewrite key_spec; [|by rewrite Hd]. by rewrite (key_of_walk _ _ _ Hw).
Qed.

(** For a stored key [k] the iterator [find(k)] spells [k] back with
    [key()], and dereferencing it gives the pair of [k] and the payload
    [get_value] reports. *)
Theorem find_then_key t k container :
  reachable t -> find t k <> end_ t ->
  key t (find t k) = Ok k /\
  exists v, operator_star t (find t k) = Ok (k, v) /\
            get_value t k container = Ok (true, v).
Proof.
  intros [Hinv _]%reachable_inv Hne. split; [by apply found_key|].
  destruct (found_value t k Hinv Hne) as (v & _ & Hv). exists v.
  unfold operator_star, get_value.
  rewrite found_key, Hv, iter_eqb_false by done. done.
Qed.

(** Dereferencing the iterator [insert] returns gives back the pair that was
    inserted. *)
Theorem insert_then_dereference t k v :
  reachable t -> k <> [] -> valid_key k -> find t k = end_ t ->
  exists it t',
    insert (k, v) t = (Ok it, t') /\
    key t' it = Ok k /\ operator_star t' it = Ok (k, v).
Proof.
  intros [Hinv _]%reachable_inv Hk Hv Hf.
  pose proof (find_not_stored t k Hinv Hv Hf) as Hg.
  destruct (insert_new_key t k v Hinv Hv Hk Hg)
    as (top' & Hins & Hinv' & Hget & Hne & Hval).
  cbn zeta in *. eexists _, _. split; [exact Hins|].
  unfold operator_star. rewrite found_key, Hval by done. done.
Qed.

(** [key()] of [end()] is the one-symbol key made of the largest symbol. *)
Lemma key_end t : top_inv (top_ t) -> key t (end_ t) = Ok [KeyMax].
Proof.
  intros Hinv. rewrite end_is_last.
  pose proof (walk_end _ Hinv) as Hw.
  rewrite key_spec.
  - by rewrite (key_of_walk _ _ _ Hw).
  - destruct (top_inv_end _ Hinv) as (e & He & _). simpl.
    rewrite last_lookup in He.
    replace (length (children_ (top_ t)) - 1)%nat
      with (pred (length (children_ (top_ t)))) by lia.
    by rewrite He.
Qed.

(** ** [erase] after [insert] *)

Lemma size_decr_incr s : 0 <= s <= SIZE_MAX -> size_decr (size_incr s) = s.
Proof.
  intros Hs. unfold size_decr, size_incr, SIZE_MAX in *.
  rewrite Zminus_mod_idemp_l.
  replace (s + 1 - 1) with s by lia. apply Z.mod_small. lia.
Qed.

(** Erasing a key right after inserting it undoes the insertion: [size()]
    is what it was, and every key is found or not as before the two calls,
    with the payload it had. *)
Theorem erase_undoes_insert t k v :
  reachable t -> k <> [] -> valid_key k -> find t k = end_ t ->
  exists it t1 t2,
    insert (k, v) t = (Ok it, t1) /\ erase it t1 = (Ok (), t2) /\
    size t2 = size t /\
    forall k',
      (find t2 k' <> end_ t2 <-> find t k' <> end_ t) /\
      (find t k' <> end_ t -> value t2 (find t2 k') = value t (find t k')).
Proof.
  intros [Hinv Hsz]%reachable_inv Hk Hv Hf.
  pose proof (count_entries_nonneg t Hinv) as Hnn.
  pose proof (find_not_stored t k Hinv Hv Hf) as Hg.
  destruct (insert_new_key t k v Hinv Hv Hk Hg)
    as (top1 & Hins & Hinv1 & Hget1 & Hne1 & _).
  cbn zeta in *. set (t1 := mk_trie top1 (size_incr (size_ t))) in *.
  destruct (erase_ok t1 k Hinv1 Hne1) as (top2 & Her & Hinv2 & Hget2 & _).
  exists (find t1 k), t1, (mk_trie top2 (size_decr (size_ t1))).
  split_and!; [done|done| |].
  - unfold size. cbn [size_ t1]. apply size_decr_incr. lia.
  - intros k'. apply find_stored_ext; [done|done|]. cbn [top_].
    rewrite Hget2. cbn [t1 top_]. rewrite Hget1.
    destruct (decide (k' = k)) as [->|]; [by rewrite Hg|done].
Qed.

Lemma key_of_real c q :
  every_node real_node c -> is_Some (descend c q) -> valid_key (key_of c q).
Proof.
  revert c. induction q as [|j q IH]; intros c Hc Hd; [by constructor|].
  simpl in *. destruct (children_ c !! j) as [c'|] eqn:Hj; [|by destruct Hd].
  apply every_node_inv in Hc as [_ Hall]. rewrite Forall_forall in Hall.
  pose proof (Hall c' (list_elem_of_lookup_2 _ _ _ Hj)) as Hc'.
  constructor; [|by apply IH].
  by apply every_node_inv in Hc' as [(_ & _ & ?) _].
Qed.

Lemma found_key_valid t k :
  top_inv (top_ t) -> find t k <> end_ t -> k <> [] /\ valid_key k.
Proof.
  intros Hinv Hne.
  destruct (find_found t k Hinv Hne) as (i & p & m & Hw & Hd & _ & _ & Hi & _).
  rewrite <-(key_of_walk _ _ _ Hw). simpl in *.
  destruct (children_ (top_ t) !! i) as [c|] eqn:Hc; [|done].
  split; [done|].
  pose proof (top_inv_real_lookup _ _ _ Hinv Hc Hi) as Hreal.
  constructor; [by apply every_node_inv in Hreal as [(_ & _ & ?) _]|].
  apply key_of_real; [done|]. by rewrite Hd.
Qed.

(** Whatever [find] finds is a key [insert] accepts: not empty, and made of
    symbols below the largest one. *)
Theorem stored_keys_are_valid t k :
  reachable t -> find t k <> end_ t -> k <> [] /\ valid_key k.
Proof. intros [Hinv _]%reachable_inv. by apply found_key_valid. Qed.

Lemma size_incr_decr s : 0 <= s <= SIZE_MAX -> size_incr (size_decr s) = s.
Proof.
  intros Hs. unfold size_decr, size_incr, SIZE_MAX in *.
  rewrite Zplus_mod_idemp_l.
  replace (s - 1 + 1) with s by lia. apply Z.mod_small. lia.
Qed.

(** Inserting a key again right after erasing it, with the payload it had,
    undoes the erasure: [size()] is what it was, and every key is found or
    not as before the two calls, with the payload it had. *)
Theorem insert_undoes_erase t k v :
  reachable t -> find t k <> end_ t -> value t (find t k) = Ok v ->
  exists t1 it t2,
    erase (find t k) t = (Ok (), t1) /\ insert (k, v) t1 = (Ok it, t2) /\
    size t2 = size t /\
    forall k',
      (find t2 k' <> end_ t2 <-> find t k' <> end_ t) /\
      (find t k' <> end_ t -> value t2 (find t2 k') = value t (find t k')).
Proof.
  intros [Hinv Hsz]%reachable_inv Hne Hval.
  destruct (found_key_valid t k Hinv Hne) as [Hk Hv].
  pose proof (count_entries_nonneg t Hinv) as Hnn.
  destruct (found_value t k Hinv Hne) as (v' & Hg & Hval').
  rewrite Hval in Hval'. injection Hval' as <-.
  destruct (erase_ok t k Hinv Hne) as (top1 & Her & Hinv1 & Hget1 & _).
  set (t1 := mk_trie top1 (size_decr (size_ t))) in *.
  assert (get (top_ t1) k = None) as Hg1.
  { cbn [t1 top_]. rewrite Hget1. by rewrite decide_True. }
  destruct (insert_new_key t1 k v Hinv1 Hv Hk Hg1)
    as (top2 & Hins & Hinv2 & Hget2 & _).
  cbn zeta in *. eexists t1, _, _. split_and!; [done|exact Hins| |].
  - unfold size. cbn [size_ t1]. apply size_incr_decr. lia.
  - intros k'. apply find_stored_ext; [done|done|]. cbn [top_].
    rewrite Hget2. cbn [t1 top_]. rewrite Hget1.
    destruct (decide (k' = k)) as [->|]; [by rewrite Hg|done].
Qed.

(** ** Assignment through [value()] *)

Lemma get_set_value v m r :
  is_leaf_ m = true ->
  get (set_value v m) r = match r with [] => Some v | _ :: _ => get m r end.
Proof. intros Hl. destruct r as [|c r]; simpl; [by rewrite Hl|done]. Qed.

(** Assigning through [find(k).value()] for a stored key [k] changes the
    payload of [k] and nothing else: the iterator of every key, the
    payloads of the other keys and [size()] stay. *)
Theorem value_assign_spec t k v :
  reachable t -> find t k <> end_ t ->
  exists t',
    value_assign (find t k) v t = (Ok (), t') /\
    find t' k = find t k /\ find t' k <> end_ t' /\
    value t' (find t' k) = Ok v /\ size t' = size t /\
    forall k', k' <> k ->
      (find t' k' <> end_ t' <-> find t k' <> end_ t) /\
      (find t k' <> end_ t -> value t' (find t' k') = value t (find t k')).
Proof.
  intros [Hinv _]%reachable_inv Hne.
  destruct (find_found t k Hinv Hne) as (i & p & m & Hw & Hd & Hl & Hf & Hi & Hreal).
  destruct (value_assign_inv t k v
              (value_assign (find t k) v t).1 (value_assign (find t k) v t).2
              Hinv Hne) as (Hinv' & _ & Hsz); [by destruct (value_assign _ _ _)|].
  revert Hinv' Hsz. unfold value_assign, deref, modify. rewrite Hf. cbn [node_].
  rewrite reverse_involutive, Hd. cbn [snd top_ size_]. intros Hinv' _.
  set (top' := rewrite_at (set_value v) (top_ t) (i :: p)) in *.
  assert (forall k', get top' k' = if decide (k' = k) then Some v else get (top_ t) k')
    as Hget.
  { intros k'. unfold top'.
    rewrite (get_rewrite_at_update (set_value v) (top_ t) k (i :: p) m [] (Some v));
      [by rewrite app_nil_r|done|done|done|]. intros r.
    rewrite get_set_value by done. destruct (decide (r = [])) as [->|Hr]; [done|].
    by destruct r. }
  pose proof (Hget k) as Hgk. rewrite decide_True in Hgk by done.
  assert (k <> [KeyMax]) as Hend by (by apply find_stored_iff in Hne as [_ ?]).
  destruct (find_get_Some (mk_trie top' (size_ t)) k v Hinv' Hgk Hend) as [Hne' Hval].
  eexists. split_and!; [done| |done|done|done|].
  - rewrite find_spec. cbn [top_].
    assert (walk top' k = Some (i :: p)) as Hw'.
    { unfold top'. rewrite <-(app_nil_r k).
      rewrite (walk_rewrite_at_prefix _ _ k (i :: p) m); [|done..]. simpl.
      by rewrite app_nil_r. }
    destruct k as [|c k]; [done|]. rewrite Hw'. unfold top'.
    rewrite (descend_rewrite_at _ _ _ _ Hd). cbn [set_value is_leaf_].
    by rewrite Hl.
  - intros k' Hk'. apply find_stored_ext; [done|done|]. cbn [top_].
    rewrite Hget. by rewrite decide_False.
Qed.

(** ** Stepping forwards and backwards *)

(** The iterator of a stored key sits in the list of leaf nodes, with a
    successor. *)
Lemma stored_has_next t k :
  top_inv (top_ t) -> find t k <> end_ t ->
  exists l1 p q l2,
    leaves (top_ t) = l1 ++ p :: q :: l2 /\ find t k = mk_iter (reverse p).
Proof.
  intros Hinv Hne.
  destruct (leaves_top _ Hinv) as (l & Heq & _). fold (end_path (top_ t)) in Heq.
  destruct (stored_in_leaves t l k Hinv Heq Hne) as (p & Hp & _ & Hf).
  apply list_elem_of_split in Hp as (l1 & l2 & ->).
  destruct l2 as [|q l2].
  - exists l1, p, (end_path (top_ t)), []. by rewrite Heq, <-app_assoc.
  - exists l1, p, q, (l2 ++ [end_path (top_ t)]). by rewrite Heq, <-app_assoc.
Qed.

(** A leaf node other than the end node is the iterator of a stored key. *)
Lemma leaf_is_stored t l p :
  top_inv (top_ t) -> leaves (top_ t) = l ++ [end_path (top_ t)] -> p ∈ l ->
  exists k, find t k = mk_iter (reverse p) /\ mk_iter (reverse p) <> end_ t.
Proof.
  intros Hinv Heq Hp. destruct (find_key_of t l p Hinv Heq Hp) as (Hf & Hne & _).
  exists (key_of (top_ t) p). by rewrite <-Hf.
Qed.

(** [++] on the iterator of a stored key does not throw: it moves to the
    iterator of another stored key or to [end()], and [--] from there leads
    back to where [++] started. *)
Theorem decr_undoes_incr t k :
  reachable t -> find t k <> end_ t ->
  exists next,
    operator_incr (find t k, t) = (Ok next, (next, t)) /\
    operator_decr (next, t) = (Ok (find t k), (find t k, t)) /\
    (next = end_ t \/ exists k', find t k' = next /\ next <> end_ t).
Proof.
  intros [Hinv _]%reachable_inv Hne.
  destruct (stored_has_next t k Hinv Hne) as (l1 & p & q & l2 & Heq & Hf).
  exists (mk_iter (reverse q)). rewrite Hf.
  unfold operator_incr, operator_decr, iter_step. cbn [fst snd node_].
  rewrite (incr_node_next t l1 p q l2 Hinv Heq).
  rewrite (decr_node_prev t l1 p q l2 Hinv Heq). split_and!; [done|done|].
  destruct (leaves_top _ Hinv) as (l & Heq' & _). fold (end_path (top_ t)) in Heq'.
  destruct (decide (q = end_path (top_ t))) as [->|Hq]; [by left|right].
  apply (leaf_is_stored t l q Hinv Heq').
  assert (q ∈ leaves (top_ t)) as Hin.
  { rewrite Heq. apply elem_of_app. right. right. by left. }
  rewrite Heq' in Hin. apply elem_of_app in Hin as [?|Hin]; [done|].
  by apply list_elem_of_singleton in Hin.
Qed.

(** [--] on [end()] or on the iterator of a stored key, [begin()] apart,
    does not throw: it moves to the iterator of a stored key, and [++] from
    there leads back to where [--] started. *)
Theorem incr_undoes_decr t it :
  reachable t ->
  it = end_ t \/ (exists k, find t k = it /\ it <> end_ t) ->
  it <> begin t ->
  exists prev k',
    operator_decr (it, t) = (Ok prev, (prev, t)) /\
    find t k' = prev /\ prev <> end_ t /\
    operator_incr (prev, t) = (Ok it, (it, t)).
Proof.
  intros [Hinv _]%reachable_inv Hit Hnb.
  destruct (leaves_top _ Hinv) as (l & Heq & _). fold (end_path (top_ t)) in Heq.
  assert (exists q, q ∈ leaves (top_ t) /\ it = mk_iter (reverse q)) as (q & Hq & ->).
  { destruct Hit as [->|(k & <- & Hne)].
    - exists (end_path (top_ t)). split; [|done].
      rewrite Heq. apply elem_of_app. right. by left.
    - destruct (stored_in_leaves t l k Hinv Heq Hne) as (p & Hp & _ & Hf).
      exists p. split; [|done]. rewrite Heq. apply elem_of_app. by left. }
  apply list_elem_of_split in Hq as (l1 & l2 & Hsplit).
  destruct (begin_spec t Hinv) as (q0 & Hq0 & Hb).
  destruct l1 as [|p0 l1 _] using rev_ind.
  { rewrite Hsplit in Hq0. simpl in Hq0. injection Hq0 as <-. by destruct Hnb. }
  rewrite <-app_assoc in Hsplit. simpl in Hsplit.
  assert (p0 ∈ l) as Hp0.
  { assert (NoDup (leaves (top_ t))) as Hnd
      by apply leaves_NoDup, top_inv_tree_ok, Hinv.
    destruct l2 as [|x l2 _] using rev_ind.
    - rewrite Heq in Hsplit.
      replace (l1 ++ [p0; q]) with ((l1 ++ [p0]) ++ [q]) in Hsplit
        by (by rewrite <-app_assoc).
      apply app_inj_tail in Hsplit as [-> _]. apply elem_of_app. right. by left.
    - rewrite Heq in Hsplit.
      replace (l1 ++ p0 :: q :: l2 ++ [x]) with ((l1 ++ p0 :: q :: l2) ++ [x])
        in Hsplit by (by rewrite <-app_assoc).
      apply app_inj_tail in Hsplit as [-> _]. apply elem_of_app. right. by left. }
  destruct (leaf_is_stored t l p0 Hinv Heq Hp0) as (k' & Hk' & Hne').
  exists (mk_iter (reverse p0)), k'.
  unfold operator_incr, operator_decr, iter_step. cbn [fst snd node_].
  rewrite (incr_node_next t l1 p0 q l2 Hinv Hsplit).
  by rewrite (decr_node_prev t l1 p0 q l2 Hinv Hsplit).
Qed.

(** [++] on [end()] and [--] on [begin()] throw, each its own
    [out_of_range]. *)
Theorem step_off_the_ends t :
  reachable t ->
  operator_incr (end_ t, t) = (Throw increment_at_end, (end_ t, t)) /\
  operator_decr (begin t, t) = (Throw decrement_at_begin, (begin t, t)).
Proof.
  intros [Hinv _]%reachable_inv.
  unfold operator_incr, operator_decr, iter_step. cbn [fst snd]. split.
  - destruct (top_inv_end _ Hinv) as (e & He & Hsym & _).
    unfold incr_node, deref, end_. cbn [node_ reverse]. simpl.
    rewrite last_lookup in He.
    replace (length (children_ (top_ t)) - 1)%nat
      with (pred (length (children_ (top_ t)))) by lia.
    rewrite He. unfold sym in Hsym. rewrite Hsym, Z.eqb_refl. done.
  - destruct (begin_spec t Hinv) as (q & Hq & ->). cbn [node_].
    destruct (decr_left_first (top_ t) (top_ t) [] q) as (Hleft & m & Hm & Hch);
      [by apply top_inv_tree_ok|done|done|].
    simpl in Hleft. unfold decr_node, deref.
    rewrite reverse_involutive, Hm, Hch. cbn [is_empty negb].
    by rewrite Hleft.
Qed.

(** ** [empty()], [begin()] and the number of entries *)

Lemma length_leaves n : length (leaves n) = count_leaves n.
Proof.
  induction n as [d l ch IH] using trie_node_ind.
  rewrite leaves_unfold, count_leaves_unfold. cbn [children_ is_leaf_].
  rewrite length_app, Nat.add_comm. f_equal; [by destruct l|].
  generalize 0%nat. induction IH as [|c ch Hc _ IHch]; intros j; [done|].
  cbn [flat_imap fmap list_fmap sum_list sum_list_with].
  by rewrite length_app, length_fmap, Hc, IHch.
Qed.

(** The leaf nodes before the end node are as many as there are entries. *)
Lemma length_stored t l :
  leaves (top_ t) = l ++ [end_path (top_ t)] ->
  Z.of_nat (length l) = count_entries t.
Proof.
  intros Heq. unfold count_entries.
  rewrite <-length_leaves, Heq, length_app. simpl. lia.
Qed.

Lemma empty_no_leaves t l :
  top_inv (top_ t) -> leaves (top_ t) = l ++ [end_path (top_ t)] ->
  empty t = true <-> l = [].
Proof.
  intros Hinv Heq. pose proof Hinv as (Hroot & _ & real & e & Hch & _ & Hl & He & Hreal).
  pose proof (f_equal length Heq) as Hlen.
  rewrite length_leaves, count_leaves_unfold, Hroot, Hch, fmap_app, length_app in Hlen.
  rewrite sum_list_with_app in Hlen. cbn [fmap list_fmap sum_list_with length] in Hlen.
  rewrite count_leaves_unfold, He, Hl in Hlen. simpl in Hlen.
  unfold empty. rewrite Hch, length_app. simpl. rewrite Nat.eqb_eq.
  destruct real as [|c real].
  - simpl in Hlen. split; [intros _|done]. destruct l; [done|simpl in Hlen; lia].
  - split; [simpl; lia|]. intros ->. apply Forall_cons in Hreal as [Hc _].
    assert (leaves c <> []) as Hne.
    { apply leaves_nonempty. eapply every_node_mono; [|exact Hc].
      by intros m (? & ? & _). }
    rewrite <-length_zero_iff_nil, length_leaves in Hne.
    cbn [fmap list_fmap sum_list_with] in Hlen. simpl in Hlen. unfold id in Hlen. lia.
Qed.

Lemma empty_count t :
  top_inv (top_ t) -> empty t = true <-> count_entries t = 0.
Proof.
  intros Hinv.
  destruct (leaves_top _ Hinv) as (l & Heq & _). fold (end_path (top_ t)) in Heq.
  rewrite (empty_no_leaves t l Hinv Heq), <-(length_stored t l Heq).
  split; [by intros ->|]. intros Hz. apply length_zero_iff_nil. lia.
Qed.

(** [empty()] says that no key is found, that [begin()] is [end()], and
    that no node but the end node carries the leaf flag. *)
Theorem empty_spec t :
  reachable t ->
  (empty t = true <-> forall k, find t k = end_ t) /\
  (empty t = true <-> begin t = end_ t) /\
  (empty t = true <-> count_entries t = 0).
Proof.
  intros [Hinv _]%reachable_inv.
  destruct (leaves_top _ Hinv) as (l & Heq & _). fold (end_path (top_ t)) in Heq.
  pose proof (empty_no_leaves t l Hinv Heq) as Hempty.
  pose proof (length_stored t l Heq) as Hlen.
  split_and!.
  - rewrite Hempty. split.
    + intros -> k. destruct (iter_eq_or_not (find t k) (end_ t)) as [|Hne]; [done|].
      destruct (stored_in_leaves t [] k Hinv Heq Hne) as (p & Hp & _).
      by apply elem_of_nil in Hp.
    + intros Hnone. destruct l as [|p l]; [done|].
      destruct (find_key_of t (p :: l) p Hinv Heq) as (_ & Hne & _); [by left|].
      by destruct Hne.
  - split; [intros He; unfold begin; by rewrite He|].
    intros Hb. rewrite Hempty. destruct l as [|p l]; [done|].
    destruct (begin_spec t Hinv) as (q & Hq & Hbq).
    rewrite Heq in Hq. simpl in Hq. injection Hq as <-.
    destruct (leaf_is_stored t (p :: l) p Hinv Heq) as (_ & _ & Hne); [by left|].
    rewrite <-Hbq in Hne. by destruct Hne.
  - rewrite Hempty, <-Hlen. split; [by intros ->|].
    intros Hz. apply length_zero_iff_nil. lia.
Qed.

(** A full traversal visits as many keys as there are leaf nodes other than
    the end node, which is never more than [size()]. *)
Theorem traversal_length t :
  reachable t ->
  exists ks,
    (forall fuel, (length ks < fuel)%nat -> forward_keys fuel t = Ok ks) /\
    Z.of_nat (length ks) = count_entries t /\
    Z.of_nat (length ks) <= size t.
Proof.
  intros Ht. pose proof (reachable_inv t Ht) as [Hinv Hsz].
  destruct (leaves_top _ Hinv) as (l & Heq & _). fold (end_path (top_ t)) in Heq.
  pose proof (length_stored t l Heq) as Hlen.
  exists (key_of (top_ t) <$> l). rewrite length_fmap. split_and!.
  - intros fuel Hfuel. unfold forward_keys.
    destruct (begin_spec t Hinv) as (q & Hq & ->).
    rewrite (head_leaves_top _ _ Heq) in Hq. injection Hq as <-.
    by apply (forward_loop_spec t l []).
  - done.
  - unfold size. lia.
Qed.

Lemma reachable_no_advance_reachable t : reachable_no_advance t -> reachable t.
Proof.
  induction 1 as [|t _ IH|t _ IH|t k v r t' _ IH Hv Hlt Hins
                  |t k r t' _ IH Hne Her|t k v r t' _ IH Hne Hva].
  - apply reach_new.
  - by apply reach_copy.
  - by apply reach_clear.
  - by eapply reach_insert.
  - by eapply reach_erase.
  - by eapply reach_value_assign.
Qed.

Lemma reachable_no_advance_insert_snd t k v :
  reachable_no_advance t -> valid_key k -> size_ t < SIZE_MAX ->
  reachable_no_advance (insert (k, v) t).2.
Proof.
  intros Ht Hv Hlt. apply (plain_insert t k v (insert (k, v) t).1); [done..|].
  by destruct (insert (k, v) t).
Qed.

(** As long as [advance] is not called, [size()] is the number of stored
    keys, and [empty()] says [size() == 0]. *)
Theorem size_counts_entries t :
  reachable_no_advance t ->
  size t = count_entries t /\ (empty t = true <-> size t = 0).
Proof.
  intros Ht.
  enough (size t = count_entries t) as Heq.
  { split; [done|]. rewrite Heq.
    by apply empty_count, reachable_inv, reachable_no_advance_reachable. }
  induction Ht as [|t Ht IH|t Ht IH|t k v r t' Ht IH Hv Hlt Hins
                  |t k r t' Ht IH Hne Her|t k v r t' Ht IH Hne Hva].
  - done.
  - apply reachable_no_advance_reachable in Ht.
    by apply (size_counts_entries_kept t Ht IH).
  - apply reachable_no_advance_reachable in Ht.
    by apply (size_counts_entries_kept t Ht IH).
  - apply reachable_no_advance_reachable in Ht.
    destruct (size_counts_entries_kept t Ht IH) as (Hi & _).
    specialize (Hi k v Hv Hlt). by rewrite Hins in Hi.
  - apply reachable_no_advance_reachable in Ht.
    destruct (size_counts_entries_kept t Ht IH) as (_ & He & _).
    specialize (He k Hne). by rewrite Her in He.
  - apply reachable_no_advance_reachable, reachable_inv in Ht as [Hinv _].
    destruct (value_assign_inv t k v r t' Hinv Hne Hva) as (_ & Hc & Hs).
    unfold size, count_entries in *. lia.
Qed.

(** ** [clear()], the copy and the assignment *)

Lemma insert_create_data n node c rest v :
  data_ (insert_create n node (c :: rest) v).1 = data_ n.
Proof.
  destruct (insert_create_cons n node c rest v)
    as (l1 & l2 & chain & final & _ & -> & _). done.
Qed.

Lemma rewrite_at_data_root f n p :
  data_ (f n) = data_ n -> data_ (rewrite_at f n p) = data_ n.
Proof.
  intros Hf. destruct p as [|i p]; [done|]. by apply rewrite_at_data.
Qed.

(** The root keeps the fields the constructor gave it. *)
Lemma root_data t : reachable t -> data_ (top_ t) = data_ new_trie_node.
Proof.
  induction 1 as [|t _ IH|t _ IH|t k v r t' _ IH Hv Hlt Hins
                  |t k r t' Ht IH Hne Her|t k sub r it' t' Ht IH Hne Hadv
                  |t k v r t' Ht IH Hne Hva].
  - done.
  - unfold trie_copy. cbn [top_]. by rewrite copy_node_id.
  - done.
  - destruct k as [|c k]; [by injection Hins as _ <-|].
    destruct (insert_shape t (c :: k) v) as (k1 & rest & p & m & Hk & Hw & Hd & _ & Heq);
      [done|].
    rewrite Heq in Hins.
    destruct (is_empty rest && is_leaf_ m); [by injection Hins as _ <-|].
    injection Hins as _ <-. cbn [top_]. rewrite <-IH.
    destruct p as [|i p]; [|by apply rewrite_at_data].
    simpl in Hd. injection Hd as <-. cbn [rewrite_at reverse].
    destruct k1 as [|c1 k1].
    + simpl in Hk. subst rest. apply insert_create_data.
    + simpl in Hw.
      destruct (children_ (top_ t) !! find_by_key (top_ t) c1) as [ch|]; [|done].
      simpl in Hw. by destruct (walk ch k1).
  - revert Her. unfold erase.
    destruct (deref (top_ t) (node_ (find t k))) as [n|]; [|by intros [= _ <-]].
    destruct (negb (is_empty (children_ n))).
    + intros [= _ <-]. cbn [top_]. rewrite <-IH.
      by apply rewrite_at_data_root.
    + destruct (erase_climb _ _) as [[|i parent]| | |]; try by intros [= _ <-].
      intros [= _ <-]. cbn [top_]. rewrite <-IH. by apply rewrite_at_data_root.
  - revert Hadv. unfold advance.
    destruct (is_empty sub); [by intros [= _ _ <-]|].
    destruct (deref _ _); [|by intros [= _ _ <-]].
    destruct (advance_loop _ _ _); try by intros [= _ _ <-].
    intros [= _ _ <-]. cbn [top_]. rewrite <-IH. unfold modify.
    by rewrite !rewrite_at_data_root.
  - apply reachable_inv in Ht as [Hinv _].
    destruct (find_found t k Hinv Hne) as (i & p & m & _ & Hd & _ & Hf & _).
    revert Hva. unfold value_assign, deref, modify. rewrite Hf. cbn [node_].
    rewrite reverse_involutive, Hd. intros [= _ <-]. cbn [top_]. rewrite <-IH.
    by apply (rewrite_at_data (set_value v) (top_ t) (i :: p)).
Qed.

(** [clear()] puts the container back into the state the constructor
    builds: the end node alone under the root and [size()] zero. *)
Theorem clear_is_new t : reachable t -> clear t = trie_new.
Proof.
  intros Ht. pose proof (root_data t Ht) as Hdata.
  apply reachable_inv in Ht as [(Hroot & _) _].
  unfold clear, trie_new. f_equal.
  unfold create_end_prefix, set_children, set_is_leaf, new_trie_node in *.
  cbn [data_ is_leaf_ children_] in *. by rewrite Hdata, Hroot.
Qed.

(** The copy constructor builds a tree equal to the one copied, node for
    node, with the same [size()], and so does the assignment. *)
Theorem copy_is_equal this rhs :
  trie_copy rhs = rhs /\
  operator_assign false this rhs = rhs /\
  operator_assign true rhs rhs = rhs.
Proof.
  assert (trie_copy rhs = rhs) as Hcopy.
  { unfold trie_copy. rewrite copy_node_id. by destruct rhs. }
  by split_and!.
Qed.

(** ** The shape of the tree *)

(** In every reachable state the root is no leaf and has the end node as
    its last child; the end node has no children; every other node below the
    root carries a symbol smaller than the largest one; and a node without
    children is a leaf, so no branch ends without a key. *)
Theorem reachable_shape t p m :
  reachable t -> descend (top_ t) p = Some m ->
  (p = [] -> is_leaf_ m = false /\ children_ m <> []) /\
  (p = end_path (top_ t) ->
   sym m = KeyMax /\ is_leaf_ m = true /\ children_ m = []) /\
  (p <> [] -> p <> end_path (top_ t) -> sym m < KeyMax) /\
  (children_ m = [] -> is_leaf_ m = true).
Proof.
  intros [Hinv _]%reachable_inv Hd.
  destruct (top_inv_end _ Hinv) as (e & He & Hsym & Hleaf & Hch).
  rewrite last_lookup in He.
  replace (pred (length (children_ (top_ t))))
    with (length (children_ (top_ t)) - 1)%nat in He by lia.
  assert (children_ (top_ t) <> []) as Hne by (by intros Hnil; rewrite Hnil in He).
  destruct p as [|i p].
  { simpl in Hd. injection Hd as <-. destruct Hinv as (Hroot & _).
    split_and!; [done| |done|done].
    unfold end_path. done. }
  destruct (top_inv_descend _ _ _ _ Hinv Hd) as [[-> ->]|[Hi Hreal]].
  - simpl in Hd. rewrite He in Hd. injection Hd as <-.
    split_and!; [done|done|by intros _ []|done].
  - apply every_node_inv in Hreal as [(_ & Hlc & Hrs) _].
    split_and!; [done| |done|done].
    unfold end_path. intros [= -> _]. lia.
Qed.

(** ** The end node as an entry *)

(** The key made of the largest symbol alone belongs to the end node:
    [find] answers [end()] for it, [key()] of [end()] spells it, and
    [insert] refuses it as a duplicate, in the empty container too. *)
Theorem largest_symbol_key_is_taken t v :
  reachable t ->
  find t [KeyMax] = end_ t /\
  key t (end_ t) = Ok [KeyMax] /\
  insert ([KeyMax], v) t = (Throw duplicate_key, t).
Proof.
  intros [Hinv _]%reachable_inv.
  split_and!; [by apply find_end_key|by apply key_end|].
  destruct (top_inv_end _ Hinv) as (e & He & Hsym & Hleaf & Hch).
  pose proof (walk_end _ Hinv) as Hw. simpl in Hw.
  unfold insert. cbn [fst snd].
  destruct (children_ (top_ t) !! find_by_key (top_ t) KeyMax) as [c|] eqn:Hc;
    [|done].
  simpl in Hw. injection Hw as Hw. cbn [insert_match].
  unfold deref. cbn [reverse]. simpl. rewrite Hc. cbn [is_empty].
  rewrite last_lookup in He.
  replace (pred (length (children_ (top_ t))))
    with (length (children_ (top_ t)) - 1)%nat in He by lia.
  rewrite Hw, He in Hc. injection Hc as <-. by rewrite Hleaf.
Qed.

(** ** [erase] handed [end()] *)

(** [erase] does not look whether it is handed [end()].  On an empty
    container the climb goes on to the root and reads through its null
    parent; on any other it detaches the end node, after which the last
    child of the root is an ordinary node. *)
Theorem erase_of_end t :
  reachable t ->
  (empty t = true -> erase (end_ t) t = (Undefined, t)) /\
  (empty t = false ->
   exists real e,
     children_ (top_ t) = real ++ [e] /\ sym e = KeyMax /\
     Forall (fun m => sym m < KeyMax) real /\
     erase (end_ t) t
     = (Ok (), mk_trie (set_children real (top_ t)) (size_decr (size_ t)))).
Proof.
  intros [Hinv _]%reachable_inv.
  pose proof Hinv as (Hroot & _ & real & e & Hch & Hsym & Hl & He & Hreal).
  assert (erase (end_ t) t =
          if (length real =? 0)%nat then (Undefined, t)
          else (Ok (), mk_trie (set_children real (top_ t)) (size_decr (size_ t))))
    as Her.
  { unfold erase, end_, deref. cbn [node_ reverse]. simpl.
    rewrite Hch, length_app. simpl.
    replace (length real + 1 - 1)%nat with (length real) by lia.
    rewrite list_lookup_middle by done. rewrite He. cbn [is_empty negb].
    rewrite Hroot. cbn [negb andb].
    destruct (length real =? 0)%nat eqn:Hlen.
    - apply Nat.eqb_eq in Hlen. by rewrite Hlen.
    - apply Nat.eqb_neq in Hlen.
      replace (length real + 1 <=? 1)%nat with false
        by (symmetry; apply Nat.leb_gt; lia).
      unfold modify, remove_child. cbn [reverse rewrite_at]. simpl. rewrite Hch.
      by rewrite (delete_middle real [] e), app_nil_r. }
  unfold empty. rewrite Hch, length_app. simpl. split.
  - intros Hlen%Nat.eqb_eq. rewrite Her.
    by replace (length real) with 0%nat by lia.
  - intros Hlen%Nat.eqb_neq. exists real, e. split_and!; [done|done| |].
    + eapply Forall_impl; [exact Hreal|]. intros c Hc. simpl.
      by apply every_node_inv in Hc as [(_ & _ & ?) _].
    + rewrite Her. destruct real; [simpl in Hlen; lia|done].
Qed.

(** ** [advance] *)

(** A stored key that extends [k ++ sub] leads through a node at [sub]
    below the node of [k]. *)
Lemma stored_extension_walk t k p m sub r :
  top_inv (top_ t) -> walk (top_ t) k = Some p -> descend (top_ t) p = Some m ->
  find t (k ++ sub ++ r) <> end_ t -> is_Some (walk m sub).
Proof.
  intros Hinv Hw Hd Hne. apply find_stored_iff in Hne as [[v Hv] _]; [|done].
  rewrite (get_app _ k p m _ Hw Hd), get_walk, walk_app in Hv.
  destruct (walk m sub); [done|]. by simpl in Hv.
Qed.

(** Below every ordinary node there is a stored key. *)
Lemma walk_has_stored_extension t k i p m :
  top_inv (top_ t) -> walk (top_ t) k = Some (i :: p) ->
  descend (top_ t) (i :: p) = Some m ->
  (i < length (children_ (top_ t)) - 1)%nat -> every_node real_node m ->
  exists r, find t (k ++ r) <> end_ t.
Proof.
  intros Hinv Hw Hd Hi Hreal.
  assert (tree_ok m) as Hok.
  { eapply every_node_mono; [|exact Hreal]. by intros ? (? & ? & _). }
  destruct (leaves m) as [|q ql] eqn:Hlv; [by apply leaves_nonempty in Hlv|].
  destruct (leaves_descend m q) as (lf & Hlf & Hleaf); [rewrite Hlv; by left|].
  pose proof (walk_key_of m q lf Hok Hlf) as Hwq.
  exists (key_of m q).
  assert (walk (top_ t) (k ++ key_of m q) = Some ((i :: p) ++ q)) as Hwall.
  { rewrite walk_app, Hw. simpl in *. rewrite Hd. simpl. by rewrite Hwq. }
  assert (descend (top_ t) ((i :: p) ++ q) = Some lf) as Hdall.
  { rewrite descend_app, Hd. done. }
  apply (find_stored_iff t _ Hinv). split.
  - rewrite get_walk, Hwall. simpl in *. rewrite Hdall. simpl. by rewrite Hleaf.
  - intros Heq. rewrite Heq, (walk_end _ Hinv) in Hwall.
    injection Hwall as Hx _. lia.
Qed.

Lemma walk_set_is_leaf b m sub : walk (set_is_leaf b m) sub = walk m sub.
Proof. by destruct sub. Qed.

Lemma get_set_is_leaf_false m r :
  get (set_is_leaf false m) r = match r with [] => None | _ :: _ => get m r end.
Proof. by destruct r. Qed.

Lemma get_set_is_leaf_true m r :
  get (set_is_leaf true m) r
  = match r with [] => Some (data_ m).2 | _ :: _ => get m r end.
Proof. by destruct r. Qed.

(** [advance] from the iterator of a stored key [k].  An empty subkey and a
    subkey that leads to no node are refused; a node exists at [k ++ sub]
    exactly when some stored key extends [k ++ sub].  Otherwise the call
    returns with the iterator at the node of [k ++ sub]: [k] is no longer
    stored, [k ++ sub] is, under the payload that node already had, which is
    the payload of [k ++ sub] if that key was stored before; [size()] and all
    other keys are as they were. *)
Theorem advance_spec t k sub_key :
  reachable t -> find t k <> end_ t ->
  (sub_key = [] ->
   advance sub_key (find t k, t) = (Throw empty_subkey, (find t k, t))) /\
  (sub_key <> [] -> (forall r, find t (k ++ sub_key ++ r) = end_ t) ->
   advance sub_key (find t k, t) = (Throw no_such_prefix, (find t k, t))) /\
  (sub_key <> [] -> forall r, find t (k ++ sub_key ++ r) <> end_ t ->
   exists it' t',
     advance sub_key (find t k, t) = (Ok (), (it', t')) /\
     find t' (k ++ sub_key) = it' /\ it' <> end_ t' /\
     key t' it' = Ok (k ++ sub_key) /\
     find t' k = end_ t' /\
     size t' = size t /\
     (find t (k ++ sub_key) <> end_ t ->
      value t' it' = value t (find t (k ++ sub_key))) /\
     forall k', k' <> k -> k' <> k ++ sub_key ->
       (find t' k' <> end_ t' <-> find t k' <> end_ t) /\
       (find t k' <> end_ t -> value t' (find t' k') = value t (find t k'))).
Proof.
  intros [Hinv _]%reachable_inv Hne.
  destruct (find_found t k Hinv Hne) as (i & p & m & Hw & Hd & Hl & Hf & Hi & Hr).
  split_and!.
  - by intros ->.
  - intros Hsub Hnone. unfold advance.
    destruct sub_key as [|c sub]; [done|]. cbn [is_empty fst snd].
    rewrite Hf. cbn [node_]. rewrite deref_path, Hd, advance_loop_spec.
    destruct (walk m (c :: sub)) as [q|] eqn:Hq; [|done].
    destruct (walk_descend _ _ _ Hq) as [m2 Hm2].
    destruct (walk_has_stored_extension t (k ++ c :: sub) i (p ++ q) m2)
      as [r Hr']; [done| | |done| |].
    + rewrite walk_app, Hw. simpl in *. rewrite Hd. simpl. by rewrite Hq.
    + change (i :: p ++ q) with ((i :: p) ++ q). by rewrite descend_app, Hd.
    + by eapply every_node_descend.
    + rewrite <-app_assoc in Hr'. by destruct (Hr' (Hnone r)).
  - intros Hsub r Hext.
    destruct (stored_extension_walk t k _ m sub_key r Hinv Hw Hd Hext) as [q Hq].
    destruct (advance sub_key (find t k, t)) as [res [it' t']] eqn:Hadv.
    destruct (advance_inv t k sub_key res it' t' Hinv Hne Hadv) as (Hinv' & _ & Hsz).
    revert Hadv. unfold advance.
    destruct sub_key as [|c sub]; [done|]. cbn [is_empty fst snd].
    rewrite Hf. cbn [node_]. rewrite deref_path, Hd, advance_loop_spec, Hq.
    unfold modify. rewrite reverse_app, !reverse_involutive.
    intros [= <- <- <-]. cbn [top_ size_] in *.
    set (top1 := rewrite_at (set_is_leaf false) (top_ t) (i :: p)) in *.
    set (top2 := rewrite_at (set_is_leaf true) top1 ((i :: p) ++ q)) in *.
    destruct (walk_descend _ _ _ Hq) as [m2 Hm2].
    assert (q <> []) as Hqne by (by apply walk_length in Hq; destruct q).
    assert (forall k', get top1 k' = if decide (k' = k) then None else get (top_ t) k')
      as Hget1.
    { intros k'. unfold top1.
      rewrite (get_rewrite_at_update (set_is_leaf false) (top_ t) k (i :: p) m [] None);
        [by rewrite app_nil_r|done|done|done|]. intros r'.
      rewrite get_set_is_leaf_false. destruct (decide (r' = [])) as [->|Hr']; [done|].
      by destruct r'. }
    assert (walk top1 (k ++ c :: sub) = Some ((i :: p) ++ q)) as Hw1.
    { unfold top1. rewrite (walk_rewrite_at_prefix _ _ k (i :: p) m); [|done..].
      by rewrite walk_set_is_leaf, Hq. }
    assert (descend top1 ((i :: p) ++ q) = Some m2) as Hd1.
    { unfold top1. rewrite (descend_rewrite_at_app _ _ _ _ m Hd).
      destruct q as [|j q]; [done|]. exact Hm2. }
    assert (forall k', get top2 k' =
              if decide (k' = k ++ c :: sub) then Some (data_ m2).2 else get top1 k')
      as Hget2.
    { intros k'. unfold top2.
      rewrite (get_rewrite_at_update (set_is_leaf true) top1 (k ++ c :: sub)
                 ((i :: p) ++ q) m2 [] (Some (data_ m2).2));
        [by rewrite app_nil_r|done|done|done|]. intros r'.
      rewrite get_set_is_leaf_true. destruct (decide (r' = [])) as [->|Hr']; [done|].
      by destruct r'. }
    set (t' := mk_trie top2 (size_ t)) in *.
    assert (k <> []) as Hk by (intros ->; done).
    assert (k ++ c :: sub <> k) as Hdiff.
    { intros Heq. apply (f_equal length) in Heq. rewrite length_app in Heq.
      simpl in Heq. lia. }
    assert (k ++ c :: sub <> [KeyMax]) as Hnend.
    { intros Heq. apply (f_equal length) in Heq. rewrite length_app in Heq.
      destruct k; [done|]. simpl in Heq. lia. }
    pose proof (Hget2 (k ++ c :: sub)) as Hg2. rewrite decide_True in Hg2 by done.
    destruct (find_get_Some t' _ _ Hinv' Hg2 Hnend) as [Hne' Hval'].
    assert (find t' (k ++ c :: sub) = mk_iter (reverse q ++ reverse (i :: p)))
      as Hf'.
    { rewrite find_spec. cbn [t' top_].
      assert (walk top2 (k ++ c :: sub) = Some ((i :: p) ++ q)) as Hw2.
      { unfold top2. rewrite <-(app_nil_r (k ++ c :: sub)).
        rewrite (walk_rewrite_at_prefix _ _ (k ++ c :: sub) ((i :: p) ++ q) m2);
          [|done..]. simpl. by rewrite app_nil_r. }
      revert Hw2. destruct (k ++ c :: sub) as [|z ks] eqn:Hks; [by destruct k|].
      intros ->. unfold top2. rewrite (descend_rewrite_at _ _ _ _ Hd1).
      cbn [set_is_leaf is_leaf_]. by rewrite reverse_app. }
    exists (mk_iter (reverse q ++ reverse (i :: p))), t'.
    rewrite <-Hf' in *.
    split_and!; [done|done|done|by apply found_key| |done| |].
    + apply find_get_None. cbn [t' top_]. rewrite Hget2, decide_False by done.
      rewrite Hget1. by rewrite decide_True.
    + intros Hstored. rewrite Hval'.
      destruct (found_value t _ Hinv Hstored) as (w & Hgw & ->).
      rewrite (get_app _ k (i :: p) m _ Hw Hd), get_walk, Hq in Hgw.
      simpl in Hgw. rewrite Hm2 in Hgw. simpl in Hgw.
      destruct (is_leaf_ m2); by simplify_eq.
    + intros k' Hk1 Hk2. apply find_stored_ext; [done|done|]. cbn [t' top_].
      rewrite Hget2, decide_False by done. rewrite Hget1. by rewrite decide_False.
Qed.

(** [advance] on [end()] always fails, since the end node has no children:
    with [invalid_argument] for the empty subkey and with [runtime_error]
    for any other; the container and the iterator stay as they are. *)
Theorem advance_at_end t sub_key :
  reachable t ->
  advance sub_key (end_ t, t)
  = (Throw (if is_empty sub_key then empty_subkey else no_such_prefix),
     (end_ t, t)).
Proof.
  intros [Hinv _]%reachable_inv.
  destruct (top_inv_end _ Hinv) as (e & He & _ & _ & Hch).
  unfold advance. destruct sub_key as [|c sub]; [done|]. cbn [is_empty fst snd].
  unfold deref, end_. cbn [node_]. change (reverse [?i]) with [i]. cbn [descend].
  rewrite last_lookup in He.
  replace (pred (length (children_ (top_ t))))
    with (length (children_ (top_ t)) - 1)%nat in He by lia.
  rewrite He. cbn [advance_loop]. unfold find_by_key. rewrite Hch.
  cbn [length find_by_key_loop]. by rewrite lookup_nil.
Qed.

(** ** Keys that start with the largest symbol *)

(** [insert] does not look at the symbols of a key.  A two-symbol key that
    starts with the largest symbol is hung below the end node: the call
    returns, [find] finds the key and [size()] is counted up, but the root
    has as many children as before, so [empty()] answers as before; on a
    container that was empty [begin()] is still [end()]. *)
Theorem insert_below_end_node t c v :
  reachable t ->
  exists it t',
    insert ([KeyMax; c], v) t = (Ok it, t') /\
    find t' [KeyMax; c] = it /\ it <> end_ t' /\ value t' it = Ok v /\
    size t' = size_incr (size t) /\
    empty t' = empty t /\
    (empty t = true -> begin t' = end_ t').
Proof.
  intros [Hinv _]%reachable_inv.
  pose proof Hinv as (Hroot & Hsorted & real & e & Hch & Hsym & Hl & He & Hreal).
  assert (children_ (top_ t) !! length real = Some e) as Hlook
    by (by rewrite Hch, list_lookup_middle).
  pose proof (find_by_key_found _ _ _ Hsorted Hlook) as Hfound.
  rewrite Hsym in Hfound.
  set (leafc := mk_node (c, v) true []).
  set (e' := set_children [leafc] e).
  set (top' := set_children (real ++ [e']) (top_ t)).
  assert (insert ([KeyMax; c], v) t
          = (Ok (mk_iter [0%nat; length real]), mk_trie top' (size_incr (size_ t))))
    as Hins.
  { unfold insert. cbn [fst snd]. rewrite Hfound, Hlook. cbn [insert_match].
    unfold find_by_key at 1. rewrite He. cbn [length find_by_key_loop].
    rewrite lookup_nil. unfold deref, modify.
    change (reverse [length real]) with [length real].
    cbn [descend]. rewrite Hlook. cbn [is_empty insert_create].
    unfold push_child, push_child_pos. rewrite He. simpl.
    rewrite Hlook, Hch. unfold top', e', leafc, set_children, set_value, set_is_leaf.
    simpl. rewrite (insert_app_r_alt real [e]) by lia.
    by rewrite Nat.sub_diag. }
  assert (children_ top' !! length real = Some e') as Hlook'
    by (by cbn [top' set_children children_]; rewrite list_lookup_middle).
  assert (find_by_key top' KeyMax = length real) as Hfound'.
  { rewrite <-Hsym. change (sym e) with (sym e').
    apply find_by_key_found; [|done]. unfold sorted_children, syms in *.
    cbn [top' set_children children_]. by rewrite Hch, !fmap_app in *. }
  exists (mk_iter [0%nat; length real]), (mk_trie top' (size_incr (size_ t))).
  split_and!.
  - done.
  - unfold find. cbn [top_ find_loop]. rewrite Hfound', Hlook'.
    cbn [e' set_children is_leaf_ is_empty]. rewrite Hl. cbn [andb children_].
    unfold find_by_key. cbn [children_ length find_by_key_loop].
    simpl. unfold leafc. cbn [data_ fst]. by rewrite Z.eqb_refl.
  - unfold end_. by intros [=].
  - unfold value, deref. cbn [node_ top_].
    change (reverse [0%nat; length real]) with [length real; 0%nat].
    cbn [descend]. by rewrite Hlook'.
  - done.
  - unfold empty. cbn [top_ top' set_children children_].
    by rewrite Hch, !length_app.
  - intros Hempty. unfold begin.
    replace (empty (mk_trie top' (size_incr (size_ t)))) with true; [done|].
    rewrite <-Hempty. unfold empty. cbn [top_ top' set_children children_].
    by rewrite Hch, !length_app.
Qed.

End Trie.

(** * The theorems at concrete containers *)

(** The containers below hold [nat] payloads under [wchar_t] keys, whose
    largest symbol is [2^31 - 1]; letters are numbered from [a = 1]. *)
Abbreviation wchar_max := 2147483647.

(** The keys car, cat and dog. *)
Abbreviation car_cat_dog :=
  (insert_all 0%nat wchar_max
     [([3; 1; 20], 1%nat); ([3; 1; 18], 2%nat); ([4; 15; 7], 3%nat)]).

(** The key a and its extension ab. *)
Abbreviation a_ab :=
  (insert_all 0%nat wchar_max [([1], 1%nat); ([1; 2], 2%nat)]).

Ltac valid_key_tac := unfold valid_key; repeat constructor.

Ltac reachable_tac :=
  unfold insert_all; cbn [foldl];
  repeat (apply reachable_insert_snd;
          [|valid_key_tac|vm_compute; reflexivity]);
  apply reach_new.

(** Both containers are reachable: each is a run of [insert] calls. *)
Lemma car_cat_dog_reachable : reachable 0%nat wchar_max car_cat_dog.
Proof. reachable_tac. Qed.

Lemma a_ab_reachable : reachable 0%nat wchar_max a_ab.
Proof. reachable_tac. Qed.

(** Inserting cow next to car, cat and dog. *)
Lemma insert_then_find_witness :
  exists it t',
    insert 0%nat ([3; 15; 23], 4%nat) car_cat_dog = (Ok it, t') /\
    find t' [3; 15; 23] = it /\ value t' it = Ok 4%nat /\
    size t' = size car_cat_dog + 1.
Proof.
  apply (insert_then_find 0%nat wchar_max car_cat_dog [3; 15; 23] 4%nat).
  - exact car_cat_dog_reachable.
  - discriminate.
  - valid_key_tac.
  - vm_compute; reflexivity.
  - vm_compute; reflexivity.
Defined.

(** The traversal of a and ab, in both directions. *)
Lemma traversal_order_witness :
  exists ks,
    (forall fuel, (length ks < fuel)%nat ->
       forward_keys wchar_max fuel a_ab = Ok ks /\
       backward_keys fuel a_ab = Ok (reverse ks)) /\
    NoDup ks /\
    (forall k, k ∈ ks <-> find a_ab k <> end_ a_ab) /\
    StronglySorted (fun k1 k2 => key_before k1 k2 = true) ks.
Proof.
  apply (traversal_order 0%nat wchar_max a_ab).
  exact a_ab_reachable.
Defined.

(** With a and ab stored the forward traversal yields ab before a, which
    is not ascending lexicographic order: a is a proper prefix of ab. *)
Lemma traversal_not_lexicographic :
  reachable 0%nat wchar_max a_ab /\
  forward_keys wchar_max 3 a_ab = Ok [[1; 2]; [1]] /\
  lex_lt [1; 2] [1] = false /\
  ~ visits_in_lex_order wchar_max a_ab.
Proof.
  split_and!.
  - exact a_ab_reachable.
  - vm_compute; reflexivity.
  - reflexivity.
  - intros Hlex.
    assert (forward_keys wchar_max 3 a_ab = Ok [[1; 2]; [1]]) as Hfw
      by (vm_compute; reflexivity).
    apply Hlex, StronglySorted_inv in Hfw as [_ Hall].
    apply Forall_inv in Hall. discriminate Hall.
Qed.

(** Erasing cat, which shares the prefix ca with car. *)
Lemma erase_then_find_witness :
  exists t',
    erase (find car_cat_dog [3; 1; 20]) car_cat_dog = (Ok (), t') /\
    find t' [3; 1; 20] = end_ t' /\
    size t' = size car_cat_dog - 1 /\
    forall k', k' <> [3; 1; 20] ->
      find car_cat_dog k' <> end_ car_cat_dog ->
      find t' k' <> end_ t' /\
      value t' (find t' k') = value car_cat_dog (find car_cat_dog k').
Proof.
  apply (erase_then_find 0%nat wchar_max car_cat_dog [3; 1; 20]).
  - exact car_cat_dog_reachable.
  - vm_compute; discriminate.
Defined.

(** The prefix ca is walked in full but ends at a node that is no leaf. *)
Lemma find_follows_key_witness :
  find car_cat_dog [3; 1] = end_ car_cat_dog /\
  follow (top_ car_cat_dog) [3; 1] = Some [0; 0]%nat.
Proof.
  split; [|vm_compute; reflexivity].
  rewrite (find_follows_key 0%nat wchar_max car_cat_dog [3; 1]).
  - vm_compute; reflexivity.
  - exact car_cat_dog_reachable.
Defined.

(** Inserting cat a second time. *)
Lemma insert_outcome_witness :
  (insert 0%nat ([3; 1; 20], 9%nat) car_cat_dog).1 = Throw duplicate_key.
Proof.
  apply (insert_outcome 0%nat wchar_max car_cat_dog [3; 1; 20] 9%nat).
  - exact car_cat_dog_reachable.
  - split; [discriminate|].
    exists [0; 0; 1]%nat, (mk_node (20, 1%nat) true []).
    vm_compute. by split_and!.
Defined.

(** Advancing the iterator at car by a symbol that has no child. *)
Lemma failing_call_is_atomic_witness :
  (run 0%nat wchar_max (call_advance [9])
       (find car_cat_dog [3; 1; 18], car_cat_dog)).2 =
  (find car_cat_dog [3; 1; 18], car_cat_dog).
Proof.
  apply (failing_call_is_atomic 0%nat wchar_max (call_advance [9])
           (find car_cat_dog [3; 1; 18], car_cat_dog) no_such_prefix).
  vm_compute; reflexivity.
Defined.

(** The children lists of the container holding car, cat and dog. *)
Lemma reachable_sorted_witness :
  every_node sorted_children (top_ car_cat_dog) /\
  exists e, last (children_ (top_ car_cat_dog)) = Some e /\
    sym e = wchar_max /\ is_leaf_ e = true /\ children_ e = [].
Proof.
  apply (reachable_sorted 0%nat wchar_max car_cat_dog).
  exact car_cat_dog_reachable.
Defined.

(** The longest key among a and ab. *)
Lemma find_longest_prefix_spec_witness :
  exists its r,
    (forall fuel, (length its < fuel)%nat ->
       forward_iters wchar_max fuel a_ab = Ok its /\
       find_longest_prefix wchar_max fuel a_ab = Ok r) /\
    ((forall k, find a_ab k = end_ a_ab) -> r = end_ a_ab) /\
    (forall k0, find a_ab k0 <> end_ a_ab ->
       exists i k,
         its !! i = Some r /\ key a_ab r = Ok k /\ find a_ab k = r /\
         r <> end_ a_ab /\
         (forall k', find a_ab k' <> end_ a_ab ->
            (length k' <= length k)%nat) /\
         (forall j it' k', (j < i)%nat -> its !! j = Some it' ->
            key a_ab it' = Ok k' -> (length k' < length k)%nat) /\
         (forall k', find a_ab k' <> end_ a_ab -> length k' = length k ->
            k' <> k -> lex_lt k k' = true)).
Proof.
  apply (find_longest_prefix_spec 0%nat wchar_max a_ab).
  exact a_ab_reachable.
Defined.

(** Erasing dog: the climb from g stops at d, a child of the root. *)
Lemma erase_climb_stops_below_root_witness :
  (1 < length (children_ (top_ car_cat_dog)))%nat /\
  exists node parent pm t',
    erase_climb (top_ car_cat_dog)
                (node_ (find car_cat_dog [4; 15; 7])) = Ok node /\
    parent_ node = Some parent /\
    deref (top_ car_cat_dog) parent = Some pm /\
    erase (find car_cat_dog [4; 15; 7]) car_cat_dog = (Ok (), t').
Proof.
  apply (erase_climb_stops_below_root 0%nat wchar_max car_cat_dog
           (find car_cat_dog [4; 15; 7]) (mk_node (7, 3%nat) true [])).
  - exact car_cat_dog_reachable.
  - vm_compute; reflexivity.
  - reflexivity.
  - reflexivity.
  - vm_compute; discriminate.
Defined.

(** C7: [advance] onto a node that is already an entry breaks the count.
    With the keys a and ab stored, advancing the iterator at a by b ends
    successfully in a state where [size()] is still 2 while a single
    non-sentinel node carries the leaf flag. *)
Theorem advance_breaks_size_count :
  let st := advance [2] (find a_ab [1], a_ab) in
  reachable 0%nat wchar_max a_ab /\
  size a_ab = 2 /\ count_entries a_ab = 2 /\
  st.1 = Ok () /\
  reachable 0%nat wchar_max st.2.2 /\
  size st.2.2 = 2 /\ count_entries st.2.2 = 1 /\
  find st.2.2 [1] = end_ st.2.2 /\
  find st.2.2 [1; 2] = st.2.1.
Proof.
  split_and!; try (vm_compute; reflexivity).
  - exact a_ab_reachable.
  - apply (reachable_advance_snd 0%nat wchar_max a_ab [1] [2]).
    + exact a_ab_reachable.
    + vm_compute; discriminate.
Qed.

(** * The further properties at concrete containers *)

Lemma car_cat_dog_no_advance :
  reachable_no_advance 0%nat wchar_max car_cat_dog.
Proof.
  unfold insert_all; cbn [foldl].
  repeat (apply reachable_no_advance_insert_snd;
          [|valid_key_tac|vm_compute; reflexivity]).
  apply plain_new.
Qed.

(** The search for d among the children c, d and the end node of the root. *)
Lemma find_by_key_binary_search_witness :
  (forall m, children_ (top_ car_cat_dog) !! find_by_key (top_ car_cat_dog) 4
             = Some m -> sym m = 4) /\
  (forall i m, children_ (top_ car_cat_dog) !! i = Some m -> sym m = 4 ->
     find_by_key (top_ car_cat_dog) 4 = i) /\
  ((forall m, m ∈ children_ (top_ car_cat_dog) -> sym m <> 4) ->
   find_by_key (top_ car_cat_dog) 4 = length (children_ (top_ car_cat_dog))).
Proof.
  apply (find_by_key_binary_search (top_ car_cat_dog) 4).
  unfold sorted_children. vm_compute. repeat constructor.
Defined.

(** Pushing c into the root that has a and the end node. *)
Lemma push_child_keeps_order_witness :
  sorted_children (push_child (top_ a_ab) (mk_node (3, 0%nat) false [])) /\
  children_ (push_child (top_ a_ab) (mk_node (3, 0%nat) false []))
    !! push_child_pos (top_ a_ab) (mk_node (3, 0%nat) false [])
  = Some (mk_node (3, 0%nat) false []) /\
  find_by_key (push_child (top_ a_ab) (mk_node (3, 0%nat) false [])) 3
  = push_child_pos (top_ a_ab) (mk_node (3, 0%nat) false []) /\
  exists l1 l2,
    children_ (top_ a_ab) = l1 ++ l2 /\
    children_ (push_child (top_ a_ab) (mk_node (3, 0%nat) false []))
    = l1 ++ mk_node (3, 0%nat) false [] :: l2.
Proof.
  apply (push_child_keeps_order (top_ a_ab) (mk_node (3, 0%nat) false [])).
  - unfold sorted_children. vm_compute. repeat constructor.
  - vm_compute. intros Hin.
    repeat (apply elem_of_cons in Hin as [Hin|Hin]; [discriminate Hin|]).
    by apply elem_of_nil in Hin.
Defined.


(** Looking up cow after inserting it. *)
Lemma insert_then_get_value_witness :
  let t' := (insert 0%nat ([3; 15; 23], 4%nat) car_cat_dog).2 in
  get_value t' [3; 15; 23] 0%nat = Ok (true, 4%nat) /\
  forall k', k' <> [3; 15; 23] ->
    (find t' k' <> end_ t' <-> find car_cat_dog k' <> end_ car_cat_dog) /\
    (find car_cat_dog k' <> end_ car_cat_dog ->
     value t' (find t' k') = value car_cat_dog (find car_cat_dog k')) /\
    get_value t' k' 0%nat = get_value car_cat_dog k' 0%nat.
Proof.
  apply (insert_then_get_value 0%nat wchar_max car_cat_dog [3; 15; 23] 4%nat 0%nat).
  - exact car_cat_dog_reachable.
  - discriminate.
  - valid_key_tac.
  - vm_compute; reflexivity.
Defined.

(** The iterator of dog spells dog. *)
Lemma find_then_key_witness :
  key car_cat_dog (find car_cat_dog [4; 15; 7]) = Ok [4; 15; 7] /\
  exists v, operator_star car_cat_dog (find car_cat_dog [4; 15; 7])
            = Ok ([4; 15; 7], v) /\
            get_value car_cat_dog [4; 15; 7] 0%nat = Ok (true, v).
Proof.
  apply (find_then_key 0%nat wchar_max car_cat_dog [4; 15; 7] 0%nat).
  - exact car_cat_dog_reachable.
  - vm_compute; discriminate.
Defined.

(** Dereferencing the iterator the insertion of cow returns. *)
Lemma insert_then_dereference_witness :
  exists it t',
    insert 0%nat ([3; 15; 23], 4%nat) car_cat_dog = (Ok it, t') /\
    key t' it = Ok [3; 15; 23] /\
    operator_star t' it = Ok ([3; 15; 23], 4%nat).
Proof.
  apply (insert_then_dereference 0%nat wchar_max car_cat_dog [3; 15; 23] 4%nat).
  - exact car_cat_dog_reachable.
  - discriminate.
  - valid_key_tac.
  - vm_compute; reflexivity.
Defined.

(** Inserting cow and erasing it again. *)
Lemma erase_undoes_insert_witness :
  exists it t1 t2,
    insert 0%nat ([3; 15; 23], 4%nat) car_cat_dog = (Ok it, t1) /\
    erase it t1 = (Ok (), t2) /\
    size t2 = size car_cat_dog /\
    forall k',
      (find t2 k' <> end_ t2 <-> find car_cat_dog k' <> end_ car_cat_dog) /\
      (find car_cat_dog k' <> end_ car_cat_dog ->
       value t2 (find t2 k') = value car_cat_dog (find car_cat_dog k')).
Proof.
  apply (erase_undoes_insert 0%nat wchar_max car_cat_dog [3; 15; 23] 4%nat).
  - exact car_cat_dog_reachable.
  - discriminate.
  - valid_key_tac.
  - vm_compute; reflexivity.
Defined.

(** Assigning 9 to the payload of car. *)
Lemma value_assign_spec_witness :
  exists t',
    value_assign (find car_cat_dog [3; 1; 18]) 9%nat car_cat_dog = (Ok (), t') /\
    find t' [3; 1; 18] = find car_cat_dog [3; 1; 18] /\
    find t' [3; 1; 18] <> end_ t' /\
    value t' (find t' [3; 1; 18]) = Ok 9%nat /\ size t' = size car_cat_dog /\
    forall k', k' <> [3; 1; 18] ->
      (find t' k' <> end_ t' <-> find car_cat_dog k' <> end_ car_cat_dog) /\
      (find car_cat_dog k' <> end_ car_cat_dog ->
       value t' (find t' k') = value car_cat_dog (find car_cat_dog k')).
Proof.
  apply (value_assign_spec 0%nat wchar_max car_cat_dog [3; 1; 18] 9%nat).
  - exact car_cat_dog_reachable.
  - vm_compute; discriminate.
Defined.

(** Stepping from car to cat and back. *)
Lemma decr_undoes_incr_witness :
  exists next,
    operator_incr wchar_max (find car_cat_dog [3; 1; 18], car_cat_dog)
    = (Ok next, (next, car_cat_dog)) /\
    operator_decr (next, car_cat_dog)
    = (Ok (find car_cat_dog [3; 1; 18]),
       (find car_cat_dog [3; 1; 18], car_cat_dog)) /\
    (next = end_ car_cat_dog \/
     exists k', find car_cat_dog k' = next /\ next <> end_ car_cat_dog).
Proof.
  apply (decr_undoes_incr 0%nat wchar_max car_cat_dog [3; 1; 18]).
  - exact car_cat_dog_reachable.
  - vm_compute; discriminate.
Defined.

(** Stepping from [end()] back to dog and forth. *)
Lemma incr_undoes_decr_witness :
  exists prev k',
    operator_decr (end_ car_cat_dog, car_cat_dog)
    = (Ok prev, (prev, car_cat_dog)) /\
    find car_cat_dog k' = prev /\ prev <> end_ car_cat_dog /\
    operator_incr wchar_max (prev, car_cat_dog)
    = (Ok (end_ car_cat_dog), (end_ car_cat_dog, car_cat_dog)).
Proof.
  apply (incr_undoes_decr 0%nat wchar_max car_cat_dog (end_ car_cat_dog)).
  - exact car_cat_dog_reachable.
  - left. reflexivity.
  - vm_compute; discriminate.
Defined.

(** The two ends of the container holding car, cat and dog. *)
Lemma step_off_the_ends_witness :
  operator_incr wchar_max (end_ car_cat_dog, car_cat_dog)
  = (Throw increment_at_end, (end_ car_cat_dog, car_cat_dog)) /\
  operator_decr (begin car_cat_dog, car_cat_dog)
  = (Throw decrement_at_begin, (begin car_cat_dog, car_cat_dog)).
Proof.
  apply (step_off_the_ends 0%nat wchar_max car_cat_dog).
  exact car_cat_dog_reachable.
Defined.

(** [empty()] on the container holding a and ab. *)
Lemma empty_spec_witness :
  (empty a_ab = true <-> forall k, find a_ab k = end_ a_ab) /\
  (empty a_ab = true <-> begin a_ab = end_ a_ab) /\
  (empty a_ab = true <-> count_entries a_ab = 0).
Proof.
  apply (empty_spec 0%nat wchar_max a_ab).
  exact a_ab_reachable.
Defined.

(** The traversal of car, cat and dog. *)
Lemma traversal_length_witness :
  exists ks,
    (forall fuel, (length ks < fuel)%nat ->
       forward_keys wchar_max fuel car_cat_dog = Ok ks) /\
    Z.of_nat (length ks) = count_entries car_cat_dog /\
    Z.of_nat (length ks) <= size car_cat_dog.
Proof.
  apply (traversal_length 0%nat wchar_max car_cat_dog).
  exact car_cat_dog_reachable.
Defined.

(** [size()] of the container holding car, cat and dog. *)
Lemma size_counts_entries_witness :
  size car_cat_dog = count_entries car_cat_dog /\
  (empty car_cat_dog = true <-> size car_cat_dog = 0).
Proof.
  apply (size_counts_entries 0%nat wchar_max car_cat_dog).
  exact car_cat_dog_no_advance.
Defined.

(** Clearing the container holding car, cat and dog. *)
Lemma clear_is_new_witness :
  clear 0%nat wchar_max car_cat_dog = trie_new 0%nat wchar_max.
Proof.
  apply (clear_is_new 0%nat wchar_max car_cat_dog).
  exact car_cat_dog_reachable.
Defined.

(** The node of ca in the container holding car, cat and dog. *)
Lemma reachable_shape_witness :
  let m := mk_node (1, 0%nat) false
             [mk_node (18, 2%nat) true []; mk_node (20, 1%nat) true []] in
  ([0; 0]%nat = [] -> is_leaf_ m = false /\ children_ m <> []) /\
  ([0; 0]%nat = end_path (top_ car_cat_dog) ->
   sym m = wchar_max /\ is_leaf_ m = true /\ children_ m = []) /\
  ([0; 0]%nat <> [] -> [0; 0]%nat <> end_path (top_ car_cat_dog) ->
   sym m < wchar_max) /\
  (children_ m = [] -> is_leaf_ m = true).
Proof.
  apply (reachable_shape 0%nat wchar_max car_cat_dog [0; 0]%nat).
  - exact car_cat_dog_reachable.
  - vm_compute; reflexivity.
Defined.

(** The key made of the largest symbol, in the container holding a and ab. *)
Lemma largest_symbol_key_is_taken_witness :
  find a_ab [wchar_max] = end_ a_ab /\
  key a_ab (end_ a_ab) = Ok [wchar_max] /\
  insert 0%nat ([wchar_max], 7%nat) a_ab = (Throw duplicate_key, a_ab).
Proof.
  apply (largest_symbol_key_is_taken 0%nat wchar_max a_ab 7%nat).
  exact a_ab_reachable.
Defined.

(** [erase(end())] on a new container. *)
Lemma erase_of_end_witness :
  erase (end_ (trie_new 0%nat wchar_max)) (trie_new 0%nat wchar_max)
  = (Undefined, trie_new 0%nat wchar_max).
Proof.
  apply (erase_of_end 0%nat wchar_max (trie_new 0%nat wchar_max)).
  - apply reach_new.
  - reflexivity.
Defined.

(** Advancing the iterator of a by b, with ab stored. *)
Lemma advance_spec_witness :
  exists it' t',
    advance [2] (find a_ab [1], a_ab) = (Ok (), (it', t')) /\
    find t' ([1] ++ [2]) = it' /\ it' <> end_ t' /\
    key t' it' = Ok ([1] ++ [2]) /\
    find t' [1] = end_ t' /\
    size t' = size a_ab /\
    (find a_ab ([1] ++ [2]) <> end_ a_ab ->
     value t' it' = value a_ab (find a_ab ([1] ++ [2]))) /\
    forall k', k' <> [1] -> k' <> [1] ++ [2] ->
      (find t' k' <> end_ t' <-> find a_ab k' <> end_ a_ab) /\
      (find a_ab k' <> end_ a_ab ->
       value t' (find t' k') = value a_ab (find a_ab k')).
Proof.
  apply (advance_spec 0%nat wchar_max a_ab [1] [2]) with (r := []).
  - exact a_ab_reachable.
  - vm_compute; discriminate.
  - discriminate.
  - vm_compute; discriminate.
Defined.

(** Inserting a key that starts with the largest symbol into a new
    container. *)
Lemma insert_below_end_node_witness :
  exists it t',
    insert 0%nat ([wchar_max; 5], 1%nat) (trie_new 0%nat wchar_max) = (Ok it, t') /\
    find t' [wchar_max; 5] = it /\ it <> end_ t' /\ value t' it = Ok 1%nat /\
    size t' = size_incr (size (trie_new 0%nat wchar_max)) /\
    empty t' = empty (trie_new 0%nat wchar_max) /\
    (empty (trie_new 0%nat wchar_max) = true -> begin t' = end_ t').
Proof.
  apply (insert_below_end_node 0%nat wchar_max (trie_new 0%nat wchar_max) 5 1%nat).
  apply reach_new.
Defined.

(** The key dog, which is stored. *)
Lemma stored_keys_are_valid_witness :
  [4; 15; 7] <> [] /\ valid_key wchar_max [4; 15; 7].
Proof.
  apply (stored_keys_are_valid 0%nat wchar_max car_cat_dog [4; 15; 7]).
  - exact car_cat_dog_reachable.
  - vm_compute; discriminate.
Defined.

(** Erasing cat and inserting it again with its payload. *)
Lemma insert_undoes_erase_witness :
  exists t1 it t2,
    erase (find car_cat_dog [3; 1; 20]) car_cat_dog = (Ok (), t1) /\
    insert 0%nat ([3; 1; 20], 1%nat) t1 = (Ok it, t2) /\
    size t2 = size car_cat_dog /\
    forall k',
      (find t2 k' <> end_ t2 <-> find car_cat_dog k' <> end_ car_cat_dog) /\
      (find car_cat_dog k' <> end_ car_cat_dog ->
       value t2 (find t2 k') = value car_cat_dog (find car_cat_dog k')).
Proof.
  apply (insert_undoes_erase 0%nat wchar_max car_cat_dog [3; 1; 20] 1%nat).
  - exact car_cat_dog_reachable.
  - vm_compute; discriminate.
  - vm_compute; reflexivity.
Defined.

(** Advancing [end()] of the container holding a and ab by b. *)
Lemma advance_at_end_witness :
  advance [2] (end_ a_ab, a_ab) = (Throw no_such_prefix, (end_ a_ab, a_ab)).
Proof.
  apply (advance_at_end 0%nat wchar_max a_ab [2]).
  exact a_ab_reachable.
Defined.
